(** * Eulerian video magnification: pyramids, temporal band-pass, recombination

    A shallow embedding of [src/app/pyramid_utils.py] and of the numerical
    core of [src/app/evm.py].

    Modelling conventions.
    - A numpy/OpenCV image is a [Frame]: its shape (rows, cols, channels) and
      its pixel values as a function of the index.  A temporal volume is a
      [Volume]: the frame count, the spatial shape and the values.
    - Floating-point numbers are idealised as real numbers ([R]): rounding is
      not modelled.  Equalities proved here are therefore exact where the
      running program is only accurate up to rounding.
    - The frequency mask of the band-pass filter is the one place where
      rounding decides a comparison.  That part is modelled a second time
      with binary64 numbers ([temporal_bandpass_filter_f64]).
    - Python exceptions are the [Raise] results of the [result] type.
    - The pixel values computed by OpenCV's filters ([cv2.pyrDown],
      [cv2.pyrUp], [cv2.resize]) are parameters of the development; their
      output sizes and size checks follow OpenCV's documentation.
    - numpy's transforms are the discrete Fourier transform and its inverse
      over complex numbers built on [R]; [np.fft.fftfreq] follows numpy's
      source.
    - The functions are first modelled on values.  Steps 3 to 5 of the
      pipeline are modelled a second time on a store of shared arrays, to
      state which arrays are allocated and which are written. *)

From Stdlib Require Import Reals Lra Lia List ZArith Bool Arith PeanoNat.
From Stdlib Require Import FunctionalExtensionality.
From Stdlib Require Strings.Byte.
From Stdlib Require Import PrimFloat.
From Stdlib Require FloatOps Uint63Axioms.
Import ListNotations.

(** ** Exceptions *)

Inductive exn : Type :=
| CvError            (* cv2.error *)
| IndexError
| ValueError
| ZeroDivisionError
| TypeError.

Inductive result (A : Type) : Type :=
| Ok (a : A)
| Raise (e : exn).

Arguments Ok {A} a.
Arguments Raise {A} e.

Definition bind {A B : Type} (m : result A) (k : A -> result B) : result B :=
  match m with
  | Ok a => k a
  | Raise e => Raise e
  end.

Declare Scope result_scope.
Delimit Scope result_scope with result.
Notation "x <- m ;; k" := (bind m (fun x => k))
  (at level 61, m at next level, right associativity) : result_scope.
Open Scope result_scope.

(** [l[i]] for a non-negative index. *)
Definition index {A : Type} (l : list A) (i : nat) : result A :=
  match nth_error l i with
  | Some a => Ok a
  | None => Raise IndexError
  end.

(** [l[-1]]. *)
Definition index_last {A : Type} (l : list A) : result A :=
  match l with
  | [] => Raise IndexError
  | _ :: _ => index l (length l - 1)
  end.

(** ** Images *)

Record Frame : Type := mkFrame {
  rows : nat;
  cols : nat;
  chans : nat;
  pix : nat -> nat -> nat -> R
}.

Definition shape (f : Frame) : nat * nat * nat := (rows f, cols f, chans f).

Definition shape_eqb (s1 s2 : nat * nat * nat) : bool :=
  let '(r1, c1, k1) := s1 in
  let '(r2, c2, k2) := s2 in
  (r1 =? r2) && (c1 =? c2) && (k1 =? k2).

Definition is_empty (f : Frame) : bool :=
  (rows f =? 0) || (cols f =? 0) || (chans f =? 0).

Definition absdiff (a b : nat) : nat := (a - b) + (b - a).

(** Sample kernels, used to run the development on concrete frames: plain
    decimation, pixel replication and nearest-neighbour resampling. *)
Definition sample_down (src : Frame) (r c k : nat) : R :=
  pix src (2 * r) (2 * c) k.

Definition sample_up (src : Frame) (width height : nat) (r c k : nat) : R :=
  pix src (r / 2) (c / 2) k.

Definition sample_resize (src : Frame) (width height : nat) (r c k : nat) : R :=
  pix src (r * rows src / height) (c * cols src / width) k.

(** A frame whose pixel at (r, c, k) is r + c + k. *)
Definition ramp (h w ch : nat) : Frame :=
  mkFrame h w ch (fun r c k => INR (r + c + k)).

(** ** Temporal volumes *)

Record Volume (A : Type) : Type := mkVolume {
  nframes : nat;
  vrows : nat;
  vcols : nat;
  vchans : nat;
  vox : nat -> nat -> nat -> nat -> A
}.

Arguments mkVolume {A} _ _ _ _ _.
Arguments nframes {A} _.
Arguments vrows {A} _.
Arguments vcols {A} _.
Arguments vchans {A} _.
Arguments vox {A} _ _ _ _ _.

Definition vshape {A : Type} (v : Volume A) : nat * nat * nat * nat :=
  (nframes v, vrows v, vcols v, vchans v).

(** [np.zeros((num_frames,) + level.shape)] and [np.zeros_like(v)]. *)
Definition zeros (num_frames : nat) (level : Frame) : Volume R :=
  mkVolume num_frames (rows level) (cols level) (chans level)
           (fun _ _ _ _ => 0%R).

Definition zeros_like (v : Volume R) : Volume R :=
  mkVolume (nframes v) (vrows v) (vcols v) (vchans v) (fun _ _ _ _ => 0%R).

(** [v[i]], without the bounds check. *)
Definition frame_at (v : Volume R) (i : nat) : Frame :=
  mkFrame (vrows v) (vcols v) (vchans v) (vox v i).

(** [v[i]]. *)
Definition frame_of (v : Volume R) (i : nat) : result Frame :=
  if i <? nframes v then Ok (frame_at v i) else Raise IndexError.

(** [v * alpha]. *)
Definition scale (alpha : R) (v : Volume R) : Volume R :=
  mkVolume (nframes v) (vrows v) (vcols v) (vchans v)
           (fun t r c k => (vox v t r c k * alpha)%R).

(** [a + b] on two arrays of the same shape. *)
Definition np_add (a b : Frame) : result Frame :=
  if shape_eqb (shape a) (shape b)
  then Ok (mkFrame (rows a) (cols a) (chans a)
                   (fun r c k => pix a r c k + pix b r c k)%R)
  else Raise ValueError.

(** ** Complex numbers and the discrete Fourier transform *)

Definition C : Type := (R * R)%type.

Definition C0 : C := (0, 0)%R.
Definition Cadd (z w : C) : C := (fst z + fst w, snd z + snd w)%R.
Definition Cmul (z w : C) : C :=
  (fst z * fst w - snd z * snd w, fst z * snd w + snd z * fst w)%R.
Definition Cscale (a : R) (z : C) : C := (a * fst z, a * snd z)%R.
Definition Cexp (theta : R) : C := (cos theta, sin theta).
Definition Re (z : C) : R := fst z.

Fixpoint Csum (f : nat -> C) (n : nat) : C :=
  match n with
  | O => C0
  | S n' => Cadd (Csum f n') (f n')
  end.

(** The angle 2*pi*j*t/n. *)
Definition angle (n j t : nat) : R := (2 * PI * INR j * INR t / INR n)%R.

(** The transform of one time series of length [n], and its inverse:
    X[j] = sum_t x[t] * exp(-2 pi i j t / n),
    x[t] = (1/n) sum_j X[j] * exp(2 pi i j t / n). *)
Definition dft (n : nat) (x : nat -> R) (j : nat) : C :=
  Csum (fun t => Cscale (x t) (Cexp (- angle n j t))) n.

Definition idft (n : nat) (X : nat -> C) (t : nat) : C :=
  Cscale (/ INR n) (Csum (fun j => Cmul (X j) (Cexp (angle n j t))) n).

(** [np.fft.fft(data, axis=0)]: every (row, column, channel) series is
    transformed on its own.  numpy refuses an empty axis. *)
Definition fft (data : Volume R) : result (Volume C) :=
  let n := nframes data in
  if n =? 0 then Raise ValueError
  else Ok (mkVolume n (vrows data) (vcols data) (vchans data)
             (fun j r c k => dft n (fun t => vox data t r c k) j)).

(** [np.fft.ifft(a, axis=0)]. *)
Definition ifft (a : Volume C) : result (Volume C) :=
  let n := nframes a in
  if n =? 0 then Raise ValueError
  else Ok (mkVolume n (vrows a) (vcols a) (vchans a)
             (fun t r c k => idft n (fun j => vox a j r c k) t)).

(** [a.real]. *)
Definition real (a : Volume C) : Volume R :=
  mkVolume (nframes a) (vrows a) (vcols a) (vchans a)
           (fun t r c k => Re (vox a t r c k)).

(** Python's float division. *)
Definition fdiv (x y : R) : result R :=
  if Req_dec_T y 0 then Raise ZeroDivisionError else Ok (x / y)%R.

(** [np.arange(start, start + len)], as integers. *)
Definition arange (start : Z) (len : nat) : list Z :=
  map (fun i => (start + Z.of_nat i)%Z) (seq 0 len).

(** [np.fft.fftfreq(n, d)]:
      val = 1.0 / (n * d); N = (n-1)//2 + 1;
      results = [0, ..., N-1, -(n//2), ..., -1]; return results * val. *)
Definition fftfreq (n : nat) (d : R) : result (list R) :=
  val <- fdiv 1 (INR n * d) ;;
  let N := ((n - 1) / 2 + 1)%nat in
  let p1 := arange 0 N in
  let p2 := arange (- Z.of_nat (n / 2)) (n / 2) in
  let results := p1 ++ p2 in
  Ok (map (fun x => (IZR x * val)%R) results).

Definition Rleb (x y : R) : bool := if Rle_dec x y then true else false.

(** [(np.abs(frequencies) >= low_freq) & (np.abs(frequencies) <= high_freq)]. *)
Definition band_mask (frequencies : list R) (low_freq high_freq : R)
  : list bool :=
  map (fun f => Rleb low_freq (Rabs f) && Rleb (Rabs f) high_freq) frequencies.

(** [b = a.copy(); b[~mask] = 0]. *)
Definition zero_outside (mask : list bool) (a : Volume C) : Volume C :=
  mkVolume (nframes a) (vrows a) (vcols a) (vchans a)
           (fun j r c k => if nth j mask false then vox a j r c k else C0).

(** ** evm.py: the temporal band-pass filter *)

Definition temporal_bandpass_filter (data : Volume R)
    (fps low_freq high_freq : R) : result (Volume R) :=
  fft_data <- fft data ;;
  d <- fdiv 1 fps ;;
  frequencies <- fftfreq (nframes data) d ;;
  let mask := band_mask frequencies low_freq high_freq in
  let fft_data_filtered := zero_outside mask fft_data in
  filtered_data <- ifft fft_data_filtered ;;
  Ok (real filtered_data).

(** The band-pass filter in the words of the specification, to compare
    with [temporal_bandpass_filter]: bin [j] has the frequency
    j * fps / numFrames, folded by absolute value above the Nyquist
    frequency; the bins whose absolute frequency is outside
    [lowFreqHz, highFreqHz] are zeroed; the real part of the inverse
    transform is kept. *)
Definition spec_abs_frequency (numFrames : nat) (fps : R) (j : nat) : R :=
  (INR (Nat.min j (numFrames - j)) * fps / INR numFrames)%R.

Definition spec_in_band (lowFreqHz highFreqHz f : R) : bool :=
  Rleb lowFreqHz f && Rleb f highFreqHz.

Definition spec_bandpass (volume : Volume R) (fps lowFreqHz highFreqHz : R)
  : Volume R :=
  let numFrames := nframes volume in
  mkVolume numFrames (vrows volume) (vcols volume) (vchans volume)
    (fun t r c k =>
       let series := fun t' => vox volume t' r c k in
       let kept := fun j =>
         if spec_in_band lowFreqHz highFreqHz
                         (spec_abs_frequency numFrames fps j)
         then dft numFrames series j else C0 in
       Re (idft numFrames kept t)).

(** ** The frequencies and the mask in float64

    [fps], [low_freq] and [high_freq] are Python floats and
    [np.fft.fftfreq] returns a float64 array, so the mask is decided by
    comparisons of float64 values.  Rounding can move a frequency across a
    band edge, which changes the mask and with it the output.  This part of
    [temporal_bandpass_filter] is therefore written a second time with the
    kernel's binary64 numbers; the transforms stay in exact arithmetic. *)

(** A Python [int] or an element of a numpy integer array as a float64:
    exact below 2^53, rounded to nearest above (integers below 2^63). *)
Definition f64_of_Z (z : Z) : float :=
  match z with
  | Z0 => zero
  | Zpos p => of_uint63 (Uint63Axioms.of_Z (Zpos p))
  | Zneg p => (- of_uint63 (Uint63Axioms.of_Z (Zpos p)))%float
  end.

(** Python's float division: [ZeroDivisionError] when the divisor compares
    equal to zero, the binary64 quotient otherwise. *)
Definition fdiv_f64 (x y : float) : result float :=
  if (y =? 0)%float then Raise ZeroDivisionError else Ok (x / y)%float.

(** [np.fft.fftfreq(n, d)], as in [fftfreq]: [n * d], [1.0 / (n * d)] and
    [results * val] are float64 operations. *)
Definition fftfreq_f64 (n : nat) (d : float) : result (list float) :=
  val <- fdiv_f64 1 (f64_of_Z (Z.of_nat n) * d) ;;
  let N := ((n - 1) / 2 + 1)%nat in
  let p1 := arange 0 N in
  let p2 := arange (- Z.of_nat (n / 2)) (n / 2) in
  let results := p1 ++ p2 in
  Ok (map (fun x => (f64_of_Z x * val)%float) results).

(** [(np.abs(frequencies) >= low_freq) & (np.abs(frequencies) <= high_freq)]. *)
Definition band_mask_f64 (frequencies : list float)
    (low_freq high_freq : float) : list bool :=
  map (fun f => (low_freq <=? abs f)%float && (abs f <=? high_freq)%float)
      frequencies.

Definition temporal_bandpass_filter_f64 (data : Volume R)
    (fps low_freq high_freq : float) : result (Volume R) :=
  fft_data <- fft data ;;
  d <- fdiv_f64 1 fps ;;
  frequencies <- fftfreq_f64 (nframes data) d ;;
  let mask := band_mask_f64 frequencies low_freq high_freq in
  let fft_data_filtered := zero_outside mask fft_data in
  filtered_data <- ifft fft_data_filtered ;;
  Ok (real filtered_data).

(** The band-pass filter in the words of the specification, but for the
    frequency of a bin, to compare with [temporal_bandpass_filter_f64]: the
    frequency of bin [j] is the float64
    value [k * val], with [k = j] in the lower half of the bins and
    [k = j - numFrames] in the upper half, and
    [val = 1 / (numFrames * (1 / fps))], every operation rounded; the bins
    whose frequency has an absolute value outside [lowFreqHz, highFreqHz]
    are zeroed; the real part of the inverse transform is kept. *)
Definition f64_bin_frequency (numFrames : nat) (fps : float) (j : nat)
  : float :=
  let val := (1 / (f64_of_Z (Z.of_nat numFrames) * (1 / fps)))%float in
  let k := if j <? (numFrames - 1) / 2 + 1 then Z.of_nat j
           else (Z.of_nat j - Z.of_nat numFrames)%Z in
  (f64_of_Z k * val)%float.

Definition f64_in_band (lowFreqHz highFreqHz f : float) : bool :=
  (lowFreqHz <=? abs f)%float && (abs f <=? highFreqHz)%float.

Definition spec_bandpass_f64 (volume : Volume R)
    (fps lowFreqHz highFreqHz : float) : Volume R :=
  let numFrames := nframes volume in
  mkVolume numFrames (vrows volume) (vcols volume) (vchans volume)
    (fun t r c k =>
       let series := fun t' => vox volume t' r c k in
       let kept := fun j =>
         if f64_in_band lowFreqHz highFreqHz
                        (f64_bin_frequency numFrames fps j)
         then dft numFrames series j else C0 in
       Re (idft numFrames kept t)).

(** The real number that a finite float64 stands for (0 for the infinities
    and NaN, which stand for none). *)
Definition f64_value (x : float) : R :=
  match FloatOps.Prim2SF x with
  | SpecFloat.S754_finite s m e =>
      let a := IZR (if s then Zneg m else Zpos m) in
      match e with
      | Z0 => a
      | Zpos p => (a * IZR (Z.pow_pos 2 p))%R
      | Zneg p => (a / IZR (Z.pow_pos 2 p))%R
      end
  | _ => 0%R
  end.

(** A volume whose every voxel is [x], and a volume that changes in time. *)
Definition const_volume (n h w ch : nat) (x : R) : Volume R :=
  mkVolume n h w ch (fun _ _ _ _ => x).

Definition ramp_volume (n h w ch : nat) : Volume R :=
  mkVolume n h w ch (fun t r c k => INR (t + r + c + k)).

(** The shapes of a pyramid: level [m] has the shape of level 0 halved [m]
    times, rounding up. *)
Definition half_shape (s : nat * nat * nat) : nat * nat * nat :=
  let '(r, c, k) := s in ((r + 1) / 2, (c + 1) / 2, k).

Definition nonempty_shape (s : nat * nat * nat) : Prop :=
  let '(r, c, k) := s in 1 <= r /\ 1 <= c /\ 1 <= k.

Definition pyramid_shaped (sh : nat * nat * nat) (n : nat) (l : list Frame)
  : Prop :=
  length l = S n /\
  forall m f, nth_error l m = Some f -> shape f = Nat.iter m half_shape sh.

(** The volumes of a run: one per level, [N] time samples each. *)
Definition volumes_shaped (sh : nat * nat * nat) (n N : nat)
    (l : list (Volume R)) : Prop :=
  length l = S n /\
  forall m V, nth_error l m = Some V ->
    nframes V = N /\ shape (frame_at V 0) = Nat.iter m half_shape sh.

Section OpenCV.

Set Default Proof Using "Type".

(** The values computed by OpenCV's pyramid and resize filters. *)
Variable pyrDown_values : Frame -> nat -> nat -> nat -> R.
Variable pyrUp_values : Frame -> nat -> nat -> nat -> nat -> nat -> R.
Variable resize_values : Frame -> nat -> nat -> nat -> nat -> nat -> R.

(** [cv2.pyrDown(src)].  OpenCV documents the default output size as
    Size((src.cols+1)/2, (src.rows+1)/2); an empty image is refused. *)
Definition pyrDown (src : Frame) : result Frame :=
  if is_empty src then Raise CvError
  else Ok (mkFrame ((rows src + 1) / 2) ((cols src + 1) / 2) (chans src)
                   (pyrDown_values src)).

(** [cv2.pyrUp(src, dstsize=(width, height))].  OpenCV requires
    |width - 2*src.cols| = width mod 2 and |height - 2*src.rows| = height mod 2,
    and returns an image of the size asked for. *)
Definition pyrUp (src : Frame) (width height : nat) : result Frame :=
  if is_empty src then Raise CvError
  else if (absdiff width (2 * cols src) =? width mod 2)
          && (absdiff height (2 * rows src) =? height mod 2)
  then Ok (mkFrame height width (chans src) (pyrUp_values src width height))
  else Raise CvError.

(** [cv2.subtract] and [cv2.add] on two float arrays of the same shape. *)
Definition cv_subtract (a b : Frame) : result Frame :=
  if shape_eqb (shape a) (shape b)
  then Ok (mkFrame (rows a) (cols a) (chans a)
                   (fun r c k => pix a r c k - pix b r c k)%R)
  else Raise CvError.

Definition cv_add (a b : Frame) : result Frame :=
  if shape_eqb (shape a) (shape b)
  then Ok (mkFrame (rows a) (cols a) (chans a)
                   (fun r c k => pix a r c k + pix b r c k)%R)
  else Raise CvError.

(** ** pyramid_utils.py *)

(** The loop of [build_gaussian_pyramid]: [n] further levels below [image]. *)
Fixpoint gaussian_loop (n : nat) (image : Frame) : result (list Frame) :=
  match n with
  | O => Ok []
  | S n' =>
      image' <- pyrDown image ;;
      rest <- gaussian_loop n' image' ;;
      Ok (image' :: rest)
  end.

Definition build_gaussian_pyramid (image : Frame) (levels : Z)
  : result (list Frame) :=
  rest <- gaussian_loop (Z.to_nat (levels - 1)) image ;;
  Ok (image :: rest).

(** Every level of [gp] is the [pyrDown] of the level before it. *)
Definition pyrDown_chain (gp : list Frame) : Prop :=
  forall i a b, nth_error gp i = Some a -> nth_error gp (S i) = Some b ->
                pyrDown a = Ok b.

(** The loop of [build_laplacian_pyramid], for [i], [i+1], ... ([n] rounds). *)
Fixpoint laplacian_loop (gaussian_pyramid : list Frame) (i n : nat)
  : result (list Frame) :=
  match n with
  | O => Ok []
  | S n' =>
      g_next <- index gaussian_pyramid (i + 1) ;;
      g_i <- index gaussian_pyramid i ;;
      upsampled <- pyrUp g_next (cols g_i) (rows g_i) ;;
      laplacian <- cv_subtract g_i upsampled ;;
      rest <- laplacian_loop gaussian_pyramid (S i) n' ;;
      Ok (laplacian :: rest)
  end.

Definition build_laplacian_pyramid (image : Frame) (levels : Z)
  : result (list Frame) :=
  gaussian_pyramid <- build_gaussian_pyramid image levels ;;
  details <- laplacian_loop gaussian_pyramid 0 (Z.to_nat (levels - 1)) ;;
  coarsest <- index_last gaussian_pyramid ;;
  Ok (details ++ [coarsest]).

(** The loop of [reconstruct_from_laplacian_pyramid]: indices
    [n-1], [n-2], ..., [0]. *)
Fixpoint reconstruct_loop (pyramid : list Frame) (n : nat) (image : Frame)
  : result Frame :=
  match n with
  | O => Ok image
  | S i =>
      p_i <- index pyramid i ;;
      upsampled <- pyrUp image (cols p_i) (rows p_i) ;;
      image' <- cv_add upsampled p_i ;;
      reconstruct_loop pyramid i image'
  end.

Definition reconstruct_from_laplacian_pyramid (pyramid : list Frame)
  : result Frame :=
  image <- index_last pyramid ;;
  reconstruct_loop pyramid (length pyramid - 1) image.

(** ** evm.py: the pipeline of [eulerian_magnification] *)

(** [cv2.resize(src, (width, height), interpolation=cv2.INTER_LINEAR)]. *)
Definition resize (src : Frame) (width height : nat) : result Frame :=
  if is_empty src || (width =? 0) || (height =? 0) then Raise CvError
  else Ok (mkFrame height width (chans src) (resize_values src width height)).

(** [vol[i] = f] with numpy's broadcasting of a single channel. *)
Definition set_frame (vol : Volume R) (i : nat) (f : Frame)
  : result (Volume R) :=
  if negb (i <? nframes vol) then Raise IndexError
  else if shape_eqb (shape f) (shape (frame_at vol i))
  then Ok (mkVolume (nframes vol) (vrows vol) (vcols vol) (vchans vol)
             (fun t => if t =? i then pix f else vox vol t))
  else if (rows f =? vrows vol) && (cols f =? vcols vol) && (chans f =? 1)
  then Ok (mkVolume (nframes vol) (vrows vol) (vcols vol) (vchans vol)
             (fun t => if t =? i then (fun r c _ => pix f r c 0)
                       else vox vol t))
  else Raise ValueError.

(** The body of the loop over the levels of one frame's pyramid (step 2). *)
Definition store_level (vol : Volume R) (i : nat) (level_data : Frame)
  : result (Volume R) :=
  slot <- frame_of vol i ;;
  if shape_eqb (shape level_data) (shape slot)
  then set_frame vol i level_data
  else
    resized_level <- resize level_data (cols slot) (rows slot) ;;
    set_frame vol i resized_level.

Fixpoint list_set {A : Type} (l : list A) (i : nat) (x : A) : list A :=
  match l, i with
  | [], _ => []
  | _ :: tl, O => x :: tl
  | hd :: tl, S i' => hd :: list_set tl i' x
  end.

Fixpoint store_levels (pyramid_video_t : list (Volume R)) (i level_idx : nat)
    (lap_pyramid : list Frame) : result (list (Volume R)) :=
  match lap_pyramid with
  | [] => Ok pyramid_video_t
  | level_data :: rest =>
      vol <- index pyramid_video_t level_idx ;;
      vol' <- store_level vol i level_data ;;
      store_levels (list_set pyramid_video_t level_idx vol') i
                   (S level_idx) rest
  end.

(** Step 2: one Laplacian pyramid per frame, stored level by level. *)
Fixpoint assemble_loop (frames : list Frame) (i num_frames : nat)
    (pyramid_levels : Z) (pyramid_video_t : list (Volume R))
  : result (list (Volume R)) :=
  match frames with
  | [] => Ok pyramid_video_t
  | frame :: rest =>
      lap_pyramid <- build_laplacian_pyramid frame pyramid_levels ;;
      let pyramid_video_t0 :=
        if i =? 0 then map (zeros num_frames) lap_pyramid
        else pyramid_video_t in
      pyramid_video_t' <- store_levels pyramid_video_t0 i 0 lap_pyramid ;;
      assemble_loop rest (S i) num_frames pyramid_levels pyramid_video_t'
  end.

(** The skip test of step 3:
    [level_idx < pyramid_levels - 1 and min(level_video.shape[1:3]) > 4]. *)
Definition is_filtered (pyramid_levels : Z) (level_idx : nat)
    (level_video : Volume R) : bool :=
  (Z.of_nat level_idx <? pyramid_levels - 1)%Z
  && (4 <? Nat.min (vrows level_video) (vcols level_video)).

(** Step 3: temporal filtering of each level. *)
Fixpoint filter_loop (pyramid_levels : Z) (fps low_freq high_freq : R)
    (level_idx : nat) (pyramid_video_t : list (Volume R))
  : result (list (Volume R)) :=
  match pyramid_video_t with
  | [] => Ok []
  | level_video :: rest =>
      filtered_level <-
        (if is_filtered pyramid_levels level_idx level_video
         then temporal_bandpass_filter level_video fps low_freq high_freq
         else Ok (zeros_like level_video)) ;;
      others <- filter_loop pyramid_levels fps low_freq high_freq
                            (S level_idx) rest ;;
      Ok (filtered_level :: others)
  end.

(** Step 4: [[level * amplification_factor for level in ...]]. *)
Definition amplify (filtered_pyramid_video_t : list (Volume R))
    (amplification_factor : R) : list (Volume R) :=
  map (scale amplification_factor) filtered_pyramid_video_t.

(** Step 5, inner loop: the pyramid of output frame [i], for the level
    indices [level_idx], ..., [level_idx + n - 1]. *)
Fixpoint recombine_loop (pyramid_video_t amplified_pyramid_video_t
    : list (Volume R)) (i level_idx n : nat) : result (list Frame) :=
  match n with
  | O => Ok []
  | S n' =>
      vol <- index pyramid_video_t level_idx ;;
      original_level <- frame_of vol i ;;
      avol <- index amplified_pyramid_video_t level_idx ;;
      amplified_signal <- frame_of avol i ;;
      level <- np_add original_level amplified_signal ;;
      rest <- recombine_loop pyramid_video_t amplified_pyramid_video_t
                             i (S level_idx) n' ;;
      Ok (level :: rest)
  end.

Definition recombine (pyramid_video_t amplified_pyramid_video_t
    : list (Volume R)) (pyramid_levels : Z) (i : nat) : result (list Frame) :=
  recombine_loop pyramid_video_t amplified_pyramid_video_t i 0
                 (Z.to_nat pyramid_levels).

(** Step 5, outer loop: frames [i], ..., [i + n - 1]. *)
Fixpoint reconstruct_frames (pyramid_video_t amplified_pyramid_video_t
    : list (Volume R)) (pyramid_levels : Z) (i n : nat)
  : result (list Frame) :=
  match n with
  | O => Ok []
  | S n' =>
      current_frame_pyramid <-
        recombine pyramid_video_t amplified_pyramid_video_t pyramid_levels i ;;
      reconstructed_frame <-
        reconstruct_from_laplacian_pyramid current_frame_pyramid ;;
      rest <- reconstruct_frames pyramid_video_t amplified_pyramid_video_t
                                 pyramid_levels (S i) n' ;;
      Ok (reconstructed_frame :: rest)
  end.

(** Steps 3 to 5 of [eulerian_magnification]. *)
Definition filter_amplify_reconstruct (pyramid_video_t : list (Volume R))
    (num_frames : nat) (fps : R) (pyramid_levels : Z)
    (low_freq high_freq amplification_factor : R) : result (list Frame) :=
  filtered_pyramid_video_t <-
    filter_loop pyramid_levels fps low_freq high_freq 0 pyramid_video_t ;;
  reconstruct_frames pyramid_video_t
                     (amplify filtered_pyramid_video_t amplification_factor)
                     pyramid_levels 0 num_frames.

(** Steps 2 to 5 of [eulerian_magnification], from the decoded frames to
    the frames handed to [save_video]. *)
Definition magnify (frames : list Frame) (fps : R) (pyramid_levels : Z)
    (low_freq high_freq amplification_factor : R) : result (list Frame) :=
  let num_frames := length frames in
  pyramid_video_t <- assemble_loop frames 0 num_frames pyramid_levels [] ;;
  filter_amplify_reconstruct pyramid_video_t num_frames fps pyramid_levels
                             low_freq high_freq amplification_factor.

(** [eulerian_magnification] returns [None] when no frame was loaded and
    when any step raises: every exception is caught. *)
Definition eulerian_magnification (frames : list Frame) (fps : R)
    (pyramid_levels : Z) (low_freq high_freq amplification_factor : R)
  : option (list Frame) :=
  match frames with
  | [] => None
  | _ :: _ =>
      match magnify frames fps pyramid_levels low_freq high_freq
                    amplification_factor with
      | Ok output_frames => Some output_frames
      | Raise _ => None
      end
  end.

(** ** The same steps on a store of shared arrays

    numpy arrays are mutable objects that several variables and views may
    share.  Here every array lives in a store, Python variables hold
    references, and each operation says which arrays it allocates and which
    it writes.  Steps 3 to 5 of [eulerian_magnification] are written again
    in this style; they are proved to compute what the functions above
    compute and to leave the arrays they are given untouched. *)

Inductive array : Type :=
| RealArray (v : Volume R)
| ComplexArray (v : Volume C)
| ImageArray (f : Frame).

(** Every array allocated so far; a location is a position in the store. *)
Definition store : Type := list array.
Definition loc : Type := nat.

(** What a variable holds: an array, or a view sharing its memory
    ([a.real], [a[i]]). *)
Inductive ref : Type :=
| Whole (l : loc)
| RealPart (l : loc)
| FrameOf (l : loc) (i : nat).

Definition St (A : Type) : Type := store -> result (A * store).

Definition ret {A : Type} (a : A) : St A := fun s => Ok (a, s).

Definition bindS {A B : Type} (m : St A) (k : A -> St B) : St B :=
  fun s => match m s with
           | Ok (a, s') => k a s'
           | Raise e => Raise e
           end.

Definition lift {A : Type} (r : result A) : St A :=
  fun s => match r with
           | Ok a => Ok (a, s)
           | Raise e => Raise e
           end.

Notation "x <~ m ;; k" := (bindS m (fun x => k))
  (at level 61, m at next level, right associativity) : result_scope.

(** A new array. *)
Definition alloc (a : array) : St loc :=
  fun s => Ok (length s, s ++ [a]).

Definition load (l : loc) : St array :=
  fun s => match nth_error s l with
           | Some a => Ok (a, s)
           | None => Raise TypeError
           end.

(** A write into an existing array. *)
Definition overwrite (l : loc) (a : array) : St unit :=
  fun s => if l <? length s then Ok (tt, list_set s l a)
           else Raise TypeError.

Definition read_complex (l : loc) : St (Volume C) :=
  a <~ load l ;;
  match a with
  | ComplexArray v => ret v
  | _ => lift (Raise TypeError)
  end.

Definition read_volume (r : ref) : St (Volume R) :=
  match r with
  | Whole l =>
      a <~ load l ;;
      match a with
      | RealArray v => ret v
      | _ => lift (Raise TypeError)
      end
  | RealPart l => v <~ read_complex l ;; ret (real v)
  | FrameOf _ _ => lift (Raise TypeError)
  end.

Definition read_frame (r : ref) : St Frame :=
  match r with
  | Whole l =>
      a <~ load l ;;
      match a with
      | ImageArray f => ret f
      | _ => lift (Raise TypeError)
      end
  | FrameOf l i => v <~ read_volume (Whole l) ;; lift (frame_of v i)
  | RealPart _ => lift (Raise TypeError)
  end.

(** [vol[i]]: a view, after the bounds check. *)
Definition view_frame (l : loc) (i : nat) : St ref :=
  v <~ read_volume (Whole l) ;;
  _ <~ lift (frame_of v i) ;;
  ret (FrameOf l i).

(** [temporal_bandpass_filter]: the transform is a new array, its copy is
    zeroed in place outside the band, the inverse transform is a new array
    and the result is the view [.real] of it. *)
Definition temporal_bandpass_filter_st (data : ref)
    (fps low_freq high_freq : R) : St ref :=
  d <~ read_volume data ;;
  X <~ lift (fft d) ;;
  fft_data <~ alloc (ComplexArray X) ;;
  dt <~ lift (fdiv 1 fps) ;;
  frequencies <~ lift (fftfreq (nframes d) dt) ;;
  let mask := band_mask frequencies low_freq high_freq in
  a <~ read_complex fft_data ;;
  fft_data_filtered <~ alloc (ComplexArray a) ;;
  b <~ read_complex fft_data_filtered ;;
  _ <~ overwrite fft_data_filtered (ComplexArray (zero_outside mask b)) ;;
  b' <~ read_complex fft_data_filtered ;;
  Y <~ lift (ifft b') ;;
  filtered_data <~ alloc (ComplexArray Y) ;;
  ret (RealPart filtered_data).

(** Step 3. *)
Fixpoint filter_loop_st (pyramid_levels : Z) (fps low_freq high_freq : R)
    (level_idx : nat) (pyramid_video_t : list loc) : St (list ref) :=
  match pyramid_video_t with
  | [] => ret []
  | l :: rest =>
      level_video <~ read_volume (Whole l) ;;
      filtered_level <~
        (if is_filtered pyramid_levels level_idx level_video
         then temporal_bandpass_filter_st (Whole l) fps low_freq high_freq
         else z <~ alloc (RealArray (zeros_like level_video)) ;;
              ret (Whole z)) ;;
      others <~ filter_loop_st pyramid_levels fps low_freq high_freq
                               (S level_idx) rest ;;
      ret (filtered_level :: others)
  end.

(** Step 4: each product is a new array. *)
Fixpoint amplify_st (filtered_pyramid_video_t : list ref)
    (amplification_factor : R) : St (list loc) :=
  match filtered_pyramid_video_t with
  | [] => ret []
  | r :: rest =>
      level <~ read_volume r ;;
      l <~ alloc (RealArray (scale amplification_factor level)) ;;
      others <~ amplify_st rest amplification_factor ;;
      ret (l :: others)
  end.

(** Step 5, inner loop: two views are read and their sum is a new array. *)
Fixpoint recombine_loop_st (pyramid_video_t amplified_pyramid_video_t
    : list loc) (i level_idx n : nat) : St (list loc) :=
  match n with
  | O => ret []
  | S n' =>
      l <~ lift (index pyramid_video_t level_idx) ;;
      original_level <~ view_frame l i ;;
      la <~ lift (index amplified_pyramid_video_t level_idx) ;;
      amplified_signal <~ view_frame la i ;;
      o <~ read_frame original_level ;;
      a <~ read_frame amplified_signal ;;
      sum <~ lift (np_add o a) ;;
      level <~ alloc (ImageArray sum) ;;
      rest <~ recombine_loop_st pyramid_video_t amplified_pyramid_video_t
                                i (S level_idx) n' ;;
      ret (level :: rest)
  end.

(** [reconstruct_from_laplacian_pyramid]: [pyrUp], both [astype] and
    [cv2.add] return new arrays. *)
Fixpoint reconstruct_loop_st (pyramid : list loc) (n : nat) (image : loc)
  : St loc :=
  match n with
  | O => ret image
  | S i =>
      lp <~ lift (index pyramid i) ;;
      p_i <~ read_frame (Whole lp) ;;
      img <~ read_frame (Whole image) ;;
      up <~ lift (pyrUp img (cols p_i) (rows p_i)) ;;
      upsampled <~ alloc (ImageArray up) ;;
      term1 <~ alloc (ImageArray up) ;;
      term2 <~ alloc (ImageArray p_i) ;;
      sum <~ lift (cv_add up p_i) ;;
      image' <~ alloc (ImageArray sum) ;;
      reconstruct_loop_st pyramid i image'
  end.

Definition reconstruct_from_laplacian_pyramid_st (pyramid : list loc)
  : St loc :=
  image <~ lift (index_last pyramid) ;;
  reconstruct_loop_st pyramid (length pyramid - 1) image.

(** Step 5, outer loop. *)
Fixpoint reconstruct_frames_st (pyramid_video_t amplified_pyramid_video_t
    : list loc) (pyramid_levels : Z) (i n : nat) : St (list loc) :=
  match n with
  | O => ret []
  | S n' =>
      current_frame_pyramid <~
        recombine_loop_st pyramid_video_t amplified_pyramid_video_t i 0
                          (Z.to_nat pyramid_levels) ;;
      reconstructed_frame <~
        reconstruct_from_laplacian_pyramid_st current_frame_pyramid ;;
      rest <~ reconstruct_frames_st pyramid_video_t amplified_pyramid_video_t
                                    pyramid_levels (S i) n' ;;
      ret (reconstructed_frame :: rest)
  end.

(** Steps 3 to 5 on the store. *)
Definition filter_amplify_reconstruct_st (pyramid_video_t : list loc)
    (num_frames : nat) (fps : R) (pyramid_levels : Z)
    (low_freq high_freq amplification_factor : R) : St (list loc) :=
  filtered_pyramid_video_t <~
    filter_loop_st pyramid_levels fps low_freq high_freq 0 pyramid_video_t ;;
  amplified_pyramid_video_t <~
    amplify_st filtered_pyramid_video_t amplification_factor ;;
  reconstruct_frames_st pyramid_video_t amplified_pyramid_video_t
                        pyramid_levels 0 num_frames.

(** The arrays at the locations below [n] are the same in [s'] as in [s]. *)
Definition preserved (n : nat) (s s' : store) : Prop :=
  n <= length s /\ n <= length s' /\
  forall l, l < n -> nth_error s' l = nth_error s l.

(** An operation on the store refines a computation on values: it fails
    when the computation fails, with the same exception; otherwise it leaves
    the arrays below [n] as they were, and its result is related to the
    value. *)
Definition refines {A B : Type} (n : nat) (s : store) (m : St A)
    (p : result B) (rel : store -> A -> B -> Prop) : Prop :=
  match p with
  | Ok b => exists a s', m s = Ok (a, s') /\ preserved n s s' /\ rel s' a b
  | Raise e => m s = Raise e
  end.

Definition holds_volume (s : store) (l : loc) (V : Volume R) : Prop :=
  nth_error s l = Some (RealArray V).

Definition holds_frame (s : store) (l : loc) (f : Frame) : Prop :=
  nth_error s l = Some (ImageArray f).

(** The volume seen through a reference. *)
Definition reads (s : store) (r : ref) (V : Volume R) : Prop :=
  match r with
  | Whole l => nth_error s l = Some (RealArray V)
  | RealPart l => exists Y, nth_error s l = Some (ComplexArray Y) /\ V = real Y
  | FrameOf _ _ => False
  end.

(** ** Further definitions *)

(** The complex conjugate. *)
Definition Cconj (z : C) : C := (fst z, (- snd z)%R).

(** The sum over time of the series of one pixel, [v[:, r, c, k].sum()]. *)
Fixpoint Rsum (f : nat -> R) (n : nat) : R :=
  match n with
  | O => 0%R
  | S n' => (Rsum f n' + f n')%R
  end.

Definition temporal_sum (V : Volume R) (r c k : nat) : R :=
  Rsum (fun t => vox V t r c k) (nframes V).

(** ** evm.py: reading and writing the video *)

(** A decoded frame: an array of 8-bit values. *)
Record RawFrame : Type := mkRawFrame {
  raw_rows : nat;
  raw_cols : nat;
  raw_chans : nat;
  raw_pix : nat -> nat -> nat -> Byte.byte
}.

(** What [cv2.VideoCapture] gives for a file: whether it could be opened,
    its properties, and the frames that [cap.read()] returns one after the
    other before it returns [ret = False]. *)
Record Video : Type := mkVideo {
  is_opened : bool;
  video_fps : R;
  video_width : nat;
  video_height : nat;
  video_frames : list RawFrame
}.

(** The exceptions of [load_video]. *)
Inductive load_exn : Type :=
| LoadIOError        (* IOError: cannot open the file *)
| LoadValueError.    (* ValueError: no frame could be read *)

(** [frame.astype(np.float32) / 255.0]. *)
Definition normalize (raw : RawFrame) : Frame :=
  mkFrame (raw_rows raw) (raw_cols raw) (raw_chans raw)
          (fun r c k => (INR (Byte.to_nat (raw_pix raw r c k)) / 255)%R).

(** The reading loop of [load_video]; [frames_read] frames were read
    before. *)
Fixpoint read_frames (stream : list RawFrame) (frames_read : Z)
    (max_frames : option Z) : list Frame :=
  match stream with
  | [] => []
  | frame :: rest =>
      let frames_read' := (frames_read + 1)%Z in
      if match max_frames with
         | Some m => (m <=? frames_read')%Z
         | None => false
         end
      then [normalize frame]
      else normalize frame :: read_frames rest frames_read' max_frames
  end.

Definition load_video (video : Video) (max_frames : option Z)
  : load_exn + (list Frame * R * nat * nat) :=
  if negb (is_opened video) then inl LoadIOError
  else
    let frames := read_frames (video_frames video) 0 max_frames in
    match frames with
    | [] => inl LoadValueError
    | _ :: _ =>
        inr (frames, video_fps video, video_width video, video_height video)
    end.

(** [np.clip(x, lo, hi)]. *)
Definition clip (x lo hi : R) : R := Rmin (Rmax x lo) hi.

(** [.astype(np.uint8)] of a value between 0 and 255: the fraction is
    dropped. *)
Definition to_uint8 (x : R) : Byte.byte :=
  match Byte.of_nat (Z.to_nat (Int_part x)) with
  | Some b => b
  | None => Byte.x00
  end.

(** [np.clip(frame * 255.0, 0, 255).astype(np.uint8)]. *)
Definition denormalize (frame : Frame) : RawFrame :=
  mkRawFrame (rows frame) (cols frame) (chans frame)
             (fun r c k => to_uint8 (clip (pix frame r c k * 255) 0 255)).

(** [save_video]: the frames written, or nothing when the writer could not
    be opened. *)
Definition save_video (frames : list Frame) (writer_opened : bool)
  : option (list RawFrame) :=
  if negb writer_opened then None else Some (map denormalize frames).


(** Sample data: a decoded frame whose value at (r, c, k) is r + c + k
    modulo 256, and a file of [n] such frames at 30 frames per second. *)
Definition raw_ramp (h w ch : nat) : RawFrame :=
  mkRawFrame h w ch
    (fun r c k => match Byte.of_nat ((r + c + k) mod 256) with
                  | Some b => b
                  | None => Byte.x00
                  end).

Definition sample_video (n h w ch : nat) : Video :=
  mkVideo true 30 w h (repeat (raw_ramp h w ch) n).


(** * Properties *)

(** ** Basic facts on results and shapes *)

Lemma bind_Ok_inv {A B : Type} (m : result A) (k : A -> result B) (b : B) :
  bind m k = Ok b -> exists a, m = Ok a /\ k a = Ok b.
Proof.
  destruct m as [a | e]; simpl; intros H; [eauto | discriminate].
Qed.

Lemma shape_eqb_eq (s1 s2 : nat * nat * nat) :
  shape_eqb s1 s2 = true <-> s1 = s2.
Proof.
  destruct s1 as [[r1 c1] k1], s2 as [[r2 c2] k2]; simpl.
  rewrite !andb_true_iff, !Nat.eqb_eq.
  split; [intros [[-> ->] ->]; reflexivity | intros H; inversion H; auto].
Qed.

Lemma shape_eqb_refl (s : nat * nat * nat) : shape_eqb s s = true.
Proof. apply shape_eqb_eq; reflexivity. Qed.

Lemma is_empty_false (f : Frame) :
  is_empty f = false <-> (1 <= rows f /\ 1 <= cols f /\ 1 <= chans f).
Proof.
  unfold is_empty. rewrite !orb_false_iff, !Nat.eqb_neq. lia.
Qed.

Lemma index_Ok {A : Type} (l : list A) (i : nat) (a : A) :
  index l i = Ok a <-> nth_error l i = Some a.
Proof.
  unfold index. destruct (nth_error l i); split; congruence.
Qed.

Lemma index_last_app {A : Type} (l : list A) (a : A) :
  index_last (l ++ [a]) = Ok a.
Proof.
  unfold index_last. destruct (l ++ [a]) eqn:E.
  - destruct l; discriminate.
  - rewrite <- E. apply index_Ok.
    rewrite length_app, Nat.add_sub. simpl.
    rewrite nth_error_app2, Nat.sub_diag by lia. reflexivity.
Qed.

Lemma last_nonempty_default {A : Type} (l : list A) (c a b : A) :
  last (c :: l) a = last (c :: l) b.
Proof.
  revert c. induction l as [| d l IH]; intros c; [reflexivity |].
  change (last (d :: l) a = last (d :: l) b). apply IH.
Qed.

Lemma last_cons_default {A : Type} (l : list A) (a b : A) :
  last (b :: l) a = last l b.
Proof.
  destruct l as [| c l]; [reflexivity |].
  change (last (c :: l) a = last (c :: l) b). apply last_nonempty_default.
Qed.

Lemma nth_error_length_last {A : Type} (l : list A) (a : A) :
  nth_error (a :: l) (length l) = Some (last l a).
Proof.
  revert a. induction l as [| b l IH]; intros a; [reflexivity |].
  change (nth_error (b :: l) (length l) = Some (last (b :: l) a)).
  rewrite IH, last_cons_default. reflexivity.
Qed.

Lemma index_last_cons {A : Type} (a : A) (l : list A) :
  index_last (a :: l) = Ok (last l a).
Proof.
  unfold index_last. apply index_Ok.
  replace (length (a :: l) - 1) with (length l) by (simpl; lia).
  apply nth_error_length_last.
Qed.

(** ** OpenCV wrappers *)

Lemma half_up_pos (n : nat) : 1 <= n -> 1 <= (n + 1) / 2.
Proof.
  intros H. apply (Nat.div_le_lower_bound (n + 1) 2 1); lia.
Qed.

Lemma half_up_double (n : nat) : absdiff n (2 * ((n + 1) / 2)) = n mod 2.
Proof.
  unfold absdiff.
  pose proof (Nat.div_mod_eq (n + 1) 2) as H1.
  pose proof (Nat.div_mod_eq n 2) as H2.
  pose proof (Nat.mod_upper_bound (n + 1) 2) as H3.
  pose proof (Nat.mod_upper_bound n 2) as H4.
  assert (H5 : (n + 1) mod 2 = (n mod 2 + 1) mod 2)
    by (rewrite <- Nat.Div0.add_mod_idemp_l; reflexivity).
  destruct (n mod 2) as [| [| m]] eqn:E; [| | lia].
  - change ((0 + 1) mod 2) with 1 in H5. lia.
  - change ((1 + 1) mod 2) with 0 in H5. lia.
Qed.

Lemma pyrDown_Ok (src : Frame) :
  is_empty src = false ->
  pyrDown src = Ok (mkFrame ((rows src + 1) / 2) ((cols src + 1) / 2)
                            (chans src) (pyrDown_values src)).
Proof. intros H. unfold pyrDown. rewrite H. reflexivity. Qed.

Lemma pyrDown_inv (src dst : Frame) :
  pyrDown src = Ok dst ->
  is_empty src = false /\ is_empty dst = false /\
  rows dst = (rows src + 1) / 2 /\ cols dst = (cols src + 1) / 2 /\
  chans dst = chans src.
Proof.
  unfold pyrDown. destruct (is_empty src) eqn:E; [discriminate |].
  intros H; injection H as <-. cbn [rows cols chans].
  split; [reflexivity |]. split; [| auto].
  apply is_empty_false in E. destruct E as (Hr & Hc & Hk).
  pose proof (half_up_pos _ Hr) as Hr'. pose proof (half_up_pos _ Hc) as Hc'.
  apply is_empty_false. repeat split; assumption.
Qed.

(** Upsampling a level back to the size of the level it was decimated from
    passes OpenCV's size check. *)
Lemma pyrUp_after_pyrDown (g g' : Frame) :
  pyrDown g = Ok g' ->
  pyrUp g' (cols g) (rows g)
  = Ok (mkFrame (rows g) (cols g) (chans g)
                (pyrUp_values g' (cols g) (rows g))).
Proof.
  intros H. apply pyrDown_inv in H. destruct H as (_ & He & Hr & Hc & Hk).
  unfold pyrUp. rewrite He, Hr, Hc, Hk, !half_up_double, !Nat.eqb_refl.
  reflexivity.
Qed.

(** Adding back what was subtracted restores the minuend. *)
Lemma cv_add_subtract (g up l : Frame) :
  cv_subtract g up = Ok l -> cv_add up l = Ok g /\ shape l = shape g.
Proof.
  unfold cv_subtract, cv_add.
  destruct (shape_eqb (shape g) (shape up)) eqn:E; [| discriminate].
  intros H; injection H as <-.
  apply shape_eqb_eq in E. unfold shape in *. simpl.
  injection E as Hr Hc Hk. rewrite <- Hr, <- Hc, <- Hk.
  rewrite !Nat.eqb_refl. simpl. split; [| reflexivity].
  destruct g as [r c k p]; simpl. f_equal. f_equal.
  extensionality x; extensionality y; extensionality z. ring.
Qed.

(** ** The Gaussian pyramid *)

Lemma gaussian_loop_Ok (n : nat) (image : Frame) :
  is_empty image = false ->
  exists rest, gaussian_loop n image = Ok rest /\ length rest = n /\
               pyrDown_chain (image :: rest).
Proof.
  revert image. induction n as [| n IH]; intros image He.
  - exists []. repeat split; auto.
    intros i a b _ H. destruct i; discriminate.
  - pose proof (pyrDown_Ok image He) as Hd.
    apply pyrDown_inv in Hd as Hi. destruct Hi as (_ & He' & _).
    destruct (IH _ He') as (rest & Hrest & Hlen & Hch).
    cbn [gaussian_loop]. rewrite Hd. cbn [bind]. rewrite Hrest. cbn [bind].
    eexists; split; [reflexivity |]. split; [simpl; congruence |].
    intros [| i] a b Ha Hb; simpl in Ha, Hb.
    + injection Ha as <-. injection Hb as <-. exact Hd.
    + exact (Hch i a b Ha Hb).
Qed.

Lemma build_gaussian_pyramid_Ok (image : Frame) (levels : Z) :
  is_empty image = false ->
  exists rest, build_gaussian_pyramid image levels = Ok (image :: rest) /\
               length rest = Z.to_nat (levels - 1) /\
               pyrDown_chain (image :: rest).
Proof.
  intros He. unfold build_gaussian_pyramid.
  destruct (gaussian_loop_Ok (Z.to_nat (levels - 1)) image He)
    as (rest & -> & Hlen & Hch).
  exists rest; auto.
Qed.

(** ** The Laplacian pyramid *)

Lemma cv_subtract_same_shape (g up : Frame) :
  shape g = shape up ->
  cv_subtract g up
  = Ok (mkFrame (rows g) (cols g) (chans g)
                (fun r c k => pix g r c k - pix up r c k)%R).
Proof.
  intros H. unfold cv_subtract. rewrite H, shape_eqb_refl. reflexivity.
Qed.

(** On a chain of [pyrDown]s every detail level is computed: level [j] of the
    result is level [j] of the Gaussian pyramid minus the upsampled level
    [j+1]. *)
Lemma laplacian_loop_Ok (gp : list Frame) (n i : nat) :
  pyrDown_chain gp -> i + n < length gp ->
  exists ls, laplacian_loop gp i n = Ok ls /\ length ls = n /\
    forall j, j < n ->
      exists g g' up l,
        nth_error gp (i + j) = Some g /\
        nth_error gp (S (i + j)) = Some g' /\
        pyrUp g' (cols g) (rows g) = Ok up /\
        cv_subtract g up = Ok l /\
        nth_error ls j = Some l.
Proof.
  intros Hch. revert i. induction n as [| n IH]; intros i Hlen.
  - exists []. repeat split; auto. intros j Hj; lia.
  - destruct (nth_error gp i) as [g |] eqn:Eg;
      [| apply nth_error_None in Eg; lia].
    destruct (nth_error gp (S i)) as [g' |] eqn:Eg';
      [| apply nth_error_None in Eg'; lia].
    pose proof (pyrUp_after_pyrDown g g' (Hch i g g' Eg Eg')) as Hup.
    set (up := mkFrame (rows g) (cols g) (chans g)
                       (pyrUp_values g' (cols g) (rows g))) in Hup.
    assert (Hsub : shape g = shape up) by reflexivity.
    apply cv_subtract_same_shape in Hsub.
    destruct (IH (S i)) as (ls & Hls & Hlenls & Hdet); [lia |].
    cbn [laplacian_loop]. unfold index at 1 2.
    rewrite Nat.add_1_r, Eg', Eg. cbn [bind].
    rewrite Hup. cbn [bind]. rewrite Hsub. cbn [bind].
    rewrite Hls. cbn [bind].
    eexists; split; [reflexivity |]. split; [simpl; congruence |].
    intros [| j] Hj.
    + rewrite Nat.add_0_r. do 4 eexists.
      repeat split; [exact Eg | exact Eg' | exact Hup | exact Hsub].
    + destruct (Hdet j) as (a & a' & u & l & Ha & Ha' & Hu & Hl & Hn); [lia |].
      exists a, a', u, l. rewrite Nat.add_succ_r.
      repeat split; auto.
Qed.

(** Reconstruction over the details of a Gaussian pyramid walks back up the
    pyramid: started at level [m] it returns level 0. *)
Lemma reconstruct_loop_details (gp ls : list Frame) (coarsest : Frame) :
  (forall j, j < length ls ->
     exists g g' up l,
       nth_error gp j = Some g /\
       nth_error gp (S j) = Some g' /\
       pyrUp g' (cols g) (rows g) = Ok up /\
       cv_subtract g up = Ok l /\
       nth_error ls j = Some l) ->
  forall m gm g0,
    m <= length ls ->
    nth_error gp m = Some gm -> nth_error gp 0 = Some g0 ->
    reconstruct_loop (ls ++ [coarsest]) m gm = Ok g0.
Proof.
  intros Hdet. induction m as [| m IH]; intros gm g0 Hm Hgm Hg0.
  - simpl. congruence.
  - destruct (Hdet m) as (g & g' & up & l & Hg & Hg' & Hup & Hl & Hn); [lia |].
    assert (g' = gm) by congruence; subst g'.
    destruct (cv_add_subtract _ _ _ Hl) as [Hadd Hshape].
    injection Hshape as Hr Hc _.
    cbn [reconstruct_loop]. unfold index.
    rewrite nth_error_app1, Hn by lia. cbn [bind].
    rewrite Hr, Hc, Hup. cbn [bind]. rewrite Hadd. cbn [bind].
    apply IH; auto; lia.
Qed.

Lemma build_laplacian_pyramid_Ok (image : Frame) (levels : Z) :
  is_empty image = false ->
  exists rest ls,
    build_gaussian_pyramid image levels = Ok (image :: rest) /\
    build_laplacian_pyramid image levels = Ok (ls ++ [last rest image]) /\
    length rest = Z.to_nat (levels - 1) /\
    length ls = length rest /\
    pyrDown_chain (image :: rest) /\
    forall j, j < length ls ->
      exists g g' up l,
        nth_error (image :: rest) j = Some g /\
        nth_error (image :: rest) (S j) = Some g' /\
        pyrUp g' (cols g) (rows g) = Ok up /\
        cv_subtract g up = Ok l /\
        nth_error ls j = Some l.
Proof.
  intros He.
  destruct (build_gaussian_pyramid_Ok image levels He) as (rest & Hgp & Hlen & Hch).
  destruct (laplacian_loop_Ok (image :: rest) (Z.to_nat (levels - 1)) 0 Hch)
    as (ls & Hls & Hlenls & Hdet); [simpl; lia |].
  exists rest, ls. unfold build_laplacian_pyramid.
  rewrite Hgp. cbn [bind]. rewrite Hls. cbn [bind].
  rewrite index_last_cons. cbn [bind].
  repeat split; auto; [congruence |].
  intros j Hj. apply (Hdet j). lia.
Qed.

(** C1.  Round trip: for every non-empty frame and every level count (in
    particular every [levels >= 2]) the Laplacian pyramid is built, and
    reconstructing from it returns the frame itself.  Each detail level is
    the Gaussian level minus the upsampled coarser level, and reconstruction
    adds the same upsampled level back.  Over the reals the result is the
    frame exactly; the running program adds float32 rounding to it. *)
Theorem laplacian_round_trip (F : Frame) (levels : Z) :
  is_empty F = false ->
  exists lp,
    build_laplacian_pyramid F levels = Ok lp /\
    reconstruct_from_laplacian_pyramid lp = Ok F.
Proof.
  intros He.
  destruct (build_laplacian_pyramid_Ok F levels He)
    as (rest & ls & _ & Hlp & Hlen & Hlenls & _ & Hdet).
  eexists; split; [exact Hlp |].
  unfold reconstruct_from_laplacian_pyramid.
  rewrite index_last_app. cbn [bind].
  rewrite length_app, Nat.add_sub.
  apply (reconstruct_loop_details (F :: rest) ls (last rest F) Hdet);
    [lia | | reflexivity].
  rewrite Hlenls. apply nth_error_length_last.
Qed.

(** ** Shapes of the pyramid levels *)

Lemma pyrDown_chain_chans (gp : list Frame) (image : Frame) :
  pyrDown_chain gp -> nth_error gp 0 = Some image ->
  forall i a, nth_error gp i = Some a -> chans a = chans image.
Proof.
  intros Hch H0. induction i as [| i IH]; intros a Ha.
  - congruence.
  - destruct (nth_error gp i) as [b |] eqn:Eb.
    + pose proof (Hch i b a Eb Ha) as Hd. apply pyrDown_inv in Hd.
      destruct Hd as (_ & _ & _ & _ & Hk). rewrite Hk. apply IH; reflexivity.
    + apply nth_error_None in Eb.
      assert (nth_error gp (S i) = None) by (apply nth_error_None; lia).
      congruence.
Qed.

(** C4 (as the code has it).  For a non-empty frame and [levels >= 1] both
    pyramids are built and have exactly [levels] levels; level 0 of the
    Gaussian pyramid is the input frame; the spatial dimensions of level
    [i+1] are those of level [i] halved and rounded up, [(d + 1) / 2]; every
    level has the channel count of the frame; and each level of the
    Laplacian pyramid has the shape of the same Gaussian level. *)
Theorem pyramid_levels_shape (image : Frame) (levels : Z) :
  is_empty image = false -> (1 <= levels)%Z ->
  exists gp lp,
    build_gaussian_pyramid image levels = Ok gp /\
    build_laplacian_pyramid image levels = Ok lp /\
    Z.of_nat (length gp) = levels /\
    nth_error gp 0 = Some image /\
    (forall i a b, nth_error gp i = Some a -> nth_error gp (S i) = Some b ->
       rows b = (rows a + 1) / 2 /\ cols b = (cols a + 1) / 2) /\
    (forall i a, nth_error gp i = Some a -> chans a = chans image) /\
    length lp = length gp /\
    (forall i a l, nth_error gp i = Some a -> nth_error lp i = Some l ->
       shape l = shape a).
Proof.
  intros He Hlv.
  destruct (build_laplacian_pyramid_Ok image levels He)
    as (rest & ls & Hgp & Hlp & Hlen & Hlenls & Hch & Hdet).
  exists (image :: rest), (ls ++ [last rest image]).
  split; [exact Hgp |]. split; [exact Hlp |].
  split; [simpl length; lia |]. split; [reflexivity |].
  split; [| split; [| split]].
  - intros i a b Ha Hb. pose proof (Hch i a b Ha Hb) as Hd.
    apply pyrDown_inv in Hd. destruct Hd as (_ & _ & Hr & Hc & _). auto.
  - apply pyrDown_chain_chans; [exact Hch | reflexivity].
  - rewrite length_app. simpl. lia.
  - intros i a l Ha Hl.
    destruct (Nat.lt_ge_cases i (length ls)) as [Hi | Hi].
    + destruct (Hdet i Hi) as (g & g' & up & l' & Hg & _ & _ & Hsub & Hn).
      rewrite nth_error_app1 in Hl by exact Hi.
      assert (l' = l) by congruence. assert (g = a) by congruence. subst.
      exact (proj2 (cv_add_subtract _ _ _ Hsub)).
    + rewrite nth_error_app2 in Hl by exact Hi.
      destruct (i - length ls) as [| d] eqn:Ed;
        [| destruct d; discriminate].
      assert (i = length rest) by lia. subst i.
      rewrite nth_error_length_last in Ha. simpl in Hl. congruence.
Qed.

(** C7 (as the code has it).  [build_gaussian_pyramid] has no check of the
    level count: for every [levels < 1] it returns the one-level pyramid
    made of the frame, whatever the frame is.  On a non-empty frame it
    succeeds for every level count: [pyrDown] halves rounding up, so no
    dimension falls below one pixel. *)
Theorem gaussian_pyramid_no_level_check (image : Frame) (levels : Z) :
  ((levels < 1)%Z -> build_gaussian_pyramid image levels = Ok [image]) /\
  (is_empty image = false ->
   exists gp, build_gaussian_pyramid image levels = Ok gp /\
              length gp = S (Z.to_nat (levels - 1))).
Proof.
  split.
  - intros Hlv. unfold build_gaussian_pyramid.
    replace (Z.to_nat (levels - 1)) with 0 by lia. reflexivity.
  - intros He.
    destruct (build_gaussian_pyramid_Ok image levels He)
      as (rest & Hgp & Hlen & _).
    exists (image :: rest). split; [exact Hgp | simpl; congruence].
Qed.

(** ** Complex sums *)

Lemma Csum_ext (n : nat) (f g : nat -> C) :
  (forall t, t < n -> f t = g t) -> Csum f n = Csum g n.
Proof.
  induction n as [| n IH]; intros H; [reflexivity |].
  simpl. rewrite IH, (H n) by auto with arith. reflexivity.
Qed.

Lemma Csum_zero (n : nat) (f : nat -> C) :
  (forall t, t < n -> f t = C0) -> Csum f n = C0.
Proof.
  induction n as [| n IH]; intros H; [reflexivity |].
  simpl. rewrite IH, (H n) by auto with arith.
  unfold Cadd, C0; simpl. f_equal; ring.
Qed.

Lemma Csum_scale (n : nat) (a : R) (f : nat -> C) :
  Csum (fun t => Cscale a (f t)) n = Cscale a (Csum f n).
Proof.
  induction n as [| n IH]; simpl.
  - unfold Cscale, C0; simpl. f_equal; ring.
  - rewrite IH. unfold Cscale, Cadd; simpl. f_equal; ring.
Qed.

Lemma Csum_mul_l (n : nat) (z : C) (f : nat -> C) :
  Csum (fun t => Cmul z (f t)) n = Cmul z (Csum f n).
Proof.
  induction n as [| n IH]; simpl.
  - unfold Cmul, C0; simpl. f_equal; ring.
  - rewrite IH. unfold Cmul, Cadd; simpl. f_equal; ring.
Qed.

Lemma Csum_const (n : nat) (z : C) :
  Csum (fun _ => z) n = Cscale (INR n) z.
Proof.
  induction n as [| n IH].
  - cbn [Csum INR]. unfold Cscale, C0. f_equal; ring.
  - cbn [Csum]. rewrite IH, S_INR. unfold Cscale, Cadd; cbn [fst snd].
    f_equal; ring.
Qed.

(** Only the first term is not zero. *)
Lemma Csum_first (n : nat) (f : nat -> C) :
  1 <= n -> (forall j, 1 <= j < n -> f j = C0) -> Csum f n = f 0.
Proof.
  induction n as [| n IH]; intros Hn H; [lia |].
  destruct n as [| n].
  - simpl. unfold Cadd, C0; simpl. destruct (f 0); simpl. f_equal; ring.
  - cbn [Csum] in *. rewrite IH by (try lia; intros; apply H; lia).
    rewrite (H (S n)) by lia.
    unfold Cadd, C0; simpl. destruct (f 0); simpl. f_equal; ring.
Qed.

Lemma Csum_shift (n : nat) (f : nat -> C) :
  Cadd (Csum (fun t => f (S t)) n) (f 0) = Cadd (Csum f n) (f n).
Proof.
  induction n as [| n IH]; simpl.
  - unfold Cadd, C0; simpl. f_equal; ring.
  - unfold Cadd in *; simpl in *.
    injection IH as H1 H2. f_equal; lra.
Qed.

(** ** Roots of unity *)

Lemma Cexp_add (a b : R) : Cexp (a + b) = Cmul (Cexp a) (Cexp b).
Proof.
  unfold Cexp, Cmul; simpl. rewrite cos_plus, sin_plus. f_equal; ring.
Qed.

Lemma Cexp_0 : Cexp 0 = (1, 0)%R.
Proof. unfold Cexp. rewrite cos_0, sin_0. reflexivity. Qed.

Lemma Cexp_neg_2kPI (k : nat) : Cexp (- (2 * INR k * PI)) = (1, 0)%R.
Proof.
  unfold Cexp. rewrite cos_neg, sin_neg.
  replace (2 * INR k * PI)%R with (0 + 2 * INR k * PI)%R by ring.
  rewrite cos_period, sin_period, cos_0, sin_0. f_equal; ring.
Qed.

Lemma cos_lt_1 (x : R) : (0 < x < 2 * PI)%R -> (cos x < 1)%R.
Proof.
  intros [H0 H1].
  replace x with (2 * (x / 2))%R by field.
  rewrite cos_2a_sin.
  assert (Hs : (0 < sin (x / 2))%R) by (apply sin_gt_0; lra).
  nra.
Qed.

(** A complex number fixed by a rotation other than the identity is zero. *)
Lemma rotation_fixpoint (theta : R) (z : C) :
  (cos theta < 1)%R -> Cmul (Cexp theta) z = z -> z = C0.
Proof.
  intros Hc. destruct z as [x y]. unfold Cmul, Cexp, C0; simpl.
  intros H; injection H as H1 H2.
  set (a := (cos theta - 1)%R). set (b := sin theta).
  assert (E1 : (a * x = b * y)%R) by (unfold a, b; lra).
  assert (E2 : (a * y = - (b * x))%R) by (unfold a, b; lra).
  assert (Ha : (a < 0)%R) by (unfold a; lra).
  assert (Hx : ((a * a + b * b) * x = 0)%R).
  { replace ((a * a + b * b) * x)%R with (a * (a * x) + b * (b * x))%R by ring.
    rewrite E1. replace (a * (b * y))%R with (b * (a * y))%R by ring.
    rewrite E2. ring. }
  assert (Hy : ((a * a + b * b) * y = 0)%R).
  { replace ((a * a + b * b) * y)%R with (a * (a * y) + b * (b * y))%R by ring.
    rewrite E2, <- E1. ring. }
  assert (Hpos : (0 < a * a + b * b)%R) by nra.
  f_equal.
  - apply Rmult_integral in Hx. destruct Hx; lra.
  - apply Rmult_integral in Hy. destruct Hy; lra.
Qed.

(** The n-th roots of unity exp(-2 pi i j t / n), t < n, sum to zero when
    0 < j < n. *)
Lemma roots_of_unity_sum (n j : nat) :
  0 < j < n -> Csum (fun t => Cexp (- angle n j t)) n = C0.
Proof.
  intros Hj.
  assert (Hn : (0 < INR n)%R) by (apply lt_0_INR; lia).
  assert (Hj0 : (0 < INR j)%R) by (apply lt_0_INR; lia).
  assert (Hjn : (INR j < INR n)%R) by (apply lt_INR; lia).
  set (theta := (- (2 * PI * INR j / INR n))%R).
  set (f := fun t : nat => Cexp (INR t * theta)).
  rewrite (Csum_ext n _ f).
  2:{ intros t _. unfold f, theta, angle. f_equal. field. lra. }
  apply (rotation_fixpoint (2 * PI - 2 * PI * INR j / INR n)).
  - apply cos_lt_1.
    assert (H : (0 < 2 * PI * INR j / INR n < 2 * PI)%R).
    { pose proof PI_RGT_0 as Hpi. split.
      - apply Rdiv_lt_0_compat; nra.
      - apply (Rmult_lt_reg_r (INR n)); [exact Hn |].
        unfold Rdiv. rewrite Rmult_assoc, Rinv_l by lra. nra. }
    lra.
  - replace (Cexp (2 * PI - 2 * PI * INR j / INR n)) with (Cexp theta).
    2:{ unfold theta, Cexp.
        replace (2 * PI - 2 * PI * INR j / INR n)%R
          with (- (2 * PI * INR j / INR n) + 2 * INR 1 * PI)%R
          by (simpl; ring).
        rewrite cos_period, sin_period. reflexivity. }
    rewrite <- Csum_mul_l.
    rewrite (Csum_ext n _ (fun t => f (S t))).
    2:{ intros t _. unfold f. rewrite <- Cexp_add, S_INR. f_equal. ring. }
    pose proof (Csum_shift n f) as Hs.
    assert (H0 : f 0 = (1, 0)%R).
    { unfold f. simpl. rewrite Rmult_0_l. apply Cexp_0. }
    assert (Hlast : f n = (1, 0)%R).
    { unfold f, theta.
      replace (INR n * - (2 * PI * INR j / INR n))%R
        with (- (2 * INR j * PI))%R by (field; lra).
      apply Cexp_neg_2kPI. }
    rewrite H0, Hlast in Hs.
    destruct (Csum (fun t => f (S t)) n) as [x1 y1].
    destruct (Csum f n) as [x2 y2].
    unfold Cadd in Hs; simpl in Hs. injection Hs as Hx Hy.
    f_equal; lra.
Qed.

(** ** The frequency bins of [np.fft.fftfreq] *)

Lemma Rleb_true (x y : R) : Rleb x y = true <-> (x <= y)%R.
Proof.
  unfold Rleb. destruct (Rle_dec x y); split; auto; discriminate.
Qed.

Lemma fdiv_Ok (x y : R) : y <> 0%R -> fdiv x y = Ok (x / y)%R.
Proof.
  intros H. unfold fdiv. destruct (Req_dec_T y 0); [contradiction | reflexivity].
Qed.

Lemma length_arange (start : Z) (len : nat) : length (arange start len) = len.
Proof. unfold arange. rewrite length_map, length_seq. reflexivity. Qed.

Lemma nth_error_arange (start : Z) (len i : nat) :
  i < len -> nth_error (arange start len) i = Some (start + Z.of_nat i)%Z.
Proof.
  intros H. unfold arange.
  rewrite nth_error_map, nth_error_seq.
  apply Nat.ltb_lt in H. rewrite H. reflexivity.
Qed.

Lemma halves_sum (n : nat) : 1 <= n -> (n - 1) / 2 + 1 + n / 2 = n.
Proof.
  intros H.
  pose proof (Nat.div_mod_eq (n - 1) 2).
  pose proof (Nat.div_mod_eq n 2).
  pose proof (Nat.mod_upper_bound (n - 1) 2).
  pose proof (Nat.mod_upper_bound n 2).
  lia.
Qed.

(** Bin [j] of [fftfreq] is [j * val] in the lower half and [(j - n) * val]
    in the upper half. *)
Lemma fftfreq_Ok (n : nat) (d : R) :
  1 <= n -> d <> 0%R ->
  exists freqs,
    fftfreq n d = Ok freqs /\ length freqs = n /\
    forall j, j < n ->
      nth_error freqs j
      = Some (IZR (if j <? (n - 1) / 2 + 1 then Z.of_nat j
                   else Z.of_nat j - Z.of_nat n) * (1 / (INR n * d)))%R.
Proof.
  intros Hn Hd. unfold fftfreq.
  assert (Hnd : (INR n * d)%R <> 0%R).
  { apply Rmult_integral_contrapositive_currified; [| exact Hd].
    apply not_0_INR. lia. }
  rewrite (fdiv_Ok 1 _ Hnd). cbn [bind].
  pose proof (halves_sum n Hn) as Hs.
  eexists; split; [reflexivity |]. split.
  - rewrite length_map, length_app, !length_arange. exact Hs.
  - intros j Hj. rewrite nth_error_map.
    destruct (j <? (n - 1) / 2 + 1) eqn:E.
    + apply Nat.ltb_lt in E.
      rewrite nth_error_app1 by (rewrite length_arange; exact E).
      rewrite nth_error_arange by exact E. reflexivity.
    + apply Nat.ltb_ge in E.
      rewrite nth_error_app2 by (rewrite length_arange; exact E).
      rewrite length_arange, nth_error_arange by lia.
      cbn [option_map]. do 3 f_equal. lia.
Qed.

(** The absolute value of bin [j] is min(j, n - j) * fps / n. *)
Lemma abs_bin_frequency (n j : nat) (fps : R) :
  j < n -> (0 < fps)%R ->
  Rabs (IZR (if j <? (n - 1) / 2 + 1 then Z.of_nat j
             else Z.of_nat j - Z.of_nat n) * (1 / (INR n * (1 / fps))))
  = spec_abs_frequency n fps j.
Proof.
  intros Hj Hfps. unfold spec_abs_frequency.
  assert (Hn : (0 < INR n)%R) by (apply lt_0_INR; lia).
  replace (1 / (INR n * (1 / fps)))%R with (fps / INR n)%R by (field; lra).
  assert (Hq : (0 < fps / INR n)%R) by (apply Rdiv_lt_0_compat; lra).
  rewrite Rabs_mult, (Rabs_pos_eq (fps / INR n)) by lra.
  pose proof (Nat.div_mod_eq (n - 1) 2).
  pose proof (Nat.mod_upper_bound (n - 1) 2).
  destruct (j <? (n - 1) / 2 + 1) eqn:E.
  - apply Nat.ltb_lt in E.
    rewrite Nat.min_l by lia.
    rewrite <- INR_IZR_INZ, Rabs_pos_eq by apply pos_INR.
    field. lra.
  - apply Nat.ltb_ge in E.
    rewrite Nat.min_r by lia.
    replace (Z.of_nat j - Z.of_nat n)%Z with (- Z.of_nat (n - j))%Z by lia.
    rewrite opp_IZR, Rabs_Ropp, <- INR_IZR_INZ, Rabs_pos_eq by apply pos_INR.
    field. lra.
Qed.

(** ** The band-pass filter, unfolded *)

Lemma temporal_bandpass_filter_Ok (data : Volume R) (fps low_freq high_freq : R) :
  1 <= nframes data -> fps <> 0%R ->
  exists freqs,
    fftfreq (nframes data) (1 / fps) = Ok freqs /\
    temporal_bandpass_filter data fps low_freq high_freq
    = Ok (mkVolume (nframes data) (vrows data) (vcols data) (vchans data)
            (fun t r c k =>
               Re (idft (nframes data)
                     (fun j =>
                        if nth j (band_mask freqs low_freq high_freq) false
                        then dft (nframes data)
                                 (fun t' => vox data t' r c k) j
                        else C0) t))).
Proof.
  intros Hn Hfps.
  assert (Hd : (1 / fps)%R <> 0%R).
  { unfold Rdiv. rewrite Rmult_1_l. apply Rinv_neq_0_compat. exact Hfps. }
  destruct (fftfreq_Ok (nframes data) (1 / fps) Hn Hd) as (freqs & Hf & _ & _).
  exists freqs. split; [exact Hf |].
  unfold temporal_bandpass_filter, fft, ifft.
  assert (E : (nframes data =? 0) = false) by (apply Nat.eqb_neq; lia).
  rewrite E. cbn [bind]. rewrite (fdiv_Ok 1 fps Hfps). cbn [bind].
  rewrite Hf. cbn [bind zero_outside nframes]. rewrite E. reflexivity.
Qed.


(** The mask at bin [j] is the band test on the folded frequency. *)
Lemma band_mask_nth (n j : nat) (fps low_freq high_freq : R) (freqs : list R) :
  j < n -> (0 < fps)%R ->
  fftfreq n (1 / fps) = Ok freqs ->
  nth j (band_mask freqs low_freq high_freq) false
  = spec_in_band low_freq high_freq (spec_abs_frequency n fps j).
Proof.
  intros Hj Hfps Hf.
  assert (Hd : (1 / fps)%R <> 0%R).
  { unfold Rdiv. rewrite Rmult_1_l. apply Rinv_neq_0_compat. lra. }
  destruct (fftfreq_Ok n (1 / fps)) as (freqs' & Hf' & Hlen & Hnth);
    [lia | exact Hd |].
  assert (freqs' = freqs) by congruence. subst freqs'.
  apply nth_error_nth. unfold band_mask.
  rewrite nth_error_map, (Hnth j Hj). cbn [option_map].
  rewrite abs_bin_frequency by assumption. reflexivity.
Qed.

(** ** Transforms of particular series *)

Lemma idft_ext (n : nat) (X Y : nat -> C) (t : nat) :
  (forall j, j < n -> X j = Y j) -> idft n X t = idft n Y t.
Proof.
  intros H. unfold idft. f_equal. apply Csum_ext.
  intros j Hj. rewrite (H j Hj). reflexivity.
Qed.

Lemma idft_zero (n t : nat) : idft n (fun _ => C0) t = C0.
Proof.
  unfold idft. rewrite Csum_zero.
  - unfold Cscale, C0; cbn [fst snd]. f_equal; ring.
  - intros j _. unfold Cmul, C0; cbn [fst snd]. f_equal; ring.
Qed.

(** A spectrum with only the bin 0, of value n * c, is the constant c. *)
Lemma idft_dc (n t : nat) (c : R) :
  1 <= n ->
  idft n (fun j => if j =? 0 then (INR n * c, 0)%R else C0) t = (c, 0)%R.
Proof.
  intros Hn. unfold idft. rewrite Csum_first; [| exact Hn |].
  - cbn [Nat.eqb]. unfold angle. cbn [INR].
    replace (2 * PI * 0 * INR t / INR n)%R with 0%R
      by (unfold Rdiv; ring).
    rewrite Cexp_0. unfold Cscale, Cmul; cbn [fst snd].
    assert (INR n <> 0)%R by (apply not_0_INR; lia).
    f_equal; field; assumption.
  - intros j Hj. destruct (j =? 0) eqn:E; [apply Nat.eqb_eq in E; lia |].
    unfold Cmul, C0; cbn [fst snd]. f_equal; ring.
Qed.

(** The transform of a constant series: n * c in bin 0, zero elsewhere. *)
Lemma dft_constant (n j : nat) (x : nat -> R) :
  (forall t, t < n -> x t = x 0) -> j < n ->
  dft n x j = if j =? 0 then (INR n * x 0%nat, 0)%R else C0.
Proof.
  intros Hx Hj. unfold dft.
  rewrite (Csum_ext n _ (fun t => Cscale (x 0) (Cexp (- angle n j t)))).
  2:{ intros t Ht. rewrite (Hx t Ht). reflexivity. }
  rewrite Csum_scale.
  destruct (j =? 0) eqn:E.
  - apply Nat.eqb_eq in E. subst j.
    rewrite (Csum_ext n _ (fun _ => (1, 0)%R)).
    2:{ intros t _. unfold angle. cbn [INR].
        replace (- (2 * PI * 0 * INR t / INR n))%R with 0%R
          by (unfold Rdiv; ring).
        apply Cexp_0. }
    rewrite Csum_const. unfold Cscale; cbn [fst snd]. f_equal; ring.
  - apply Nat.eqb_neq in E.
    rewrite roots_of_unity_sum by lia.
    unfold Cscale, C0; cbn [fst snd]. f_equal; ring.
Qed.

Lemma dft_scale (n j : nat) (x : nat -> R) (c : R) :
  dft n (fun t => (x t * c)%R) j = Cscale c (dft n x j).
Proof.
  unfold dft. rewrite <- Csum_scale. apply Csum_ext.
  intros t _. unfold Cscale; cbn [fst snd]. f_equal; ring.
Qed.

Lemma idft_scale (n t : nat) (X : nat -> C) (c : R) :
  idft n (fun j => Cscale c (X j)) t = Cscale c (idft n X t).
Proof.
  unfold idft.
  rewrite (Csum_ext n _ (fun j => Cscale c (Cmul (X j) (Cexp (angle n j t))))).
  2:{ intros j _. unfold Cscale, Cmul; cbn [fst snd]. f_equal; ring. }
  rewrite Csum_scale. unfold Cscale; cbn [fst snd]. f_equal; ring.
Qed.

(** ** The mask in float64 *)

Lemma fdiv_f64_Ok (x y : float) :
  (y =? 0)%float = false -> fdiv_f64 x y = Ok (x / y)%float.
Proof. intros H. unfold fdiv_f64. rewrite H. reflexivity. Qed.

(** Bin [j] of [fftfreq_f64] is the product of [j], or of [j - n] in the
    upper half, and [val]. *)
Lemma fftfreq_f64_Ok (n : nat) (d : float) :
  1 <= n -> (f64_of_Z (Z.of_nat n) * d =? 0)%float = false ->
  exists freqs,
    fftfreq_f64 n d = Ok freqs /\ length freqs = n /\
    forall j, j < n ->
      nth_error freqs j
      = Some (f64_of_Z (if (j <? (n - 1) / 2 + 1)%nat then Z.of_nat j
                        else (Z.of_nat j - Z.of_nat n)%Z)
              * (1 / (f64_of_Z (Z.of_nat n) * d)))%float.
Proof.
  intros Hn Hnd. unfold fftfreq_f64.
  rewrite (fdiv_f64_Ok 1 _ Hnd). cbn [bind].
  pose proof (halves_sum n Hn) as Hs.
  eexists; split; [reflexivity |]. split.
  - rewrite length_map, length_app, !length_arange. exact Hs.
  - intros j Hj. rewrite nth_error_map.
    destruct (j <? (n - 1) / 2 + 1) eqn:E.
    + apply Nat.ltb_lt in E.
      rewrite nth_error_app1 by (rewrite length_arange; exact E).
      rewrite nth_error_arange by exact E. reflexivity.
    + apply Nat.ltb_ge in E.
      rewrite nth_error_app2 by (rewrite length_arange; exact E).
      rewrite length_arange, nth_error_arange by lia.
      cbn [option_map]. do 3 f_equal. lia.
Qed.

Lemma temporal_bandpass_filter_f64_Ok (data : Volume R)
    (fps low_freq high_freq : float) :
  1 <= nframes data -> (fps =? 0)%float = false ->
  (f64_of_Z (Z.of_nat (nframes data)) * (1 / fps) =? 0)%float = false ->
  temporal_bandpass_filter_f64 data fps low_freq high_freq
  = Ok (mkVolume (nframes data) (vrows data) (vcols data) (vchans data)
          (fun t r c k =>
             Re (idft (nframes data)
                   (fun j =>
                      if f64_in_band low_freq high_freq
                           (f64_bin_frequency (nframes data) fps j)
                      then dft (nframes data) (fun t' => vox data t' r c k) j
                      else C0) t))).
Proof.
  intros Hn Hfps Hnd.
  destruct (fftfreq_f64_Ok (nframes data) (1 / fps)%float Hn Hnd)
    as (freqs & Hf & Hlen & Hnth).
  unfold temporal_bandpass_filter_f64, fft, ifft.
  assert (E : (nframes data =? 0) = false) by (apply Nat.eqb_neq; lia).
  rewrite E. cbn [bind]. rewrite (fdiv_f64_Ok 1 fps Hfps). cbn [bind].
  rewrite Hf. cbn [bind zero_outside nframes]. rewrite E.
  cbn [bind]. unfold real. cbn [nframes vrows vcols vchans vox]. do 2 f_equal.
  extensionality t; extensionality r; extensionality c; extensionality k.
  f_equal. apply idft_ext. intros j Hj. cbn [vox].
  assert (Em : nth j (band_mask_f64 freqs low_freq high_freq) false
               = f64_in_band low_freq high_freq
                   (f64_bin_frequency (nframes data) fps j)).
  { apply nth_error_nth. unfold band_mask_f64.
    rewrite nth_error_map, (Hnth j Hj). reflexivity. }
  unfold zero_outside. cbn [vox]. rewrite Em. reflexivity.
Qed.

(** ** The claims on the band-pass filter *)

(** C2.  For a volume with at least one time sample, a frame rate that is
    not zero and a bin spacing that can be computed, the filter returns a
    volume of the shape of its input: each (row, column, channel) series is
    transformed on its own, every bin whose frequency, as float64
    arithmetic computes it, has an absolute value outside the inclusive
    band [lowFreqHz, highFreqHz] is set to zero, and the real part of the
    inverse transform is kept.  Whenever these comparisons give for every
    bin what the exact frequency min(j, n - j) * fps / n gives, the output
    is the band-pass of the specification. *)
Theorem bandpass_is_masked_dft (V : Volume R)
    (fps lowFreqHz highFreqHz : float) :
  1 <= nframes V -> (fps =? 0)%float = false ->
  (f64_of_Z (Z.of_nat (nframes V)) * (1 / fps) =? 0)%float = false ->
  exists out,
    temporal_bandpass_filter_f64 V fps lowFreqHz highFreqHz = Ok out /\
    vshape out = vshape V /\
    (forall t r c k,
       vox out t r c k
       = vox (spec_bandpass_f64 V fps lowFreqHz highFreqHz) t r c k) /\
    ((forall j, j < nframes V ->
        f64_in_band lowFreqHz highFreqHz (f64_bin_frequency (nframes V) fps j)
        = spec_in_band (f64_value lowFreqHz) (f64_value highFreqHz)
            (spec_abs_frequency (nframes V) (f64_value fps) j)) ->
     forall t r c k,
       vox out t r c k
       = vox (spec_bandpass V (f64_value fps) (f64_value lowFreqHz)
                (f64_value highFreqHz)) t r c k).
Proof.
  intros Hn Hfps Hnd.
  eexists. split.
  { exact (temporal_bandpass_filter_f64_Ok V fps lowFreqHz highFreqHz
             Hn Hfps Hnd). }
  split; [reflexivity |]. split.
  - intros t r c k. reflexivity.
  - intros Hagree t r c k. cbn [vox spec_bandpass]. f_equal.
    apply idft_ext. intros j Hj. rewrite (Hagree j Hj). reflexivity.
Qed.

(** Bin 0 has the frequency 0. *)
Lemma band_mask_dc (n : nat) (fps low_freq high_freq : R) (freqs : list R) :
  1 <= n -> fps <> 0%R ->
  fftfreq n (1 / fps) = Ok freqs ->
  nth 0 (band_mask freqs low_freq high_freq) false
  = Rleb low_freq 0 && Rleb 0 high_freq.
Proof.
  intros Hn Hfps Hf.
  assert (Hd : (1 / fps)%R <> 0%R).
  { unfold Rdiv. rewrite Rmult_1_l. apply Rinv_neq_0_compat. exact Hfps. }
  destruct (fftfreq_Ok n (1 / fps) Hn Hd) as (freqs' & Hf' & Hlen & Hnth).
  assert (freqs' = freqs) by congruence. subst freqs'.
  apply nth_error_nth. unfold band_mask.
  rewrite nth_error_map, (Hnth 0) by lia. cbn [option_map].
  replace (0 <? (n - 1) / 2 + 1) with true
    by (symmetry; apply Nat.ltb_lt; lia).
  cbn [Z.of_nat]. rewrite Rmult_0_l, Rabs_R0. reflexivity.
Qed.

(** C5.  A volume that is constant along the time axis, filtered with
    [low_freq > 0], gives the all-zero volume of the same shape: bin 0 is
    outside the pass band because |0| < low_freq, and the other bins of a
    constant series are zero.  (Exactly zero over the reals; near zero
    in floating point.) *)
Theorem bandpass_rejects_constant (data : Volume R) (fps low_freq high_freq : R) :
  1 <= nframes data -> fps <> 0%R -> (0 < low_freq)%R ->
  (forall t r c k, t < nframes data -> vox data t r c k = vox data 0 r c k) ->
  exists out,
    temporal_bandpass_filter data fps low_freq high_freq = Ok out /\
    vshape out = vshape data /\
    forall t r c k, vox out t r c k = 0%R.
Proof.
  intros Hn Hfps Hlow Hconst.
  destruct (temporal_bandpass_filter_Ok data fps low_freq high_freq Hn Hfps)
    as (freqs & Hf & Hout).
  eexists; split; [exact Hout |]. split; [reflexivity |].
  intros t r c k. cbn [vox].
  rewrite (idft_ext _ _ (fun _ => C0)).
  - rewrite idft_zero. reflexivity.
  - intros j Hj.
    rewrite (dft_constant (nframes data) j (fun t' => vox data t' r c k))
      by (auto; intros t' Ht'; apply Hconst; exact Ht').
    destruct (j =? 0) eqn:E; [| destruct (nth j _ false); reflexivity].
    apply Nat.eqb_eq in E. subst j.
    rewrite (band_mask_dc (nframes data) fps low_freq high_freq freqs Hn Hfps Hf).
    replace (Rleb low_freq 0) with false; [reflexivity |].
    symmetry. apply not_true_is_false. rewrite Rleb_true. lra.
Qed.

(** C10.  With [low_freq = 0] (and [high_freq >= 0]) bin 0 is inside the
    inclusive pass band, so a volume that is constant along the time axis
    comes back unchanged.  (Exactly over the reals; up to rounding in
    floating point.) *)
Theorem bandpass_keeps_constant_at_zero (data : Volume R) (fps high_freq : R) :
  1 <= nframes data -> fps <> 0%R -> (0 <= high_freq)%R ->
  (forall t r c k, t < nframes data -> vox data t r c k = vox data 0 r c k) ->
  exists out,
    temporal_bandpass_filter data fps 0 high_freq = Ok out /\
    vshape out = vshape data /\
    forall t r c k, t < nframes data -> vox out t r c k = vox data t r c k.
Proof.
  intros Hn Hfps Hhigh Hconst.
  destruct (temporal_bandpass_filter_Ok data fps 0 high_freq Hn Hfps)
    as (freqs & Hf & Hout).
  eexists; split; [exact Hout |]. split; [reflexivity |].
  intros t r c k Ht. cbn [vox].
  rewrite (idft_ext _ _ (fun j => if j =? 0
                                  then (INR (nframes data) * vox data 0%nat r c k, 0)%R
                                  else C0)).
  - rewrite idft_dc by exact Hn. rewrite (Hconst t r c k Ht). reflexivity.
  - intros j Hj.
    rewrite (dft_constant (nframes data) j (fun t' => vox data t' r c k))
      by (auto; intros t' Ht'; apply Hconst; exact Ht').
    destruct (j =? 0) eqn:E; [| destruct (nth j _ false); reflexivity].
    apply Nat.eqb_eq in E. subst j.
    rewrite (band_mask_dc (nframes data) fps 0 high_freq freqs Hn Hfps Hf).
    replace (Rleb 0 0) with true
      by (symmetry; apply Rleb_true; lra).
    replace (Rleb 0 high_freq) with true
      by (symmetry; apply Rleb_true; lra).
    reflexivity.
Qed.


(** ** Linearity *)

Lemma temporal_bandpass_filter_scale (V : Volume R)
    (fps low_freq high_freq c : R) :
  temporal_bandpass_filter (scale c V) fps low_freq high_freq
  = match temporal_bandpass_filter V fps low_freq high_freq with
    | Ok out => Ok (scale c out)
    | Raise e => Raise e
    end.
Proof.
  unfold temporal_bandpass_filter, fft. cbn [scale nframes].
  destruct (nframes V =? 0) eqn:E; [reflexivity |]. cbn [bind].
  destruct (fdiv 1 fps) as [d | e]; [| reflexivity]. cbn [bind].
  destruct (fftfreq (nframes V) d) as [freqs | e]; [| reflexivity].
  cbn [bind]. unfold ifft. cbn [zero_outside nframes]. rewrite E.
  cbn [bind]. unfold real, scale, zero_outside.
  cbn [nframes vrows vcols vchans vox]. do 2 f_equal.
  extensionality t; extensionality r; extensionality col; extensionality k.
  rewrite (idft_ext _ _
    (fun j => Cscale c
       (if nth j (band_mask freqs low_freq high_freq) false
        then dft (nframes V) (fun t' => vox V t' r col k) j else C0))).
  - rewrite idft_scale. unfold Re, Cscale; cbn [fst]. ring.
  - intros j _. destruct (nth j _ false).
    + apply dft_scale.
    + unfold Cscale, C0; cbn [fst snd]. f_equal; ring.
Qed.

Lemma scale_double (alpha : R) (V : Volume R) :
  scale (2 * alpha) V = scale 2 (scale alpha V).
Proof.
  unfold scale. cbn [nframes vrows vcols vchans vox]. f_equal.
  extensionality t; extensionality r; extensionality c; extensionality k.
  ring.
Qed.

(** C6.  Amplification multiplies every value of a filtered volume by
    [alpha] and keeps its shape; the filter is linear in its input
    (filtering [c * V] gives [c] times the filtered [V], and fails exactly
    when filtering [V] fails); and doubling [alpha] doubles every amplified
    volume. *)
Theorem filter_amplify_linear :
  (forall (F : list (Volume R)) (alpha : R) (level : nat) (V : Volume R),
     nth_error F level = Some V ->
     exists A, nth_error (amplify F alpha) level = Some A /\
               vshape A = vshape V /\
               forall t r c k, vox A t r c k = (vox V t r c k * alpha)%R) /\
  (forall (V : Volume R) (fps low_freq high_freq c : R),
     temporal_bandpass_filter (scale c V) fps low_freq high_freq
     = match temporal_bandpass_filter V fps low_freq high_freq with
       | Ok out => Ok (scale c out)
       | Raise e => Raise e
       end) /\
  (forall (F : list (Volume R)) (alpha : R),
     amplify F (2 * alpha) = map (scale 2) (amplify F alpha)).
Proof.
  split; [| split].
  - intros F alpha level V H. exists (scale alpha V). unfold amplify.
    rewrite nth_error_map, H. repeat split.
  - exact temporal_bandpass_filter_scale.
  - intros F alpha. unfold amplify. rewrite map_map.
    apply map_ext. intros V. apply scale_double.
Qed.

(** ** Steps 3 to 5 of the pipeline *)

Lemma scale_zeros_like (alpha : R) (V : Volume R) :
  scale alpha (zeros_like V) = zeros_like V.
Proof.
  unfold scale, zeros_like. cbn [nframes vrows vcols vchans vox]. f_equal.
  extensionality t; extensionality r; extensionality c; extensionality k.
  ring.
Qed.

(** Adding frame [i] of the all-zero volume changes nothing. *)
Lemma np_add_zeros_like (V : Volume R) (i : nat) :
  np_add (frame_at V i) (frame_at (zeros_like V) i) = Ok (frame_at V i).
Proof.
  unfold np_add, frame_at, zeros_like, shape.
  cbn [rows cols chans pix nframes vrows vcols vchans vox].
  rewrite shape_eqb_refl. do 2 f_equal.
  extensionality r; extensionality c; extensionality k. ring.
Qed.

Lemma frame_of_Ok (V : Volume R) (i : nat) :
  i < nframes V -> frame_of V i = Ok (frame_at V i).
Proof.
  intros H. unfold frame_of. apply Nat.ltb_lt in H. rewrite H. reflexivity.
Qed.

(** Step 3 succeeds on volumes with at least one frame, and its level [k] is
    the filtered volume or the all-zero volume, as the skip test says. *)
Lemma filter_loop_Ok (pyramid_levels : Z) (fps low_freq high_freq : R)
    (pyramid_video_t : list (Volume R)) (level_idx : nat) :
  fps <> 0%R ->
  (forall k V, nth_error pyramid_video_t k = Some V -> 1 <= nframes V) ->
  exists filtered,
    filter_loop pyramid_levels fps low_freq high_freq level_idx pyramid_video_t
    = Ok filtered /\
    length filtered = length pyramid_video_t /\
    forall k V, nth_error pyramid_video_t k = Some V ->
      exists Fk,
        nth_error filtered k = Some Fk /\ vshape Fk = vshape V /\
        if is_filtered pyramid_levels (level_idx + k) V
        then temporal_bandpass_filter V fps low_freq high_freq = Ok Fk
        else Fk = zeros_like V.
Proof.
  intros Hfps. revert level_idx.
  induction pyramid_video_t as [| V0 rest IH]; intros level_idx Hn.
  - exists []. repeat split; auto. intros [| k] V H; discriminate.
  - destruct (IH (S level_idx)) as (others & Hothers & Hlen & Hnth).
    { intros k V H. apply (Hn (S k) V H). }
    assert (H0 : exists F0,
      (if is_filtered pyramid_levels level_idx V0
       then temporal_bandpass_filter V0 fps low_freq high_freq
       else Ok (zeros_like V0)) = Ok F0 /\ vshape F0 = vshape V0 /\
      if is_filtered pyramid_levels level_idx V0
      then temporal_bandpass_filter V0 fps low_freq high_freq = Ok F0
      else F0 = zeros_like V0).
    { destruct (is_filtered pyramid_levels level_idx V0).
      - destruct (temporal_bandpass_filter_Ok V0 fps low_freq high_freq)
          as (freqs & _ & Hout); [exact (Hn 0 V0 eq_refl) | exact Hfps |].
        eexists; split; [exact Hout |]. split; [reflexivity | exact Hout].
      - eexists; split; [reflexivity |]. split; reflexivity. }
    destruct H0 as (F0 & HF0 & Hshape & Hcase).
    cbn [filter_loop]. rewrite HF0. cbn [bind]. rewrite Hothers. cbn [bind].
    eexists; split; [reflexivity |]. split; [simpl; congruence |].
    intros [| k] V H.
    + injection H as <-. exists F0. rewrite Nat.add_0_r. auto.
    + destruct (Hnth k V H) as (Fk & HFk & Hs & Hc).
      exists Fk. rewrite Nat.add_succ_r. auto.
Qed.

(** The inner loop of step 5 adds frame [i] of the amplified volume to frame
    [i] of the original volume, level by level. *)
Lemma recombine_loop_Ok (pyramid_video_t amplified : list (Volume R))
    (i n level_idx : nat) :
  level_idx + n <= length pyramid_video_t ->
  (forall k V, nth_error pyramid_video_t k = Some V ->
     i < nframes V /\
     exists A, nth_error amplified k = Some A /\ vshape A = vshape V) ->
  exists pyr,
    recombine_loop pyramid_video_t amplified i level_idx n = Ok pyr /\
    length pyr = n /\
    forall j V A,
      j < n ->
      nth_error pyramid_video_t (level_idx + j) = Some V ->
      nth_error amplified (level_idx + j) = Some A ->
      exists level,
        nth_error pyr j = Some level /\
        np_add (frame_at V i) (frame_at A i) = Ok level.
Proof.
  revert level_idx. induction n as [| n IH]; intros level_idx Hlen Hvol.
  - exists []. repeat split; auto. intros j V A Hj; lia.
  - destruct (nth_error pyramid_video_t level_idx) as [V |] eqn:EV;
      [| apply nth_error_None in EV; lia].
    destruct (Hvol level_idx V EV) as (Hi & A & EA & Hshape).
    injection Hshape as Hn Hr Hc Hk.
    assert (Hadd : exists level, np_add (frame_at V i) (frame_at A i) = Ok level).
    { unfold np_add, shape, frame_at. cbn [rows cols chans].
      rewrite Hr, Hc, Hk, shape_eqb_refl. eexists; reflexivity. }
    destruct Hadd as (level & Hadd).
    destruct (IH (S level_idx)) as (rest & Hrest & Hlenr & Hnth);
      [lia | exact Hvol |].
    cbn [recombine_loop]. unfold index. rewrite EV, EA. cbn [bind].
    rewrite !frame_of_Ok by lia. cbn [bind]. rewrite Hadd. cbn [bind].
    rewrite Hrest. cbn [bind].
    eexists; split; [reflexivity |]. split; [simpl; congruence |].
    intros [| j] V' A' Hj HV' HA'.
    + rewrite Nat.add_0_r in HV', HA'.
      assert (V' = V) by congruence. assert (A' = A) by congruence. subst.
      exists level. split; [reflexivity | exact Hadd].
    + rewrite Nat.add_succ_r in HV', HA'.
      apply (Hnth j V' A'); [lia | exact HV' | exact HA'].
Qed.

(** C3.  In a run with [pyramid_levels] levels, on volumes of [num_frames]
    frames each: the coarsest level (index [pyramid_levels - 1]) and every
    level whose smaller spatial dimension is at most 4 get the all-zero
    volume as their amplified contribution, and enter the pyramid of every
    output frame unmodified; every other level is band-pass filtered, its
    amplified contribution is [alpha] times the filtered volume, and it
    enters the pyramid as the original level plus that contribution. *)
Theorem skip_heuristic (pyramid_video_t : list (Volume R))
    (pyramid_levels : Z) (fps low_freq high_freq alpha : R)
    (num_frames : nat) :
  Z.of_nat (length pyramid_video_t) = pyramid_levels ->
  1 <= num_frames -> fps <> 0%R ->
  (forall k V, nth_error pyramid_video_t k = Some V ->
               nframes V = num_frames) ->
  exists filtered,
    filter_loop pyramid_levels fps low_freq high_freq 0 pyramid_video_t
    = Ok filtered /\
    forall i, i < num_frames ->
      exists pyr,
        recombine pyramid_video_t (amplify filtered alpha) pyramid_levels i
        = Ok pyr /\
        length pyr = length pyramid_video_t /\
        forall k V, nth_error pyramid_video_t k = Some V ->
          ((Z.of_nat k = pyramid_levels - 1)%Z
           \/ Nat.min (vrows V) (vcols V) <= 4 ->
           nth_error (amplify filtered alpha) k = Some (zeros_like V) /\
           nth_error pyr k = Some (frame_at V i)) /\
          (~ ((Z.of_nat k = pyramid_levels - 1)%Z
              \/ Nat.min (vrows V) (vcols V) <= 4) ->
           exists Fk level,
             temporal_bandpass_filter V fps low_freq high_freq = Ok Fk /\
             nth_error (amplify filtered alpha) k = Some (scale alpha Fk) /\
             nth_error pyr k = Some level /\
             np_add (frame_at V i) (frame_at (scale alpha Fk) i) = Ok level).
Proof.
  intros Hlen Hnf Hfps Hvol.
  destruct (filter_loop_Ok pyramid_levels fps low_freq high_freq
              pyramid_video_t 0 Hfps)
    as (filtered & Hfilt & Hlenf & Hnth).
  { intros k V H. rewrite (Hvol k V H). exact Hnf. }
  exists filtered. split; [exact Hfilt |].
  intros i Hi.
  assert (Hamp : forall k V, nth_error pyramid_video_t k = Some V ->
            exists Fk, nth_error filtered k = Some Fk /\
                       nth_error (amplify filtered alpha) k
                       = Some (scale alpha Fk) /\
                       vshape Fk = vshape V /\
                       if is_filtered pyramid_levels k V
                       then temporal_bandpass_filter V fps low_freq high_freq
                            = Ok Fk
                       else Fk = zeros_like V).
  { intros k V H. destruct (Hnth k V H) as (Fk & HFk & Hs & Hc).
    exists Fk. unfold amplify. rewrite nth_error_map, HFk. auto. }
  destruct (recombine_loop_Ok pyramid_video_t (amplify filtered alpha)
              i (Z.to_nat pyramid_levels) 0)
    as (pyr & Hpyr & Hlenp & Hlev); [lia | |].
  { intros k V H. split; [rewrite (Hvol k V H); exact Hi |].
    destruct (Hamp k V H) as (Fk & _ & HA & Hs & _).
    eexists; split; [exact HA |]. rewrite <- Hs. reflexivity. }
  exists pyr. split; [exact Hpyr |]. split; [lia |].
  intros k V HV.
  assert (Hk : k < length pyramid_video_t)
    by (apply nth_error_Some; congruence).
  destruct (Hamp k V HV) as (Fk & HFk & HA & Hs & Hcase).
  destruct (Hlev k V (scale alpha Fk)) as (level & Hlevel & Hadd);
    [lia | exact HV | exact HA |].
  unfold is_filtered in Hcase.
  split.
  - intros Hskip.
    replace ((Z.of_nat k <? pyramid_levels - 1)%Z
             && (4 <? Nat.min (vrows V) (vcols V))) with false in Hcase.
    2:{ symmetry. apply andb_false_iff.
        destruct Hskip as [Hlast | Hsmall];
          [left; apply Z.ltb_ge; lia | right; apply Nat.ltb_ge; exact Hsmall]. }
    subst Fk. rewrite scale_zeros_like in HA, Hadd.
    split; [exact HA |].
    rewrite np_add_zeros_like in Hadd. congruence.
  - intros Hkeep.
    replace ((Z.of_nat k <? pyramid_levels - 1)%Z
             && (4 <? Nat.min (vrows V) (vcols V))) with true in Hcase.
    2:{ symmetry. apply andb_true_iff. split.
        - apply Z.ltb_lt. lia.
        - apply Nat.ltb_lt. lia. }
    exists Fk, level. auto.
Qed.

(** ** Step 2: the assembled volumes *)

Lemma gaussian_loop_length (n : nat) (image : Frame) (rest : list Frame) :
  gaussian_loop n image = Ok rest -> length rest = n.
Proof.
  revert image rest. induction n as [| n IH]; intros image rest H.
  - injection H as <-. reflexivity.
  - cbn [gaussian_loop] in H.
    apply bind_Ok_inv in H. destruct H as (image' & _ & H).
    apply bind_Ok_inv in H. destruct H as (rest' & Hrest & H).
    injection H as <-. simpl. f_equal. exact (IH _ _ Hrest).
Qed.

Lemma laplacian_loop_length (gp : list Frame) (n i : nat) (ls : list Frame) :
  laplacian_loop gp i n = Ok ls -> length ls = n.
Proof.
  revert i ls. induction n as [| n IH]; intros i ls H.
  - injection H as <-. reflexivity.
  - cbn [laplacian_loop] in H.
    apply bind_Ok_inv in H. destruct H as (g' & _ & H).
    apply bind_Ok_inv in H. destruct H as (g & _ & H).
    apply bind_Ok_inv in H. destruct H as (up & _ & H).
    apply bind_Ok_inv in H. destruct H as (l & _ & H).
    apply bind_Ok_inv in H. destruct H as (rest & Hrest & H).
    injection H as <-. simpl. f_equal. exact (IH _ _ Hrest).
Qed.

(** A pyramid that is built has [levels] levels, or one when [levels < 1]. *)
Lemma build_laplacian_pyramid_length (image : Frame) (levels : Z)
    (lp : list Frame) :
  build_laplacian_pyramid image levels = Ok lp ->
  length lp = S (Z.to_nat (levels - 1)).
Proof.
  unfold build_laplacian_pyramid. intros H.
  apply bind_Ok_inv in H. destruct H as (gp & _ & H).
  apply bind_Ok_inv in H. destruct H as (ls & Hls & H).
  apply bind_Ok_inv in H. destruct H as (coarsest & _ & H).
  injection H as <-. rewrite length_app.
  rewrite (laplacian_loop_length _ _ _ _ Hls). simpl. lia.
Qed.

Lemma set_frame_nframes (vol vol' : Volume R) (i : nat) (f : Frame) :
  set_frame vol i f = Ok vol' -> nframes vol' = nframes vol.
Proof.
  unfold set_frame. intros H.
  destruct (negb (i <? nframes vol)); [discriminate |].
  destruct (shape_eqb (shape f) (shape (frame_at vol i)));
    [injection H as <-; reflexivity |].
  destruct ((rows f =? vrows vol) && (cols f =? vcols vol) && (chans f =? 1));
    [injection H as <-; reflexivity | discriminate].
Qed.

Lemma store_level_nframes (vol vol' : Volume R) (i : nat) (f : Frame) :
  store_level vol i f = Ok vol' -> nframes vol' = nframes vol.
Proof.
  unfold store_level. intros H.
  apply bind_Ok_inv in H. destruct H as (slot & _ & H).
  destruct (shape_eqb (shape f) (shape slot)).
  - exact (set_frame_nframes _ _ _ _ H).
  - apply bind_Ok_inv in H. destruct H as (resized & _ & H).
    exact (set_frame_nframes _ _ _ _ H).
Qed.

Lemma length_list_set {A : Type} (l : list A) (i : nat) (x : A) :
  length (list_set l i x) = length l.
Proof.
  revert i. induction l as [| a l IH]; intros [| i]; simpl; auto.
Qed.

Lemma Forall_list_set {A : Type} (P : A -> Prop) (l : list A) (i : nat) (x : A) :
  Forall P l -> P x -> Forall P (list_set l i x).
Proof.
  intros Hl Hx. revert i.
  induction Hl as [| a l Ha Hl IH]; intros [| i]; simpl; auto.
Qed.

Lemma store_levels_frames (N i : nat) (lap : list Frame)
    (pvt pvt' : list (Volume R)) (level_idx : nat) :
  store_levels pvt i level_idx lap = Ok pvt' ->
  Forall (fun V => nframes V = N) pvt ->
  length pvt' = length pvt /\ Forall (fun V => nframes V = N) pvt'.
Proof.
  revert pvt level_idx.
  induction lap as [| level_data rest IH]; intros pvt level_idx H Hall.
  - injection H as <-. auto.
  - cbn [store_levels] in H.
    apply bind_Ok_inv in H. destruct H as (vol & Hvol & H).
    apply bind_Ok_inv in H. destruct H as (vol' & Hvol' & H).
    apply IH in H.
    + rewrite length_list_set in H. exact H.
    + apply Forall_list_set; [exact Hall |].
      rewrite (store_level_nframes _ _ _ _ Hvol').
      apply index_Ok in Hvol. apply nth_error_In in Hvol.
      rewrite Forall_forall in Hall. exact (Hall vol Hvol).
Qed.

(** The volumes assembled from a non-empty list of frames: one per pyramid
    level, each with [num_frames] time samples. *)
Lemma assemble_loop_shape (frames : list Frame) (num_frames : nat)
    (pyramid_levels : Z) (i : nat) (pvt out : list (Volume R)) :
  assemble_loop frames i num_frames pyramid_levels pvt = Ok out ->
  (i = 0 -> frames <> []) ->
  (0 < i -> length pvt = S (Z.to_nat (pyramid_levels - 1)) /\
            Forall (fun V => nframes V = num_frames) pvt) ->
  length out = S (Z.to_nat (pyramid_levels - 1)) /\
  Forall (fun V => nframes V = num_frames) out.
Proof.
  revert i pvt. induction frames as [| frame rest IH]; intros i pvt H Hne Hpvt.
  - injection H as <-. destruct i; [exfalso; apply Hne; reflexivity |].
    apply Hpvt. lia.
  - cbn [assemble_loop] in H.
    apply bind_Ok_inv in H. destruct H as (lap & Hlap & H).
    apply bind_Ok_inv in H. destruct H as (pvt' & Hpvt' & H).
    apply build_laplacian_pyramid_length in Hlap.
    apply (IH (S i) pvt' H); [discriminate |]. intros _.
    assert (Hpvt0 :
      length (if i =? 0 then map (zeros num_frames) lap else pvt)
      = S (Z.to_nat (pyramid_levels - 1)) /\
      Forall (fun V => nframes V = num_frames)
             (if i =? 0 then map (zeros num_frames) lap else pvt)).
    { destruct i as [| i]; cbn [Nat.eqb].
      - rewrite length_map. split; [exact Hlap |].
        apply Forall_map. apply Forall_forall. reflexivity.
      - apply Hpvt. lia. }
    destruct Hpvt0 as [Hlen0 Hall0].
    destruct (store_levels_frames num_frames i lap _ pvt' 0 Hpvt' Hall0)
      as [Hlen' Hall'].
    split; [congruence | exact Hall'].
Qed.

(** ** The store model *)

Lemma preserved_refl (n : nat) (s : store) : n <= length s -> preserved n s s.
Proof. intros H. repeat split; auto. Qed.

Lemma preserved_trans (n : nat) (s1 s2 s3 : store) :
  preserved n s1 s2 -> preserved n s2 s3 -> preserved n s1 s3.
Proof.
  intros (H1 & H2 & H3) (_ & H4 & H5). repeat split; auto.
  intros l Hl. rewrite (H5 l Hl). apply (H3 l Hl).
Qed.

Lemma preserved_weaken (n0 n : nat) (s s' : store) :
  n0 <= n -> preserved n s s' -> preserved n0 s s'.
Proof.
  intros H (H1 & H2 & H3). repeat split; try lia.
  intros l Hl. apply H3. lia.
Qed.

Lemma preserved_alloc (n : nat) (s : store) (a : array) :
  n <= length s -> preserved n s (s ++ [a]).
Proof.
  intros H. repeat split; [exact H | rewrite length_app; lia |].
  intros l Hl. apply nth_error_app1. lia.
Qed.

(** A write to the last array allocated keeps the older ones. *)
Lemma preserved_set_last (n : nat) (s : store) (a b : array) :
  n <= length s -> preserved n (s ++ [a]) (s ++ [b]).
Proof.
  intros H. repeat split; try (rewrite length_app; lia).
  intros l Hl. rewrite !nth_error_app1 by lia. reflexivity.
Qed.

Lemma preserved_lookup (n : nat) (s s' : store) (l : loc) (a : array) :
  preserved n s s' -> l < n -> nth_error s l = Some a ->
  nth_error s' l = Some a.
Proof. intros (_ & _ & H) Hl Ha. rewrite (H l Hl). exact Ha. Qed.

Lemma nth_error_snoc {A : Type} (l : list A) (a : A) :
  nth_error (l ++ [a]) (length l) = Some a.
Proof.
  rewrite nth_error_app2, Nat.sub_diag by lia. reflexivity.
Qed.

Lemma list_set_snoc {A : Type} (l : list A) (a b : A) :
  list_set (l ++ [a]) (length l) b = l ++ [b].
Proof.
  induction l as [| x l IH]; simpl; [reflexivity | rewrite IH; reflexivity].
Qed.

Lemma refines_bind {A A' B B' : Type} (n : nat) (s : store) (m : St A)
    (p : result B) (rel : store -> A -> B -> Prop) (k : A -> St A')
    (q : B -> result B') (rel' : store -> A' -> B' -> Prop) :
  refines n s m p rel ->
  (forall a b s', preserved n s s' -> rel s' a b ->
                  refines n s' (k a) (q b) rel') ->
  refines n s (bindS m k) (bind p q) rel'.
Proof.
  unfold refines, bindS. intros Hm Hk.
  destruct p as [b | e]; cbn [bind].
  - destruct Hm as (a & s' & Hrun & Hext & Hrel). rewrite Hrun.
    specialize (Hk a b s' Hext Hrel).
    destruct (q b) as [b' | e'].
    + destruct Hk as (a' & s'' & Hrun' & Hext' & Hrel').
      exists a', s''. split; [exact Hrun' |]. split; [| exact Hrel'].
      exact (preserved_trans n s s' s'' Hext Hext').
    + exact Hk.
  - rewrite Hm. reflexivity.
Qed.

(** A step of the store program that has no counterpart on values. *)
Lemma refines_step {A A' B' : Type} (n : nat) (s s' : store) (m : St A)
    (a : A) (k : A -> St A') (q : result B')
    (rel' : store -> A' -> B' -> Prop) :
  m s = Ok (a, s') -> preserved n s s' ->
  refines n s' (k a) q rel' ->
  refines n s (bindS m k) q rel'.
Proof.
  unfold refines, bindS. intros Hrun Hext Hk. rewrite Hrun.
  destruct q as [b' | e'].
  - destruct Hk as (a' & s'' & Hrun' & Hext' & Hrel').
    exists a', s''. split; [exact Hrun' |]. split; [| exact Hrel'].
    exact (preserved_trans n s s' s'' Hext Hext').
  - exact Hk.
Qed.

Lemma refines_lift {A : Type} (n : nat) (s : store) (r : result A) :
  n <= length s ->
  refines n s (lift r) r (fun s' a b => a = b /\ s' = s).
Proof.
  intros Hn. unfold refines, lift. destruct r as [a | e]; [| reflexivity].
  exists a, s. split; [reflexivity |].
  split; [apply preserved_refl; exact Hn | auto].
Qed.

Lemma refines_ret {A B : Type} (n : nat) (s : store) (a : A) (b : B)
    (rel : store -> A -> B -> Prop) :
  n <= length s -> rel s a b -> refines n s (ret a) (Ok b) rel.
Proof.
  intros Hn H. exists a, s. split; [reflexivity |].
  split; [apply preserved_refl; exact Hn | exact H].
Qed.

Lemma refines_weaken {A B : Type} (n0 n : nat) (s : store) (m : St A)
    (p : result B) (rel rel' : store -> A -> B -> Prop) :
  refines n s m p rel -> n0 <= n ->
  (forall s' a b, preserved n s s' -> rel s' a b -> rel' s' a b) ->
  refines n0 s m p rel'.
Proof.
  unfold refines. destruct p as [b | e]; [| auto].
  intros (a & s' & Hrun & Hext & Hrel) Hn H. exists a, s'.
  split; [exact Hrun |].
  split; [exact (preserved_weaken n0 n s s' Hn Hext) | auto].
Qed.

Lemma read_volume_whole (s : store) (l : loc) (V : Volume R) :
  holds_volume s l V -> read_volume (Whole l) s = Ok (V, s).
Proof.
  unfold holds_volume, read_volume, bindS, load. intros ->. reflexivity.
Qed.

Lemma read_complex_Ok (s : store) (l : loc) (X : Volume C) :
  nth_error s l = Some (ComplexArray X) -> read_complex l s = Ok (X, s).
Proof.
  unfold read_complex, bindS, load. intros ->. reflexivity.
Qed.

Lemma read_frame_whole (s : store) (l : loc) (f : Frame) :
  holds_frame s l f -> read_frame (Whole l) s = Ok (f, s).
Proof.
  unfold holds_frame, read_frame, bindS, load. intros ->. reflexivity.
Qed.

Lemma reads_read_volume (s : store) (r : ref) (V : Volume R) :
  reads s r V -> read_volume r s = Ok (V, s).
Proof.
  destruct r as [l | l | l i]; cbn [reads].
  - apply read_volume_whole.
  - intros (Y & HY & ->). unfold read_volume, bindS.
    rewrite (read_complex_Ok s l Y HY). reflexivity.
  - contradiction.
Qed.

Lemma holds_volume_preserved (s s' : store) (l : loc) (V : Volume R) :
  holds_volume s l V -> preserved (length s) s s' -> holds_volume s' l V.
Proof.
  unfold holds_volume. intros H Hp.
  apply (preserved_lookup (length s) s s' l _ Hp); [| exact H].
  apply nth_error_Some. congruence.
Qed.

Lemma holds_frame_preserved (s s' : store) (l : loc) (f : Frame) :
  holds_frame s l f -> preserved (length s) s s' -> holds_frame s' l f.
Proof.
  unfold holds_frame. intros H Hp.
  apply (preserved_lookup (length s) s s' l _ Hp); [| exact H].
  apply nth_error_Some. congruence.
Qed.

Lemma reads_preserved (s s' : store) (r : ref) (V : Volume R) :
  reads s r V -> preserved (length s) s s' -> reads s' r V.
Proof.
  destruct r as [l | l | l i]; cbn [reads]; intros H Hp.
  - exact (holds_volume_preserved s s' l V H Hp).
  - destruct H as (Y & HY & ->). exists Y. split; [| reflexivity].
    apply (preserved_lookup (length s) s s' l _ Hp); [| exact HY].
    apply nth_error_Some. congruence.
  - contradiction.
Qed.

Lemma Forall2_preserved {A B : Type} (P : store -> A -> B -> Prop)
    (s s' : store) (xs : list A) (ys : list B) :
  (forall a b, P s a b -> P s' a b) ->
  Forall2 (P s) xs ys -> Forall2 (P s') xs ys.
Proof.
  intros H HF. induction HF; constructor; auto.
Qed.

Ltac store_length := rewrite ?length_app; simpl; lia.

(** The filter on the store: the arrays that exist when it is called stay
    as they were (the one write goes to the copy of the transform), and the
    view returned reads as the filtered volume. *)
Lemma temporal_bandpass_filter_st_refines (s : store) (l : loc) (V : Volume R)
    (fps low_freq high_freq : R) :
  holds_volume s l V ->
  refines (length s) s
          (temporal_bandpass_filter_st (Whole l) fps low_freq high_freq)
          (temporal_bandpass_filter V fps low_freq high_freq)
          (fun s' r out =>
             reads s' r out /\ exists lf, r = RealPart lf /\ length s <= lf).
Proof.
  intros Hl. unfold temporal_bandpass_filter_st, temporal_bandpass_filter.
  apply (refines_step (length s) s s _ V);
    [apply read_volume_whole; exact Hl | apply preserved_refl; lia |].
  eapply refines_bind; [apply refines_lift; lia |].
  intros X X' s1 _ [<- ->].
  eapply refines_step; [reflexivity | apply preserved_alloc; lia |].
  eapply refines_bind; [apply refines_lift; store_length |].
  intros d d' s2 _ [<- ->].
  eapply refines_bind; [apply refines_lift; store_length |].
  intros freqs freqs' s3 _ [<- ->].
  cbv zeta.
  eapply refines_step;
    [apply read_complex_Ok; apply nth_error_snoc
    | apply preserved_refl; store_length |].
  eapply refines_step;
    [reflexivity | apply preserved_alloc; store_length |].
  eapply refines_step;
    [apply read_complex_Ok; apply nth_error_snoc
    | apply preserved_refl; store_length |].
  eapply refines_step.
  { unfold overwrite. rewrite list_set_snoc.
    replace (length (s ++ [ComplexArray X])
             <? length ((s ++ [ComplexArray X]) ++ [ComplexArray X]))
      with true; [reflexivity |].
    symmetry. apply Nat.ltb_lt. store_length. }
  { apply preserved_set_last. store_length. }
  eapply refines_step;
    [apply read_complex_Ok; apply nth_error_snoc
    | apply preserved_refl; store_length |].
  eapply refines_bind; [apply refines_lift; store_length |].
  intros Y Y' s4 _ [<- ->].
  eapply refines_step;
    [reflexivity | apply preserved_alloc; store_length |].
  apply refines_ret; [store_length |]. split.
  - exists Y. split; [apply nth_error_snoc | reflexivity].
  - eexists; split; [reflexivity | store_length].
Qed.

(** Step 3 on the store. *)
Lemma filter_loop_st_refines (pyramid_levels : Z) (fps low_freq high_freq : R)
    (locs : list loc) (vols : list (Volume R)) :
  forall (s : store) (level_idx : nat),
    Forall2 (holds_volume s) locs vols ->
    refines (length s) s
      (filter_loop_st pyramid_levels fps low_freq high_freq level_idx locs)
      (filter_loop pyramid_levels fps low_freq high_freq level_idx vols)
      (fun s' refs outs => Forall2 (reads s') refs outs).
Proof.
  revert vols. induction locs as [| l locs IH];
    intros vols s level_idx H; inversion H as [| l' V ls vols' Hl Hrest]; subst.
  - apply refines_ret; [lia | constructor].
  - cbn [filter_loop_st filter_loop].
    apply (refines_step (length s) s s _ V);
      [apply read_volume_whole; exact Hl | apply preserved_refl; lia |].
    eapply refines_bind.
    { instantiate (1 := fun s' r out => reads s' r out /\ preserved (length s) s s').
      destruct (is_filtered pyramid_levels level_idx V).
      - eapply refines_weaken;
          [apply temporal_bandpass_filter_st_refines; exact Hl | lia |].
        intros s' r out Hp [Hr _]. auto.
      - eapply refines_step;
          [reflexivity | apply preserved_alloc; lia |].
        apply refines_ret; [store_length |].
        split; [apply nth_error_snoc | apply preserved_alloc; lia]. }
    intros r out s1 Hp1 [Hr Hp1'].
    assert (Hlen1 : length s <= length s1) by (destruct Hp1 as (_ & ? & _); lia).
    eapply refines_bind.
    { eapply refines_weaken.
      - apply (IH vols' s1).
        apply (Forall2_preserved (fun s l V => holds_volume s l V) s s1);
          [| exact Hrest].
        intros a b Hab. exact (holds_volume_preserved s s1 a b Hab Hp1).
      - exact Hlen1.
      - intros s' refs outs Hp HF. exact (conj HF Hp). }
    intros refs outs s2 Hp2 [HF Hp2'].
    apply refines_ret; [destruct Hp2 as (_ & ? & _); lia |].
    constructor; [| exact HF].
    exact (reads_preserved s1 s2 r out Hr Hp2').
Qed.

(** Step 4 on the store: every amplified volume is a new array. *)
Lemma amplify_st_refines (alpha : R) (refs : list ref) (vols : list (Volume R)) :
  forall s : store,
    Forall2 (reads s) refs vols ->
    refines (length s) s (amplify_st refs alpha) (Ok (amplify vols alpha))
      (fun s' locs avols => Forall2 (holds_volume s') locs avols).
Proof.
  revert vols. induction refs as [| r refs IH];
    intros vols s H; inversion H as [| r' V rs vols' Hr Hrest]; subst.
  - apply refines_ret; [lia | constructor].
  - cbn [amplify_st amplify map].
    apply (refines_step (length s) s s _ V);
      [apply reads_read_volume; exact Hr | apply preserved_refl; lia |].
    eapply refines_step; [reflexivity | apply preserved_alloc; lia |].
    change (Ok (scale alpha V :: map (scale alpha) vols'))
      with (bind (Ok (amplify vols' alpha))
                 (fun others => Ok (scale alpha V :: others))).
    eapply refines_bind.
    { eapply refines_weaken.
      - apply (IH vols' (s ++ [RealArray (scale alpha V)])).
        apply (Forall2_preserved (fun s r V => reads s r V) s _);
          [| exact Hrest].
        intros a b Hab. apply (reads_preserved s _ a b Hab).
        apply preserved_alloc; lia.
      - store_length.
      - intros s' locs avols Hp HF. exact (conj HF Hp). }
    intros locs avols s2 Hp2 [HF Hp2'].
    apply refines_ret; [destruct Hp2 as (_ & ? & _); lia |].
    constructor; [| exact HF].
    apply (holds_volume_preserved (s ++ [RealArray (scale alpha V)]) s2);
      [apply nth_error_snoc | exact Hp2'].
Qed.

Lemma refines_index {A B : Type} (P : A -> B -> Prop) (n : nat) (s : store)
    (xs : list A) (ys : list B) (i : nat) :
  n <= length s -> Forall2 P xs ys ->
  refines n s (lift (index xs i)) (index ys i)
          (fun s' x y => P x y /\ s' = s).
Proof.
  intros Hn HF. revert i.
  induction HF as [| x y xs ys Hxy HF IH]; intros [| i];
    unfold index; cbn [nth_error]; try reflexivity.
  - apply refines_ret; auto.
  - apply IH.
Qed.

Lemma refines_index_last {A B : Type} (P : A -> B -> Prop) (n : nat)
    (s : store) (xs : list A) (ys : list B) :
  n <= length s -> Forall2 P xs ys ->
  refines n s (lift (index_last xs)) (index_last ys)
          (fun s' x y => P x y /\ s' = s).
Proof.
  intros Hn HF. pose proof (Forall2_length HF) as Hlen.
  destruct HF as [| x y xs ys Hxy HF]; [reflexivity |].
  unfold index_last. rewrite <- Hlen.
  apply refines_index; [exact Hn | constructor; assumption].
Qed.

(** [vol[i]] is a view: nothing is allocated. *)
Lemma view_frame_refines (n : nat) (s : store) (l : loc) (V : Volume R)
    (i : nat) :
  n <= length s -> holds_volume s l V ->
  refines n s (view_frame l i) (frame_of V i)
          (fun s' r f => s' = s /\ read_frame r s = Ok (f, s)).
Proof.
  intros Hn Hl. unfold view_frame.
  apply (refines_step n s s _ V);
    [apply read_volume_whole; exact Hl | apply preserved_refl; lia |].
  unfold refines, bindS, lift, ret.
  destruct (frame_of V i) as [f |] eqn:E; [| reflexivity].
  exists (FrameOf l i), s. split; [reflexivity |].
  split; [apply preserved_refl; exact Hn |]. split; [reflexivity |].
  unfold read_frame, bindS. rewrite (read_volume_whole s l V Hl).
  unfold lift. rewrite E. reflexivity.
Qed.

(** Step 5, inner loop, on the store: each level of the output pyramid is a
    new array, the sum of frame [i] of the original volume and frame [i] of
    the amplified volume. *)
Lemma recombine_loop_st_refines (pvt amp : list loc)
    (vols avols : list (Volume R)) (i n : nat) :
  forall (s : store) (level_idx : nat),
    Forall2 (holds_volume s) pvt vols ->
    Forall2 (holds_volume s) amp avols ->
    refines (length s) s
      (recombine_loop_st pvt amp i level_idx n)
      (recombine_loop vols avols i level_idx n)
      (fun s' locs levels =>
         Forall2 (holds_frame s') locs levels /\
         Forall (fun l => length s <= l) locs).
Proof.
  induction n as [| n IH]; intros s level_idx Hpvt Hamp.
  - apply refines_ret; [lia | split; constructor].
  - cbn [recombine_loop_st recombine_loop].
    eapply refines_bind; [apply (refines_index _ _ _ _ _ _ (le_n _) Hpvt) |].
    intros l V s1 _ [Hl ->].
    eapply refines_bind; [apply view_frame_refines; [lia | exact Hl] |].
    intros ro o s1 _ [-> Hro].
    eapply refines_bind; [apply (refines_index _ _ _ _ _ _ (le_n _) Hamp) |].
    intros la A s1 _ [Hla ->].
    eapply refines_bind; [apply view_frame_refines; [lia | exact Hla] |].
    intros ra a s1 _ [-> Hra].
    eapply refines_step; [exact Hro | apply preserved_refl; lia |].
    eapply refines_step; [exact Hra | apply preserved_refl; lia |].
    eapply refines_bind; [apply refines_lift; lia |].
    intros sum sum' s1 _ [<- ->].
    eapply refines_step; [reflexivity | apply preserved_alloc; lia |].
    assert (Hp : preserved (length s) s (s ++ [ImageArray sum]))
      by (apply preserved_alloc; lia).
    eapply refines_bind.
    { eapply refines_weaken.
      - apply (IH (s ++ [ImageArray sum]) (S level_idx)).
        + apply (Forall2_preserved (fun s l V => holds_volume s l V) s _);
            [| exact Hpvt].
          intros x y Hxy. exact (holds_volume_preserved s _ x y Hxy Hp).
        + apply (Forall2_preserved (fun s l V => holds_volume s l V) s _);
            [| exact Hamp].
          intros x y Hxy. exact (holds_volume_preserved s _ x y Hxy Hp).
      - store_length.
      - intros s' locs levels Hp' HF. exact (conj HF Hp'). }
    intros locs levels s2 Hp2 [[HF Hfresh] Hp2'].
    apply refines_ret; [destruct Hp2 as (_ & ? & _); lia |].
    split; constructor.
    + apply (holds_frame_preserved (s ++ [ImageArray sum]) s2);
        [apply nth_error_snoc | exact Hp2'].
    + exact HF.
    + lia.
    + apply (Forall_impl _ (P := fun l => length (s ++ [ImageArray sum]) <= l));
        [| exact Hfresh].
      intros x. rewrite length_app. simpl. lia.
Qed.

(** Reconstruction on the store: every intermediate image is a new array. *)
Lemma reconstruct_loop_st_refines (locs : list loc) (pyramid : list Frame)
    (n : nat) :
  forall (s : store) (image : loc) (img : Frame),
    Forall2 (holds_frame s) locs pyramid ->
    holds_frame s image img ->
    refines (length s) s
      (reconstruct_loop_st locs n image)
      (reconstruct_loop pyramid n img)
      (fun s' l f => holds_frame s' l f /\ (l = image \/ length s <= l)).
Proof.
  induction n as [| n IH]; intros s image img Hpyr Himg.
  - apply refines_ret; [lia | auto].
  - cbn [reconstruct_loop_st reconstruct_loop].
    eapply refines_bind; [apply (refines_index _ _ _ _ _ _ (le_n _) Hpyr) |].
    intros lp p_i s1 _ [Hlp ->].
    eapply refines_step;
      [apply read_frame_whole; exact Hlp | apply preserved_refl; lia |].
    eapply refines_step;
      [apply read_frame_whole; exact Himg | apply preserved_refl; lia |].
    eapply refines_bind; [apply refines_lift; lia |].
    intros up up' s1 _ [<- ->].
    eapply refines_step; [reflexivity | apply preserved_alloc; lia |].
    eapply refines_step; [reflexivity | apply preserved_alloc; store_length |].
    eapply refines_step; [reflexivity | apply preserved_alloc; store_length |].
    eapply refines_bind; [apply refines_lift; store_length |].
    intros sum sum' s1 _ [<- ->].
    eapply refines_step; [reflexivity | apply preserved_alloc; store_length |].
    set (s4 := (((s ++ [ImageArray up]) ++ [ImageArray up])
                  ++ [ImageArray p_i]) ++ [ImageArray sum]).
    assert (Hp : preserved (length s) s s4).
    { unfold s4. rewrite <- !app_assoc. exists; [lia |].
      split; [store_length |]. intros l Hl. apply nth_error_app1. exact Hl. }
    eapply refines_weaken.
    + apply (IH s4 _ sum).
      * apply (Forall2_preserved (fun s l f => holds_frame s l f) s s4);
          [| exact Hpyr].
        intros x y Hxy. exact (holds_frame_preserved s s4 x y Hxy Hp).
      * unfold s4. apply nth_error_snoc.
    + destruct Hp as (_ & ? & _). assumption.
    + intros s' l f _ [Hf Hl]. split; [exact Hf |]. right.
      destruct Hl as [-> | Hl]; [store_length |].
      unfold s4 in Hl. rewrite !length_app in Hl. simpl in Hl. lia.
Qed.

Lemma reconstruct_from_laplacian_pyramid_st_refines (locs : list loc)
    (pyramid : list Frame) (s : store) :
  Forall2 (holds_frame s) locs pyramid ->
  refines (length s) s
    (reconstruct_from_laplacian_pyramid_st locs)
    (reconstruct_from_laplacian_pyramid pyramid)
    (fun s' l f => holds_frame s' l f /\ (In l locs \/ length s <= l)).
Proof.
  intros Hpyr.
  unfold reconstruct_from_laplacian_pyramid_st,
    reconstruct_from_laplacian_pyramid.
  eapply refines_bind.
  { apply (refines_index_last (fun l f => holds_frame s l f /\ In l locs)
             (length s) s locs pyramid (le_n _)).
    clear - Hpyr. induction Hpyr as [| l f locs pyr Hl HF IH];
      constructor.
    - split; [exact Hl | left; reflexivity].
    - apply (Forall2_impl (R1 := fun l0 f0 => holds_frame s l0 f0 /\ In l0 locs));
        [| exact IH].
      intros a b [Ha Hin]. split; [exact Ha | right; exact Hin]. }
  intros image img s1 _ [[Himg Hin] ->].
  rewrite (Forall2_length Hpyr).
  eapply refines_weaken;
    [apply (reconstruct_loop_st_refines locs pyramid _ s image img Hpyr Himg)
    | lia |].
  intros s' l f _ [Hf [-> | Hl]]; auto.
Qed.

(** Step 5 on the store. *)
Lemma reconstruct_frames_st_refines (pvt amp : list loc)
    (vols avols : list (Volume R)) (pyramid_levels : Z) (n : nat) :
  forall (s : store) (i : nat),
    Forall2 (holds_volume s) pvt vols ->
    Forall2 (holds_volume s) amp avols ->
    refines (length s) s
      (reconstruct_frames_st pvt amp pyramid_levels i n)
      (reconstruct_frames vols avols pyramid_levels i n)
      (fun s' locs frames =>
         Forall2 (holds_frame s') locs frames /\
         Forall (fun l => length s <= l) locs).
Proof.
  induction n as [| n IH]; intros s i Hpvt Hamp.
  - apply refines_ret; [lia | split; constructor].
  - cbn [reconstruct_frames_st reconstruct_frames]. unfold recombine.
    eapply refines_bind.
    { eapply refines_weaken;
        [apply (recombine_loop_st_refines pvt amp vols avols i _ s 0 Hpvt Hamp)
        | lia |].
      intros s' locs levels Hp HF. exact (conj HF Hp). }
    intros plocs levels s1 Hp1 [[Hlev Hfresh] _].
    assert (Hlen1 : length s <= length s1) by (destruct Hp1 as (_ & ? & _); lia).
    eapply refines_bind.
    { eapply refines_weaken;
        [apply (reconstruct_from_laplacian_pyramid_st_refines plocs levels s1 Hlev)
        | exact Hlen1 |].
      intros s' l f Hp HF. exact (conj HF Hp). }
    intros l f s2 Hp2 [[Hf Hl] Hp2'].
    assert (Hlen2 : length s <= length s2) by (destruct Hp2 as (_ & ? & _); lia).
    assert (Hp02 : preserved (length s) s s2)
      by exact (preserved_trans (length s) s s1 s2 Hp1 Hp2).
    eapply refines_bind.
    { eapply refines_weaken.
      - apply (IH s2 (S i)).
        + apply (Forall2_preserved (fun s l V => holds_volume s l V) s s2);
            [| exact Hpvt].
          intros x y Hxy. exact (holds_volume_preserved s s2 x y Hxy Hp02).
        + apply (Forall2_preserved (fun s l V => holds_volume s l V) s s2);
            [| exact Hamp].
          intros x y Hxy. exact (holds_volume_preserved s s2 x y Hxy Hp02).
      - exact Hlen2.
      - intros s' locs frames Hp HF. exact (conj HF Hp). }
    intros locs frames s3 Hp3 [[HF Hfresh3] Hp3'].
    apply refines_ret; [destruct Hp3 as (_ & ? & _); lia |].
    split; constructor.
    + exact (holds_frame_preserved s2 s3 l f Hf Hp3').
    + exact HF.
    + destruct Hl as [Hin | Hl]; [| lia].
      rewrite Forall_forall in Hfresh. exact (Hfresh l Hin).
    + apply (Forall_impl _ (P := fun l0 => length s2 <= l0)); [| exact Hfresh3].
      intros x. lia.
Qed.

(** Steps 3 to 5 on the store compute what they compute on values, and keep
    every array that existed before. *)
Lemma filter_amplify_reconstruct_st_refines (pvt : list loc)
    (vols : list (Volume R)) (num_frames : nat) (fps : R)
    (pyramid_levels : Z) (low_freq high_freq alpha : R) (s : store) :
  Forall2 (holds_volume s) pvt vols ->
  refines (length s) s
    (filter_amplify_reconstruct_st pvt num_frames fps pyramid_levels
                                   low_freq high_freq alpha)
    (filter_amplify_reconstruct vols num_frames fps pyramid_levels
                                low_freq high_freq alpha)
    (fun s' locs frames =>
       Forall2 (holds_frame s') locs frames /\
       Forall (fun l => length s <= l) locs).
Proof.
  intros Hpvt.
  unfold filter_amplify_reconstruct_st, filter_amplify_reconstruct.
  eapply refines_bind.
  { eapply refines_weaken;
      [apply (filter_loop_st_refines pyramid_levels fps low_freq high_freq
                pvt vols s 0 Hpvt) | lia |].
    intros s' refs outs Hp HF. exact HF. }
  intros refs filtered s1 Hp1 Hrefs.
  assert (Hlen1 : length s <= length s1) by (destruct Hp1 as (_ & ? & _); lia).
  change (reconstruct_frames vols (amplify filtered alpha) pyramid_levels
                             0 num_frames)
    with (bind (Ok (amplify filtered alpha))
               (fun a => reconstruct_frames vols a pyramid_levels 0 num_frames)).
  eapply refines_bind.
  { eapply refines_weaken;
      [apply (amplify_st_refines alpha refs filtered s1 Hrefs)
      | exact Hlen1 |].
    intros s' locs avols Hp HF. exact HF. }
  intros amp avols s2 Hp2 Hamp.
  assert (Hlen2 : length s <= length s2) by (destruct Hp2 as (_ & ? & _); lia).
  assert (Hp02 : preserved (length s) s s2)
    by exact (preserved_trans (length s) s s1 s2 Hp1 Hp2).
  eapply refines_weaken.
  - apply (reconstruct_frames_st_refines pvt amp vols avols pyramid_levels
             num_frames s2 0); [| exact Hamp].
    apply (Forall2_preserved (fun s l V => holds_volume s l V) s s2);
      [| exact Hpvt].
    intros x y Hxy. exact (holds_volume_preserved s s2 x y Hxy Hp02).
  - exact Hlen2.
  - intros s' locs frames _ [HF Hfresh]. split; [exact HF |].
    apply (Forall_impl _ (P := fun l0 => length s2 <= l0)); [| exact Hfresh].
    intros x. lia.
Qed.

Lemma refines_Ok_inv {A B : Type} (n : nat) (s s' : store) (m : St A)
    (p : result B) (rel : store -> A -> B -> Prop) (a : A) :
  refines n s m p rel -> m s = Ok (a, s') ->
  exists b, p = Ok b /\ preserved n s s' /\ rel s' a b.
Proof.
  unfold refines. destruct p as [b | e]; intros H Hrun.
  - destruct H as (a0 & s0 & Hrun0 & Hp & Hrel).
    rewrite Hrun in Hrun0. injection Hrun0 as <- <-.
    exists b. auto.
  - congruence.
Qed.

(** What the inner loop of step 5 returns, level by level. *)
Lemma recombine_loop_inv (vols avols : list (Volume R)) (i n : nat) :
  forall (level_idx : nat) (levels : list Frame),
    recombine_loop vols avols i level_idx n = Ok levels ->
    length levels = n /\
    forall j level, nth_error levels j = Some level ->
      exists V A,
        nth_error vols (level_idx + j) = Some V /\
        nth_error avols (level_idx + j) = Some A /\
        i < nframes V /\ i < nframes A /\
        np_add (frame_at V i) (frame_at A i) = Ok level.
Proof.
  induction n as [| n IH]; intros level_idx levels H.
  - injection H as <-. split; [reflexivity |].
    intros [| j] level Hj; discriminate.
  - cbn [recombine_loop] in H.
    apply bind_Ok_inv in H. destruct H as (V & HV & H).
    apply bind_Ok_inv in H. destruct H as (o & Ho & H).
    apply bind_Ok_inv in H. destruct H as (A & HA & H).
    apply bind_Ok_inv in H. destruct H as (a & Ha & H).
    apply bind_Ok_inv in H. destruct H as (level0 & Hadd & H).
    apply bind_Ok_inv in H. destruct H as (rest & Hrest & H).
    injection H as <-.
    apply index_Ok in HV. apply index_Ok in HA.
    unfold frame_of in Ho, Ha.
    destruct (i <? nframes V) eqn:EV; [| discriminate].
    destruct (i <? nframes A) eqn:EA; [| discriminate].
    injection Ho as <-. injection Ha as <-.
    apply Nat.ltb_lt in EV. apply Nat.ltb_lt in EA.
    destruct (IH _ _ Hrest) as [Hlen Hnth].
    split; [simpl; congruence |].
    intros [| j] level Hj.
    + injection Hj as <-. exists V, A. rewrite Nat.add_0_r. auto.
    + rewrite Nat.add_succ_r. exact (Hnth j level Hj).
Qed.

(** C9.  On a store where the locations [pvt] hold the original volumes
    [vols]:
    - a run of the filter on one of them that returns leaves every array of
      the store as it was (its single write goes to its own copy of the
      transform), and returns a view of a new array that reads as the
      filtered volume;
    - a run of the recombination of frame [i] that returns leaves every
      array as it was, and each level of the pyramid it returns is a new
      array holding original[level][i] + amplified[level][i];
    - a run of steps 3 to 5 that returns leaves every array as it was: the
      locations [pvt] still hold [vols], the output frames are new arrays,
      and they hold the frames computed from [vols];
    - the run on the store returns whenever the computation on values
      does. *)
Theorem originals_not_modified (s : store) (pvt : list loc)
    (vols : list (Volume R)) (num_frames : nat) (fps : R)
    (pyramid_levels : Z) (low_freq high_freq alpha : R) :
  Forall2 (holds_volume s) pvt vols ->
  (forall k l V r s',
     nth_error pvt k = Some l -> nth_error vols k = Some V ->
     temporal_bandpass_filter_st (Whole l) fps low_freq high_freq s
     = Ok (r, s') ->
     preserved (length s) s s' /\
     Forall2 (holds_volume s') pvt vols /\
     exists out lf,
       temporal_bandpass_filter V fps low_freq high_freq = Ok out /\
       reads s' r out /\ r = RealPart lf /\ length s <= lf) /\
  (forall amp avols i locs s',
     Forall2 (holds_volume s) amp avols ->
     recombine_loop_st pvt amp i 0 (Z.to_nat pyramid_levels) s
     = Ok (locs, s') ->
     preserved (length s) s s' /\
     Forall2 (holds_volume s') pvt vols /\
     forall j l, nth_error locs j = Some l ->
       length s <= l /\
       exists V A level,
         nth_error vols j = Some V /\ nth_error avols j = Some A /\
         np_add (frame_at V i) (frame_at A i) = Ok level /\
         holds_frame s' l level) /\
  (forall out_locs s',
     filter_amplify_reconstruct_st pvt num_frames fps pyramid_levels
                                   low_freq high_freq alpha s
     = Ok (out_locs, s') ->
     preserved (length s) s s' /\
     Forall2 (holds_volume s') pvt vols /\
     Forall (fun l => length s <= l) out_locs /\
     exists outs,
       filter_amplify_reconstruct vols num_frames fps pyramid_levels
                                  low_freq high_freq alpha = Ok outs /\
       Forall2 (holds_frame s') out_locs outs) /\
  (forall outs,
     filter_amplify_reconstruct vols num_frames fps pyramid_levels
                                low_freq high_freq alpha = Ok outs ->
     exists out_locs s',
       filter_amplify_reconstruct_st pvt num_frames fps pyramid_levels
                                     low_freq high_freq alpha s
       = Ok (out_locs, s') /\
       Forall2 (holds_frame s') out_locs outs).
Proof.
  intros Hpvt.
  assert (Hkeep : forall s', preserved (length s) s s' ->
                             Forall2 (holds_volume s') pvt vols).
  { intros s' Hp.
    apply (Forall2_preserved (fun s l V => holds_volume s l V) s s');
      [| exact Hpvt].
    intros x y Hxy. exact (holds_volume_preserved s s' x y Hxy Hp). }
  split; [| split; [| split]].
  - intros k l V r s' Hl HV Hrun.
    assert (Hhold : holds_volume s l V).
    { clear - Hpvt Hl HV. revert k Hl HV.
      induction Hpvt as [| x y xs ys Hxy HF IH]; intros [| k] Hl HV;
        try discriminate.
      - injection Hl as <-. injection HV as <-. exact Hxy.
      - exact (IH k Hl HV). }
    destruct (refines_Ok_inv _ _ _ _ _ _ _
                (temporal_bandpass_filter_st_refines s l V fps low_freq
                   high_freq Hhold) Hrun)
      as (out & Hout & Hp & Hr & lf & Hlf & Hfresh).
    split; [exact Hp |]. split; [exact (Hkeep s' Hp) |].
    exists out, lf. auto.
  - intros amp avols i locs s' Hamp Hrun.
    destruct (refines_Ok_inv _ _ _ _ _ _ _
                (recombine_loop_st_refines pvt amp vols avols i
                   (Z.to_nat pyramid_levels) s 0 Hpvt Hamp) Hrun)
      as (levels & Hlevels & Hp & HF & Hfresh).
    split; [exact Hp |]. split; [exact (Hkeep s' Hp) |].
    destruct (recombine_loop_inv vols avols i _ 0 levels Hlevels)
      as [_ Hinv].
    intros j l Hj. split.
    + rewrite Forall_forall in Hfresh. apply Hfresh.
      exact (nth_error_In _ _ Hj).
    + assert (Hlev : exists level, nth_error levels j = Some level /\
                                   holds_frame s' l level).
      { clear - HF Hj. revert j Hj.
        induction HF as [| x y xs ys Hxy HF IH]; intros [| j] Hj;
          try discriminate.
        - injection Hj as <-. exists y. auto.
        - exact (IH j Hj). }
      destruct Hlev as (level & Hlevel & Hhold).
      destruct (Hinv j level Hlevel) as (V & A & HV & HA & _ & _ & Hadd).
      exists V, A, level. auto.
  - intros out_locs s' Hrun.
    destruct (refines_Ok_inv _ _ _ _ _ _ _
                (filter_amplify_reconstruct_st_refines pvt vols num_frames fps
                   pyramid_levels low_freq high_freq alpha s Hpvt) Hrun)
      as (outs & Houts & Hp & HF & Hfresh).
    split; [exact Hp |]. split; [exact (Hkeep s' Hp) |].
    split; [exact Hfresh |]. exists outs. auto.
  - intros outs Houts.
    pose proof (filter_amplify_reconstruct_st_refines pvt vols num_frames fps
                  pyramid_levels low_freq high_freq alpha s Hpvt) as Href.
    unfold refines in Href. rewrite Houts in Href.
    destruct Href as (out_locs & s' & Hrun & _ & HF & _).
    exists out_locs, s'. auto.
Qed.

(** ** A whole run succeeds *)

Lemma nonempty_half_shape (sh : nat * nat * nat) :
  nonempty_shape sh -> nonempty_shape (half_shape sh).
Proof.
  destruct sh as [[r c] k]. unfold nonempty_shape, half_shape.
  intros (Hr & Hc & Hk).
  split; [apply half_up_pos; exact Hr |].
  split; [apply half_up_pos; exact Hc | exact Hk].
Qed.

Lemma nonempty_iter_half_shape (sh : nat * nat * nat) (m : nat) :
  nonempty_shape sh -> nonempty_shape (Nat.iter m half_shape sh).
Proof.
  intros H. induction m as [| m IH]; [exact H |].
  cbn [Nat.iter nat_rect]. apply nonempty_half_shape. exact IH.
Qed.

Lemma is_empty_shape (f : Frame) :
  is_empty f = false <-> nonempty_shape (shape f).
Proof. apply is_empty_false. Qed.

Lemma pyrDown_shape (a b : Frame) :
  pyrDown a = Ok b -> shape b = half_shape (shape a).
Proof.
  intros H. apply pyrDown_inv in H. destruct H as (_ & _ & Hr & Hc & Hk).
  unfold shape, half_shape. rewrite Hr, Hc, Hk. reflexivity.
Qed.

Lemma pyrDown_chain_shaped (image : Frame) (rest : list Frame) :
  pyrDown_chain (image :: rest) ->
  pyramid_shaped (shape image) (length rest) (image :: rest).
Proof.
  intros Hch. split; [reflexivity |].
  induction m as [| m IH]; intros f Hf.
  - injection Hf as <-. reflexivity.
  - destruct (nth_error (image :: rest) m) as [g |] eqn:Eg.
    + rewrite (pyrDown_shape g f (Hch m g f Eg Hf)), (IH g eq_refl).
      reflexivity.
    + apply nth_error_None in Eg.
      assert (nth_error (image :: rest) (S m) = None)
        by (apply nth_error_None; lia).
      congruence.
Qed.

(** The Laplacian pyramid of a non-empty frame has the shapes of a pyramid. *)
Lemma build_laplacian_pyramid_shaped (image : Frame) (levels : Z) :
  is_empty image = false ->
  exists lp,
    build_laplacian_pyramid image levels = Ok lp /\
    pyramid_shaped (shape image) (Z.to_nat (levels - 1)) lp.
Proof.
  intros He.
  destruct (build_laplacian_pyramid_Ok image levels He)
    as (rest & ls & _ & Hlp & Hlen & Hlenls & Hch & Hdet).
  exists (ls ++ [last rest image]). split; [exact Hlp |].
  destruct (pyrDown_chain_shaped image rest Hch) as [_ Hgp].
  split; [rewrite length_app; simpl; lia |].
  intros m f Hf.
  destruct (Nat.lt_ge_cases m (length ls)) as [Hm | Hm].
  - destruct (Hdet m Hm) as (g & g' & up & l & Hg & _ & _ & Hsub & Hn).
    rewrite nth_error_app1 in Hf by exact Hm.
    assert (l = f) by congruence. subst l.
    rewrite (proj2 (cv_add_subtract _ _ _ Hsub)). exact (Hgp m g Hg).
  - rewrite nth_error_app2 in Hf by exact Hm.
    destruct (m - length ls) as [| d] eqn:Ed; [| destruct d; discriminate].
    injection Hf as <-.
    apply (Hgp m). replace m with (length rest) by lia.
    apply nth_error_length_last.
Qed.

Lemma pyrUp_half_Ok (image p : Frame) :
  nonempty_shape (shape p) -> shape image = half_shape (shape p) ->
  exists up, pyrUp image (cols p) (rows p) = Ok up /\ shape up = shape p.
Proof.
  intros Hne Hsh. unfold shape, half_shape in Hsh.
  injection Hsh as Hr Hc Hk.
  assert (He : is_empty image = false).
  { apply is_empty_false. destruct Hne as (H1 & H2 & H3).
    rewrite Hr, Hc, Hk.
    split; [apply half_up_pos; exact H1 |].
    split; [apply half_up_pos; exact H2 | exact H3]. }
  unfold pyrUp. rewrite He, Hr, Hc, !half_up_double, !Nat.eqb_refl.
  eexists; split; [reflexivity |]. unfold shape. cbn [rows cols chans].
  rewrite Hk. reflexivity.
Qed.

Lemma reconstruct_loop_shaped_Ok (sh : nat * nat * nat) (n : nat)
    (pyr : list Frame) :
  nonempty_shape sh -> pyramid_shaped sh n pyr ->
  forall m image,
    m <= n -> shape image = Nat.iter m half_shape sh ->
    exists out, reconstruct_loop pyr m image = Ok out /\ shape out = sh.
Proof.
  intros Hne [Hlen Hsh]. induction m as [| m IH]; intros image Hm Himg.
  - exists image. split; [reflexivity | exact Himg].
  - destruct (nth_error pyr m) as [p |] eqn:Ep;
      [| apply nth_error_None in Ep; lia].
    pose proof (Hsh m p Ep) as Hp.
    destruct (pyrUp_half_Ok image p) as (up & Hup & Hupsh).
    { rewrite Hp. apply nonempty_iter_half_shape. exact Hne. }
    { rewrite Himg, Hp. reflexivity. }
    cbn [reconstruct_loop]. unfold index. rewrite Ep. cbn [bind].
    rewrite Hup. cbn [bind]. unfold cv_add. rewrite Hupsh, shape_eqb_refl.
    cbn [bind]. apply IH; [lia |].
    unfold shape in *. cbn [rows cols chans]. injection Hupsh as -> -> ->.
    exact Hp.
Qed.

Lemma reconstruct_shaped_Ok (sh : nat * nat * nat) (n : nat)
    (pyr : list Frame) :
  nonempty_shape sh -> pyramid_shaped sh n pyr ->
  exists out, reconstruct_from_laplacian_pyramid pyr = Ok out /\ shape out = sh.
Proof.
  intros Hne Hpyr. pose proof Hpyr as [Hlen Hsh].
  unfold reconstruct_from_laplacian_pyramid.
  destruct pyr as [| p pyr]; [discriminate |].
  rewrite index_last_cons. cbn [bind].
  simpl in Hlen. injection Hlen as Hlen.
  replace (length (p :: pyr) - 1) with n by (simpl; lia).
  apply (reconstruct_loop_shaped_Ok sh n (p :: pyr) Hne Hpyr); [lia |].
  apply Hsh. rewrite <- Hlen. apply nth_error_length_last.
Qed.

Lemma nth_error_list_set_eq {A : Type} (l : list A) (i : nat) (x : A) :
  i < length l -> nth_error (list_set l i x) i = Some x.
Proof.
  revert i. induction l as [| a l IH]; intros [| i] H; simpl in *;
    try lia; [reflexivity | apply IH; lia].
Qed.

Lemma nth_error_list_set_ne {A : Type} (l : list A) (i k : nat) (x : A) :
  k <> i -> nth_error (list_set l i x) k = nth_error l k.
Proof.
  revert i k. induction l as [| a l IH]; intros [| i] [| k] H; simpl;
    try reflexivity; try lia.
  apply IH. lia.
Qed.

(** Storing a level of the shape of the slot takes the first branch. *)
Lemma store_level_same_shape (vol : Volume R) (i : nat) (f : Frame) :
  i < nframes vol -> shape f = shape (frame_at vol 0) ->
  exists vol',
    store_level vol i f = Ok vol' /\ nframes vol' = nframes vol /\
    shape (frame_at vol' 0) = shape (frame_at vol 0).
Proof.
  intros Hi Hsh. unfold store_level. rewrite (frame_of_Ok vol i Hi).
  cbn [bind].
  change (shape (frame_at vol i)) with (shape (frame_at vol 0)).
  rewrite Hsh, shape_eqb_refl. unfold set_frame.
  apply Nat.ltb_lt in Hi. rewrite Hi. cbn [negb].
  change (shape (frame_at vol i)) with (shape (frame_at vol 0)).
  rewrite Hsh, shape_eqb_refl.
  eexists; split; [reflexivity |]. split; reflexivity.
Qed.

Lemma store_levels_Ok (sh : nat * nat * nat) (n N i : nat)
    (lap : list Frame) :
  i < N ->
  forall (pvt : list (Volume R)) (level_idx : nat),
    volumes_shaped sh n N pvt ->
    (forall j f, nth_error lap j = Some f ->
       level_idx + j <= n /\
       shape f = Nat.iter (level_idx + j) half_shape sh) ->
    exists pvt',
      store_levels pvt i level_idx lap = Ok pvt' /\
      volumes_shaped sh n N pvt'.
Proof.
  intros Hi. induction lap as [| f rest IH]; intros pvt level_idx Hpvt Hlap.
  - exists pvt. split; [reflexivity | exact Hpvt].
  - destruct Hpvt as [Hlen Hvol].
    destruct (Hlap 0 f eq_refl) as [Hidx Hf]. rewrite Nat.add_0_r in Hidx, Hf.
    destruct (nth_error pvt level_idx) as [vol |] eqn:Evol;
      [| apply nth_error_None in Evol; lia].
    destruct (Hvol level_idx vol Evol) as [HN Hsh].
    destruct (store_level_same_shape vol i f) as (vol' & Hst & HN' & Hsh');
      [lia | congruence |].
    destruct (IH (list_set pvt level_idx vol') (S level_idx))
      as (pvt' & Hrest & Hshaped).
    + split; [rewrite length_list_set; exact Hlen |].
      intros m V HV.
      destruct (Nat.eq_dec m level_idx) as [-> | Hne].
      * rewrite nth_error_list_set_eq in HV by lia.
        injection HV as <-. split; congruence.
      * rewrite nth_error_list_set_ne in HV by exact Hne.
        exact (Hvol m V HV).
    + intros j g Hg. rewrite Nat.add_succ_comm. exact (Hlap (S j) g Hg).
    + exists pvt'. split; [| exact Hshaped].
      cbn [store_levels]. unfold index. rewrite Evol. cbn [bind].
      rewrite Hst. cbn [bind]. exact Hrest.
Qed.

(** Step 2 succeeds on frames of one non-empty shape. *)
Lemma assemble_loop_Ok (sh : nat * nat * nat) (N : nat) (pyramid_levels : Z)
    (frames : list Frame) :
  nonempty_shape sh ->
  Forall (fun f => shape f = sh) frames ->
  forall (i : nat) (pvt : list (Volume R)),
    i + length frames = N ->
    (i = 0 -> frames <> []) ->
    (0 < i -> volumes_shaped sh (Z.to_nat (pyramid_levels - 1)) N pvt) ->
    exists out,
      assemble_loop frames i N pyramid_levels pvt = Ok out /\
      volumes_shaped sh (Z.to_nat (pyramid_levels - 1)) N out.
Proof.
  intros Hne Hall. induction Hall as [| frame rest Hsh Hall IH];
    intros i pvt HiN Hnil Hpvt.
  - destruct i as [| i]; [exfalso; apply Hnil; reflexivity |].
    exists pvt. split; [reflexivity | apply Hpvt; lia].
  - simpl in HiN.
    destruct (build_laplacian_pyramid_shaped frame pyramid_levels)
      as (lap & Hlap & [Hlenlap Hshlap]).
    { apply is_empty_shape. rewrite Hsh. exact Hne. }
    rewrite Hsh in Hshlap.
    set (n := Z.to_nat (pyramid_levels - 1)) in *.
    assert (Hpvt0 : volumes_shaped sh n N
              (if i =? 0 then map (zeros N) lap else pvt)).
    { destruct i as [| i]; cbn [Nat.eqb]; [| apply Hpvt; lia].
      split; [rewrite length_map; exact Hlenlap |].
      intros m V HV. rewrite nth_error_map in HV.
      destruct (nth_error lap m) as [f |] eqn:Ef; [| discriminate].
      injection HV as <-. split; [reflexivity |]. exact (Hshlap m f Ef). }
    destruct (store_levels_Ok sh n N i lap) with
        (pvt := if i =? 0 then map (zeros N) lap else pvt) (level_idx := 0)
      as (pvt' & Hst & Hshaped); [lia | exact Hpvt0 | |].
    { intros j f Hf. split; [| exact (Hshlap j f Hf)].
      assert (j < length lap) by (apply nth_error_Some; congruence).
      simpl. lia. }
    destruct (IH (S i) pvt') as (out & Hout & Hshout);
      [lia | discriminate | intros _; exact Hshaped |].
    exists out. split; [| exact Hshout].
    cbn [assemble_loop]. rewrite Hlap. cbn [bind]. rewrite Hst. cbn [bind].
    exact Hout.
Qed.

Lemma np_add_shape (a b level : Frame) :
  np_add a b = Ok level -> shape level = shape a.
Proof.
  unfold np_add. destruct (shape_eqb (shape a) (shape b)); [| discriminate].
  intros H; injection H as <-. reflexivity.
Qed.

(** Step 5 succeeds, with one output frame of the shape of the input per
    frame index. *)
Lemma reconstruct_frames_Ok (sh : nat * nat * nat) (N : nat)
    (pyramid_levels : Z) (pvt amplified : list (Volume R)) :
  nonempty_shape sh -> (1 <= pyramid_levels)%Z ->
  volumes_shaped sh (Z.to_nat (pyramid_levels - 1)) N pvt ->
  (forall k V, nth_error pvt k = Some V ->
     exists A, nth_error amplified k = Some A /\ vshape A = vshape V) ->
  forall n i, i + n <= N ->
    exists outs,
      reconstruct_frames pvt amplified pyramid_levels i n = Ok outs /\
      length outs = n /\ Forall (fun f => shape f = sh) outs.
Proof.
  intros Hne Hlv [Hlen Hvol] Hamp. induction n as [| n IH]; intros i Hi.
  - exists []. repeat split; constructor.
  - destruct (recombine_loop_Ok pvt amplified i (Z.to_nat pyramid_levels) 0)
      as (pyr & Hpyr & Hlenp & Hlev); [lia | |].
    { intros k V HV. split; [| exact (Hamp k V HV)].
      destruct (Hvol k V HV) as [-> _]. lia. }
    assert (Hshaped : pyramid_shaped sh (Z.to_nat (pyramid_levels - 1)) pyr).
    { split; [lia |]. intros m f Hf.
      assert (Hm : m < length pyr) by (apply nth_error_Some; congruence).
      destruct (nth_error pvt m) as [V |] eqn:EV;
        [| apply nth_error_None in EV; lia].
      destruct (Hamp m V EV) as (A & EA & _).
      destruct (Hlev m V A) as (level & Hlevel & Hadd);
        [lia | exact EV | exact EA |].
      assert (level = f) by congruence. subst level.
      rewrite (np_add_shape _ _ _ Hadd).
      exact (proj2 (Hvol m V EV)). }
    destruct (reconstruct_shaped_Ok sh _ pyr Hne Hshaped) as (out & Hout & Hsh).
    destruct (IH (S i)) as (outs & Houts & Hlenouts & Hall); [lia |].
    exists (out :: outs).
    cbn [reconstruct_frames]. unfold recombine. rewrite Hpyr. cbn [bind].
    rewrite Hout. cbn [bind]. rewrite Houts. cbn [bind].
    split; [reflexivity |]. split; [simpl; congruence |].
    constructor; assumption.
Qed.

(** Frame-count conservation: on a non-empty list of frames of one non-empty
    shape, with at least one level and a frame rate other than zero, the
    pipeline returns one output frame of that shape per input frame. *)
Lemma eulerian_magnification_Ok (frames : list Frame) (sh : nat * nat * nat)
    (fps : R) (pyramid_levels : Z) (low_freq high_freq alpha : R) :
  frames <> [] -> nonempty_shape sh ->
  Forall (fun f => shape f = sh) frames ->
  (1 <= pyramid_levels)%Z -> fps <> 0%R ->
  exists outs,
    eulerian_magnification frames fps pyramid_levels low_freq high_freq alpha
    = Some outs /\
    length outs = length frames /\
    Forall (fun f => shape f = sh) outs.
Proof.
  intros Hnil Hne Hall Hlv Hfps.
  destruct (assemble_loop_Ok sh (length frames) pyramid_levels frames
              Hne Hall 0 [])
    as (pvt & Hpvt & Hshaped); [reflexivity | auto | intros H; lia |].
  pose proof Hshaped as [Hlen Hvol].
  assert (Hpos : 1 <= length frames) by (destruct frames; simpl; [congruence | lia]).
  destruct (filter_loop_Ok pyramid_levels fps low_freq high_freq pvt 0 Hfps)
    as (filtered & Hfilt & _ & Hnth).
  { intros k V HV. destruct (Hvol k V HV) as [-> _]. exact Hpos. }
  destruct (reconstruct_frames_Ok sh (length frames) pyramid_levels pvt
              (amplify filtered alpha) Hne Hlv Hshaped)
    with (n := length frames) (i := 0)
    as (outs & Houts & Hlenouts & Hshapes); [| lia |].
  { intros k V HV. destruct (Hnth k V HV) as (Fk & HFk & Hs & _).
    exists (scale alpha Fk). unfold amplify.
    rewrite nth_error_map, HFk. split; [reflexivity |].
    rewrite <- Hs. reflexivity. }
  exists outs. split; [| auto].
  unfold eulerian_magnification. destruct frames as [| f frames];
    [congruence |].
  unfold magnify. rewrite Hpvt. cbn [bind].
  unfold filter_amplify_reconstruct. rewrite Hfilt. cbn [bind].
  rewrite Houts. reflexivity.
Qed.

(** * Further properties *)

(** ** The inverse transform inverts the transform *)

Lemma Csum_add (n : nat) (f g : nat -> C) :
  Csum (fun t => Cadd (f t) (g t)) n = Cadd (Csum f n) (Csum g n).
Proof.
  induction n as [| n IH]; cbn [Csum].
  - unfold Cadd, C0; cbn [fst snd]. f_equal; ring.
  - rewrite IH. unfold Cadd; cbn [fst snd]. f_equal; ring.
Qed.

Lemma Csum_swap (m n : nat) (F : nat -> nat -> C) :
  Csum (fun j => Csum (fun t => F j t) n) m
  = Csum (fun t => Csum (fun j => F j t) m) n.
Proof.
  induction m as [| m IH]; cbn [Csum].
  - symmetry. apply Csum_zero. reflexivity.
  - rewrite IH, <- Csum_add. reflexivity.
Qed.

Lemma Csum_mul_r (n : nat) (z : C) (f : nat -> C) :
  Csum (fun t => Cmul (f t) z) n = Cmul (Csum f n) z.
Proof.
  induction n as [| n IH]; cbn [Csum].
  - unfold Cmul, C0; cbn [fst snd]. f_equal; ring.
  - rewrite IH. unfold Cmul, Cadd; cbn [fst snd]. f_equal; ring.
Qed.

Lemma Csum_conj (n : nat) (f : nat -> C) :
  Csum (fun t => Cconj (f t)) n = Cconj (Csum f n).
Proof.
  induction n as [| n IH]; cbn [Csum].
  - unfold Cconj, C0; cbn [fst snd]. f_equal; ring.
  - rewrite IH. unfold Cconj, Cadd; cbn [fst snd]. f_equal; ring.
Qed.

Lemma Csum_succ_l (n : nat) (f : nat -> C) :
  Csum f (S n) = Cadd (Csum (fun t => f (S t)) n) (f 0).
Proof. rewrite Csum_shift. reflexivity. Qed.

(** Summing in the reverse order. *)
Lemma Csum_rev (n : nat) (f : nat -> C) :
  Csum (fun j => f (n - 1 - j)) n = Csum f n.
Proof.
  revert f. induction n as [| n IH]; intros f; [reflexivity |].
  rewrite (Csum_succ_l n f). cbn [Csum].
  replace (S n - 1 - n) with 0 by lia. f_equal.
  rewrite <- (IH (fun t => f (S t))). apply Csum_ext.
  intros j Hj. f_equal. lia.
Qed.

(** Only the term of index [s] is not zero. *)
Lemma Csum_single (n s : nat) (f : nat -> C) :
  s < n -> (forall t, t < n -> t <> s -> f t = C0) -> Csum f n = f s.
Proof.
  induction n as [| n IH]; intros Hs H; [lia |]. cbn [Csum].
  destruct (Nat.eq_dec s n) as [-> | Hne].
  - rewrite Csum_zero by (intros t Ht; apply H; lia).
    unfold Cadd, C0; cbn [fst snd]. destruct (f n). cbn [fst snd].
    f_equal; ring.
  - rewrite IH by (try lia; intros t Ht Hts; apply H; lia).
    rewrite (H n) by lia.
    unfold Cadd, C0; cbn [fst snd]. destruct (f s). cbn [fst snd].
    f_equal; ring.
Qed.

Lemma Cexp_neg (x : R) : Cexp (- x) = Cconj (Cexp x).
Proof. unfold Cexp, Cconj; cbn [fst snd]. rewrite cos_neg, sin_neg. reflexivity. Qed.

Lemma Cconj_involutive (z : C) : Cconj (Cconj z) = z.
Proof. destruct z. unfold Cconj; cbn [fst snd]. f_equal. ring. Qed.

Lemma Cconj_mul (z w : C) : Cconj (Cmul z w) = Cmul (Cconj z) (Cconj w).
Proof. unfold Cconj, Cmul; cbn [fst snd]. f_equal; ring. Qed.

Lemma angle_sym (n j t : nat) : angle n j t = angle n t j.
Proof. unfold angle. unfold Rdiv. ring. Qed.

Lemma roots_of_unity_sum_pos (n j : nat) :
  0 < j < n -> Csum (fun t => Cexp (angle n j t)) n = C0.
Proof.
  intros Hj.
  rewrite (Csum_ext n _ (fun t => Cconj (Cexp (- angle n j t)))).
  2:{ intros t _. rewrite Cexp_neg, Cconj_involutive. reflexivity. }
  rewrite Csum_conj, roots_of_unity_sum by exact Hj.
  unfold Cconj, C0; cbn [fst snd]. f_equal. ring.
Qed.

(** Orthogonality of the exponentials. *)
Lemma exponentials_orthogonal (n a b : nat) :
  a < n -> b < n ->
  Csum (fun t => Cmul (Cexp (- angle n a t)) (Cexp (angle n b t))) n
  = if a =? b then (INR n, 0)%R else C0.
Proof.
  intros Ha Hb.
  assert (Hn : (0 < INR n)%R) by (apply lt_0_INR; lia).
  destruct (a =? b) eqn:E.
  - apply Nat.eqb_eq in E. subst b.
    rewrite (Csum_ext n _ (fun _ => (1, 0)%R)).
    2:{ intros t _. rewrite <- Cexp_add.
        replace (- angle n a t + angle n a t)%R with 0%R by ring.
        apply Cexp_0. }
    rewrite Csum_const. unfold Cscale; cbn [fst snd]. f_equal; ring.
  - apply Nat.eqb_neq in E.
    destruct (Nat.lt_ge_cases a b) as [Hlt | Hge].
    + rewrite (Csum_ext n _ (fun t => Cexp (angle n (b - a) t))).
      2:{ intros t _. rewrite <- Cexp_add. f_equal. unfold angle.
          rewrite minus_INR by lia. field. lra. }
      apply roots_of_unity_sum_pos. lia.
    + rewrite (Csum_ext n _ (fun t => Cexp (- angle n (a - b) t))).
      2:{ intros t _. rewrite <- Cexp_add. f_equal. unfold angle.
          rewrite minus_INR by lia. field. lra. }
      apply roots_of_unity_sum. lia.
Qed.

(** The inverse transform of the transform of a series is the series. *)
Lemma idft_dft (n t : nat) (x : nat -> R) :
  t < n -> idft n (dft n x) t = (x t, 0)%R.
Proof.
  intros Ht.
  assert (Hn : (INR n <> 0)%R) by (apply not_0_INR; lia).
  unfold idft, dft.
  rewrite (Csum_ext n _
    (fun j => Csum (fun s => Cscale (x s)
       (Cmul (Cexp (- angle n s j)) (Cexp (angle n t j)))) n)).
  2:{ intros j _. rewrite <- Csum_mul_r. apply Csum_ext. intros s _.
      rewrite (angle_sym n j s), (angle_sym n j t).
      unfold Cscale, Cmul; cbn [fst snd]. f_equal; ring. }
  rewrite Csum_swap.
  rewrite (Csum_ext n _
    (fun s => Cscale (x s) (if s =? t then (INR n, 0)%R else C0))).
  2:{ intros s Hs. rewrite Csum_scale.
      rewrite (exponentials_orthogonal n s t Hs Ht). reflexivity. }
  rewrite (Csum_single n t) by
    (try exact Ht; intros s _ Hst; apply Nat.eqb_neq in Hst; rewrite Hst;
     unfold Cscale, C0; cbn [fst snd]; f_equal; ring).
  rewrite Nat.eqb_refl. unfold Cscale; cbn [fst snd]. f_equal; field; exact Hn.
Qed.

(** The transform of the inverse transform of a spectrum is the spectrum,
    when the inverse transform is real. *)
Lemma dft_idft (n j : nat) (X : nat -> C) :
  j < n -> (forall t, t < n -> snd (idft n X t) = 0%R) ->
  dft n (fun t => Re (idft n X t)) j = X j.
Proof.
  intros Hj Hreal.
  assert (Hn : (INR n <> 0)%R) by (apply not_0_INR; lia).
  unfold dft.
  rewrite (Csum_ext n _
    (fun t => Csum (fun k => Cscale (/ INR n)
       (Cmul (X k) (Cmul (Cexp (- angle n j t)) (Cexp (angle n k t))))) n)).
  2:{ intros t Ht. specialize (Hreal t Ht). unfold Re.
      rewrite Csum_scale.
      unfold idft in *. 
      rewrite (Csum_ext n (fun k => Cmul (X k) (Cmul _ _))
                 (fun k => Cmul (Cexp (- angle n j t))
                                (Cmul (X k) (Cexp (angle n k t)))))
        by (intros k _; unfold Cmul; cbn [fst snd]; f_equal; ring).
      rewrite Csum_mul_l.
      destruct (Csum (fun k => Cmul (X k) (Cexp (angle n k t))) n) as [u v].
      unfold Cscale, Cmul in *; cbn [fst snd] in *.
      assert (Hv : v = 0%R).
      { apply Rmult_integral in Hreal. destruct Hreal as [H | H]; [| exact H].
        exfalso. apply (Rinv_neq_0_compat (INR n) Hn). exact H. }
      subst v. f_equal; ring. }
  rewrite Csum_swap.
  rewrite (Csum_ext n _
    (fun k => Cscale (/ INR n)
       (Cmul (X k) (if j =? k then (INR n, 0)%R else C0)))).
  2:{ intros k Hk. rewrite Csum_scale. f_equal.
      rewrite Csum_mul_l. f_equal.
      exact (exponentials_orthogonal n j k Hj Hk). }
  rewrite (Csum_single n j) by
    (try exact Hj; intros k _ Hkj;
     assert (E : (j =? k) = false) by (apply Nat.eqb_neq; congruence);
     rewrite E; unfold Cscale, Cmul, C0; cbn [fst snd]; f_equal; ring).
  rewrite Nat.eqb_refl. destruct (X j) as [u v].
  unfold Cscale, Cmul; cbn [fst snd]. f_equal; field; exact Hn.
Qed.

(** ** The filtered signal is real *)

Lemma angle_0_l (n t : nat) : angle n 0 t = 0%R.
Proof. unfold angle. change (INR 0) with 0%R. unfold Rdiv. ring. Qed.

Lemma Cexp_angle_mirror (n k t : nat) :
  1 <= n -> k <= n ->
  Cexp (angle n (n - k) t) = Cconj (Cexp (angle n k t)).
Proof.
  intros Hn Hk.
  assert (Hn0 : (INR n <> 0)%R) by (apply not_0_INR; lia).
  rewrite <- Cexp_neg. unfold Cexp.
  replace (angle n (n - k) t) with (- angle n k t + 2 * INR t * PI)%R.
  - rewrite cos_period, sin_period. reflexivity.
  - unfold angle. rewrite minus_INR by exact Hk. field. exact Hn0.
Qed.

(** The inverse transform of a conjugate-symmetric spectrum is real. *)
Lemma idft_real (n t : nat) (X : nat -> C) :
  snd (X 0) = 0%R ->
  (forall j, 1 <= j < n -> X (n - j) = Cconj (X j)) ->
  snd (idft n X t) = 0%R.
Proof.
  intros H0 Hsym. unfold idft.
  destruct n as [| m].
  - cbn [Csum]. unfold Cscale, C0. cbn [fst snd]. ring.
  - set (h := fun j => Cmul (X j) (Cexp (angle (S m) j t))).
    rewrite (Csum_succ_l m h).
    assert (Hh0 : snd (h 0) = 0%R).
    { unfold h. rewrite angle_0_l, Cexp_0. unfold Cmul; cbn [fst snd]. rewrite H0. ring. }
    assert (Hg : Csum (fun j => h (S j)) m
                 = Cconj (Csum (fun j => h (S j)) m)).
    { rewrite <- Csum_conj.
      rewrite <- (Csum_rev m (fun j => h (S j))).
      apply Csum_ext. intros j Hj. unfold h.
      replace (S (m - 1 - j)) with (S m - S j) by lia.
      rewrite (Hsym (S j)) by lia.
      rewrite Cexp_angle_mirror by lia.
      symmetry. apply Cconj_mul. }
    destruct (Csum (fun j => h (S j)) m) as [u v].
    unfold Cconj in Hg; cbn [fst snd] in Hg. injection Hg as Hv.
    unfold Cscale, Cadd; cbn [fst snd]. rewrite Hh0.
    assert (v = 0%R) by lra. subst v. ring.
Qed.

(** The transform of a real series is conjugate-symmetric. *)
Lemma dft_conj_symmetric (n j : nat) (x : nat -> R) :
  1 <= j < n -> dft n x (n - j) = Cconj (dft n x j).
Proof.
  intros Hj. unfold dft. rewrite <- Csum_conj. apply Csum_ext.
  intros t _. rewrite !Cexp_neg, Cexp_angle_mirror by lia.
  unfold Cscale, Cconj; cbn [fst snd]. f_equal; ring.
Qed.

Lemma dft_dc_real (n : nat) (x : nat -> R) : snd (dft n x 0) = 0%R.
Proof.
  unfold dft.
  rewrite (Csum_ext n _ (fun t => (x t, 0)%R)).
  - induction n as [| n IH]; cbn [Csum]; [reflexivity |].
    unfold Cadd; cbn [fst snd]. rewrite IH. ring.
  - intros t _. rewrite angle_0_l, Ropp_0, Cexp_0.
    unfold Cscale; cbn [fst snd]. f_equal; ring.
Qed.

(** ** The mask of [temporal_bandpass_filter] *)

(** The absolute frequency of bin [j], whatever the sign of the step. *)
Lemma abs_bin (n j : nat) (val : R) :
  j < n ->
  Rabs (IZR (if j <? (n - 1) / 2 + 1 then Z.of_nat j
             else Z.of_nat j - Z.of_nat n) * val)
  = (INR (Nat.min j (n - j)) * Rabs val)%R.
Proof.
  intros Hj. rewrite Rabs_mult. f_equal.
  pose proof (Nat.div_mod_eq (n - 1) 2).
  pose proof (Nat.mod_upper_bound (n - 1) 2).
  destruct (j <? (n - 1) / 2 + 1) eqn:E.
  - apply Nat.ltb_lt in E. rewrite Nat.min_l by lia.
    rewrite <- INR_IZR_INZ. apply Rabs_pos_eq, pos_INR.
  - apply Nat.ltb_ge in E. rewrite Nat.min_r by lia.
    replace (Z.of_nat j - Z.of_nat n)%Z with (- Z.of_nat (n - j))%Z by lia.
    rewrite opp_IZR, Rabs_Ropp, <- INR_IZR_INZ. apply Rabs_pos_eq, pos_INR.
Qed.

(** What the mask is at bin [j]. *)
Lemma band_mask_nth_abs (n j : nat) (fps low_freq high_freq : R)
    (freqs : list R) :
  j < n -> fps <> 0%R ->
  fftfreq n (1 / fps) = Ok freqs ->
  nth j (band_mask freqs low_freq high_freq) false
  = spec_in_band low_freq high_freq
      (INR (Nat.min j (n - j)) * Rabs (1 / (INR n * (1 / fps))))%R.
Proof.
  intros Hj Hfps Hf.
  assert (Hd : (1 / fps)%R <> 0%R).
  { unfold Rdiv. rewrite Rmult_1_l. apply Rinv_neq_0_compat. exact Hfps. }
  destruct (fftfreq_Ok n (1 / fps)) as (freqs' & Hf' & Hlen & Hnth);
    [lia | exact Hd |].
  assert (freqs' = freqs) by congruence. subst freqs'.
  apply nth_error_nth. unfold band_mask.
  rewrite nth_error_map, (Hnth j Hj). cbn [option_map].
  rewrite abs_bin by exact Hj. reflexivity.
Qed.

Lemma band_mask_symmetric (n j : nat) (fps low_freq high_freq : R)
    (freqs : list R) :
  1 <= j < n -> fps <> 0%R ->
  fftfreq n (1 / fps) = Ok freqs ->
  nth (n - j) (band_mask freqs low_freq high_freq) false
  = nth j (band_mask freqs low_freq high_freq) false.
Proof.
  intros Hj Hfps Hf.
  rewrite (band_mask_nth_abs n (n - j) fps low_freq high_freq freqs)
    by (auto; lia).
  rewrite (band_mask_nth_abs n j fps low_freq high_freq freqs)
    by (auto; lia).
  replace (n - (n - j)) with j by lia.
  rewrite Nat.min_comm. reflexivity.
Qed.

(** The masked spectrum of a real series has a real inverse transform. *)
Lemma masked_idft_real (n t : nat) (fps low_freq high_freq : R)
    (freqs : list R) (x : nat -> R) :
  fps <> 0%R -> fftfreq n (1 / fps) = Ok freqs ->
  snd (idft n (fun j => if nth j (band_mask freqs low_freq high_freq) false
                        then dft n x j else C0) t) = 0%R.
Proof.
  intros Hfps Hf. apply idft_real.
  - destruct (nth 0 _ false); [apply dft_dc_real | reflexivity].
  - intros j Hj.
    rewrite (band_mask_symmetric n j fps low_freq high_freq freqs Hj Hfps Hf).
    destruct (nth j _ false).
    + apply dft_conj_symmetric. exact Hj.
    + unfold Cconj, C0; cbn [fst snd]. f_equal. ring.
Qed.

(** ** More on the band-pass filter *)

Lemma spec_in_band_iff (low high f : R) :
  spec_in_band low high f = true <-> (low <= f <= high)%R.
Proof.
  unfold spec_in_band. rewrite andb_true_iff, !Rleb_true. reflexivity.
Qed.

Lemma spec_in_band_inter (low1 high1 low2 high2 f : R) :
  spec_in_band (Rmax low1 low2) (Rmin high1 high2) f
  = spec_in_band low1 high1 f && spec_in_band low2 high2 f.
Proof.
  apply eq_true_iff_eq.
  rewrite andb_true_iff, !spec_in_band_iff.
  split.
  - intros [H1 H2].
    pose proof (Rmax_l low1 low2). pose proof (Rmax_r low1 low2).
    pose proof (Rmin_l high1 high2). pose proof (Rmin_r high1 high2).
    lra.
  - intros [[H1 H2] [H3 H4]]. split.
    + apply Rmax_lub; assumption.
    + apply Rmin_glb; assumption.
Qed.

(** A spectrum that is zero in every bin gives the all-zero volume. *)
Lemma bandpass_zero_spectrum (V : Volume R) (fps low_freq high_freq : R) :
  1 <= nframes V -> fps <> 0%R ->
  (forall freqs j r c k,
     fftfreq (nframes V) (1 / fps) = Ok freqs -> j < nframes V ->
     (if nth j (band_mask freqs low_freq high_freq) false
      then dft (nframes V) (fun t => vox V t r c k) j else C0) = C0) ->
  temporal_bandpass_filter V fps low_freq high_freq = Ok (zeros_like V).
Proof.
  intros Hn Hfps Hzero.
  destruct (temporal_bandpass_filter_Ok V fps low_freq high_freq Hn Hfps)
    as (freqs & Hf & Hout).
  rewrite Hout. unfold zeros_like. do 2 f_equal.
  extensionality t; extensionality r; extensionality c; extensionality k.
  rewrite (idft_ext _ _ (fun _ => C0)).
  - rewrite idft_zero. reflexivity.
  - intros j Hj. exact (Hzero freqs j r c k Hf Hj).
Qed.

Lemma bandpass_no_bin (V : Volume R) (fps low_freq high_freq : R) :
  1 <= nframes V -> fps <> 0%R -> (high_freq < low_freq)%R ->
  temporal_bandpass_filter V fps low_freq high_freq = Ok (zeros_like V).
Proof.
  intros Hn Hfps Hband. apply bandpass_zero_spectrum; auto.
  intros freqs j r c k Hf Hj.
  rewrite (band_mask_nth_abs (nframes V) j fps low_freq high_freq freqs
             Hj Hfps Hf).
  replace (spec_in_band low_freq high_freq _) with false; [reflexivity |].
  symmetry. apply not_true_is_false. rewrite spec_in_band_iff. lra.
Qed.

(** X1.  When [low_freq > high_freq] no bin passes the mask: the filter
    returns the all-zero volume of the shape of its input. *)
Theorem bandpass_empty_band (V : Volume R) (fps low_freq high_freq : R) :
  1 <= nframes V -> fps <> 0%R -> (high_freq < low_freq)%R ->
  temporal_bandpass_filter V fps low_freq high_freq = Ok (zeros_like V).
Proof. exact (bandpass_no_bin V fps low_freq high_freq). Qed.

(** A volume constant in time has no component above frequency 0. *)
Lemma bandpass_constant_zero (V : Volume R) (fps low_freq high_freq : R) :
  1 <= nframes V -> fps <> 0%R -> (0 < low_freq)%R ->
  (forall t r c k, t < nframes V -> vox V t r c k = vox V 0 r c k) ->
  temporal_bandpass_filter V fps low_freq high_freq = Ok (zeros_like V).
Proof.
  intros Hn Hfps Hlow Hconst. apply bandpass_zero_spectrum; auto.
  intros freqs j r c k Hf Hj.
  rewrite (dft_constant (nframes V) j (fun t' => vox V t' r c k))
    by (auto; intros t' Ht'; apply Hconst; exact Ht').
  destruct (j =? 0) eqn:E; [| destruct (nth j _ false); reflexivity].
  apply Nat.eqb_eq in E. subst j.
  rewrite (band_mask_dc (nframes V) fps low_freq high_freq freqs Hn Hfps Hf).
  replace (Rleb low_freq 0) with false; [reflexivity |].
  symmetry. apply not_true_is_false. rewrite Rleb_true. lra.
Qed.

(** With exact frequencies every bin lies between 0 and [fps / 2]. *)
Lemma spec_all_in_band (n j : nat) (fps low high : R) :
  j < n -> (0 < fps)%R -> (low <= 0)%R -> (fps / 2 <= high)%R ->
  spec_in_band low high (spec_abs_frequency n fps j) = true.
Proof.
  intros Hj Hfps Hlow Hhigh.
  apply spec_in_band_iff. unfold spec_abs_frequency.
  assert (Hn0 : (0 < INR n)%R) by (apply lt_0_INR; lia).
  assert (Hm0 : (0 <= INR (Nat.min j (n - j)))%R) by apply pos_INR.
  assert (Hm : (2 * INR (Nat.min j (n - j)) <= INR n)%R).
  { replace 2%R with (INR 2) by reflexivity.
    rewrite <- mult_INR. apply le_INR. lia. }
  split.
  - apply Rle_trans with 0%R; [exact Hlow |].
    apply Rmult_le_pos; [apply Rmult_le_pos; lra |].
    apply Rlt_le, Rinv_0_lt_compat. exact Hn0.
  - apply Rle_trans with (fps / 2)%R; [| exact Hhigh].
    apply (Rmult_le_reg_r (INR n)); [exact Hn0 |].
    unfold Rdiv. rewrite Rmult_assoc, Rinv_l by lra. nra.
Qed.

(** X2.  When the frequency of every bin, as float64 arithmetic computes
    it, lies in the band, the filter returns its input: the inverse
    transform inverts the transform.  ([low_freq <= 0] and
    [high_freq >= fps / 2] is not enough: rounding can put the computed
    frequency of the Nyquist bin just above [fps / 2].) *)
Theorem bandpass_all_pass (V : Volume R) (fps low_freq high_freq : float) :
  1 <= nframes V -> (fps =? 0)%float = false ->
  (f64_of_Z (Z.of_nat (nframes V)) * (1 / fps) =? 0)%float = false ->
  (forall j, j < nframes V ->
     f64_in_band low_freq high_freq (f64_bin_frequency (nframes V) fps j)
     = true) ->
  exists out,
    temporal_bandpass_filter_f64 V fps low_freq high_freq = Ok out /\
    vshape out = vshape V /\
    forall t r c k, t < nframes V -> vox out t r c k = vox V t r c k.
Proof.
  intros Hn Hfps Hnd Hall.
  eexists. split.
  { exact (temporal_bandpass_filter_f64_Ok V fps low_freq high_freq
             Hn Hfps Hnd). }
  split; [reflexivity |].
  intros t r c k Ht. cbn [vox].
  rewrite (idft_ext _ _ (dft (nframes V) (fun t' => vox V t' r c k))).
  - rewrite idft_dft by exact Ht. reflexivity.
  - intros j Hj. rewrite (Hall j Hj). reflexivity.
Qed.

(** X3.  The array of which [temporal_bandpass_filter] returns the real
    part has no imaginary part: the mask keeps or drops the bins [j] and
    [n - j] together, so taking [.real] discards nothing. *)
Theorem bandpass_discards_nothing (data : Volume R)
    (fps low_freq high_freq : R) :
  1 <= nframes data -> fps <> 0%R ->
  exists fft_data frequencies filtered_data,
    fft data = Ok fft_data /\
    fftfreq (nframes data) (1 / fps) = Ok frequencies /\
    ifft (zero_outside (band_mask frequencies low_freq high_freq) fft_data)
    = Ok filtered_data /\
    temporal_bandpass_filter data fps low_freq high_freq
    = Ok (real filtered_data) /\
    forall t r c k, snd (vox filtered_data t r c k) = 0%R.
Proof.
  intros Hn Hfps.
  destruct (temporal_bandpass_filter_Ok data fps low_freq high_freq Hn Hfps)
    as (freqs & Hf & Hout).
  assert (E : (nframes data =? 0) = false) by (apply Nat.eqb_neq; lia).
  unfold fft, ifft. cbn [zero_outside nframes]. rewrite E.
  do 3 eexists. split; [reflexivity |]. split; [exact Hf |].
  cbn [nframes]. rewrite E. split; [reflexivity |].
  split; [exact Hout |].
  intros t r c k. cbn [vox vrows vcols vchans].
  exact (masked_idft_real (nframes data) t fps low_freq high_freq freqs
           (fun t' => vox data t' r c k) Hfps Hf).
Qed.

Lemma bandpass_twice (V : Volume R)
    (fps low1 high1 low2 high2 : R) :
  1 <= nframes V -> fps <> 0%R ->
  exists out1,
    temporal_bandpass_filter V fps low1 high1 = Ok out1 /\
    temporal_bandpass_filter out1 fps low2 high2
    = temporal_bandpass_filter V fps (Rmax low1 low2) (Rmin high1 high2).
Proof.
  intros Hn Hfps.
  destruct (temporal_bandpass_filter_Ok V fps low1 high1 Hn Hfps)
    as (freqs & Hf & Hout1).
  eexists; split; [exact Hout1 |].
  match goal with
  | |- temporal_bandpass_filter ?o _ _ _ = _ => set (out1 := o)
  end.
  destruct (temporal_bandpass_filter_Ok out1 fps low2 high2 Hn Hfps)
    as (freqs2 & Hf2 & Hout2).
  destruct (temporal_bandpass_filter_Ok V fps (Rmax low1 low2)
              (Rmin high1 high2) Hn Hfps)
    as (freqs3 & Hf3 & Hout3).
  change (nframes out1) with (nframes V) in Hf2.
  assert (freqs2 = freqs) by congruence.
  assert (freqs3 = freqs) by congruence. subst freqs2 freqs3.
  rewrite Hout2, Hout3. do 2 f_equal.
  extensionality t; extensionality r; extensionality c; extensionality k.
  f_equal. apply idft_ext. intros j Hj.
  change (nframes out1) with (nframes V) in *.
  rewrite (band_mask_nth_abs (nframes V) j fps low2 high2 freqs Hj Hfps Hf).
  rewrite (band_mask_nth_abs (nframes V) j fps (Rmax low1 low2)
             (Rmin high1 high2) freqs Hj Hfps Hf).
  rewrite spec_in_band_inter.
  rewrite <- (band_mask_nth_abs (nframes V) j fps low1 high1 freqs Hj Hfps Hf).
  rewrite <- (band_mask_nth_abs (nframes V) j fps low2 high2 freqs Hj Hfps Hf).
  unfold out1. cbn [vox].
  rewrite (dft_idft (nframes V) j) by
    (try exact Hj; intros t' _;
     apply (masked_idft_real (nframes V) t' fps low1 high1 freqs); assumption).
  destruct (nth j (band_mask freqs low1 high1) false);
    destruct (nth j (band_mask freqs low2 high2) false); reflexivity.
Qed.

(** X4.  Filtering twice is filtering once with the intersection of the
    two bands. *)
Theorem bandpass_compose (V : Volume R) (fps low1 high1 low2 high2 : R) :
  1 <= nframes V -> fps <> 0%R ->
  exists out1,
    temporal_bandpass_filter V fps low1 high1 = Ok out1 /\
    temporal_bandpass_filter out1 fps low2 high2
    = temporal_bandpass_filter V fps (Rmax low1 low2) (Rmin high1 high2).
Proof. exact (bandpass_twice V fps low1 high1 low2 high2). Qed.

(** X5.  The filter is idempotent: a filtered volume filtered again with
    the same band comes back unchanged. *)
Theorem bandpass_idempotent (V : Volume R) (fps low_freq high_freq : R) :
  1 <= nframes V -> fps <> 0%R ->
  exists out,
    temporal_bandpass_filter V fps low_freq high_freq = Ok out /\
    temporal_bandpass_filter out fps low_freq high_freq = Ok out.
Proof.
  intros Hn Hfps.
  destruct (bandpass_twice V fps low_freq high_freq low_freq high_freq
              Hn Hfps) as (out & Hout & Hagain).
  exists out. split; [exact Hout |].
  rewrite Hagain.
  rewrite (Rmax_left low_freq low_freq), (Rmin_left high_freq high_freq)
    by lra.
  exact Hout.
Qed.

(** ** The filter is additive and acts on the temporal mean as on a constant *)

Lemma Re_Csum (n : nat) (f : nat -> C) :
  Re (Csum f n) = Rsum (fun t => Re (f t)) n.
Proof.
  induction n as [| n IH]; [reflexivity |].
  cbn [Csum Rsum]. rewrite <- IH. reflexivity.
Qed.

Lemma dft_add (n j : nat) (x y : nat -> R) :
  dft n (fun t => (x t + y t)%R) j = Cadd (dft n x j) (dft n y j).
Proof.
  unfold dft. rewrite <- Csum_add. apply Csum_ext.
  intros t _. unfold Cscale, Cadd; cbn [fst snd]. f_equal; ring.
Qed.

Lemma idft_add (n t : nat) (X Y : nat -> C) :
  idft n (fun j => Cadd (X j) (Y j)) t = Cadd (idft n X t) (idft n Y t).
Proof.
  unfold idft.
  rewrite (Csum_ext n _ (fun j => Cadd (Cmul (X j) (Cexp (angle n j t)))
                                       (Cmul (Y j) (Cexp (angle n j t))))).
  2:{ intros j _. unfold Cmul, Cadd; cbn [fst snd]. f_equal; ring. }
  rewrite Csum_add. unfold Cscale, Cadd; cbn [fst snd]. f_equal; ring.
Qed.

(** The inverse transform sums to the zero-frequency coefficient. *)
Lemma idft_sum (n : nat) (X : nat -> C) :
  1 <= n -> Csum (fun t => idft n X t) n = X 0.
Proof.
  intros Hn.
  assert (Hn0 : (INR n <> 0)%R) by (apply not_0_INR; lia).
  unfold idft. rewrite Csum_scale.
  rewrite (Csum_swap n n (fun t j => Cmul (X j) (Cexp (angle n j t)))).
  rewrite (Csum_ext n _ (fun j => if j =? 0 then Cscale (INR n) (X 0) else C0)).
  - rewrite Csum_first; [| exact Hn |].
    + cbn [Nat.eqb]. unfold Cscale; cbn [fst snd]. destruct (X 0) as [a b].
      cbn [fst snd]. f_equal; field; exact Hn0.
    + intros j Hj. destruct j; [lia | reflexivity].
  - intros j Hj. rewrite Csum_mul_l. destruct j as [| j].
    + cbn [Nat.eqb].
      rewrite (Csum_ext n _ (fun _ => (1, 0)%R)).
      2:{ intros t _. rewrite angle_0_l. apply Cexp_0. }
      rewrite Csum_const. unfold Cmul, Cscale; cbn [fst snd].
      destruct (X 0) as [a b]. cbn [fst snd]. f_equal; ring.
    + cbn [Nat.eqb]. rewrite roots_of_unity_sum_pos by lia.
      unfold Cmul, C0; cbn [fst snd]. f_equal; ring.
Qed.

Lemma Rsum_ext (n : nat) (f g : nat -> R) :
  (forall t, t < n -> f t = g t) -> Rsum f n = Rsum g n.
Proof.
  induction n as [| n IH]; intros H; [reflexivity |].
  cbn [Rsum]. rewrite IH, (H n) by auto with arith. reflexivity.
Qed.

Lemma dft_dc (n : nat) (x : nat -> R) : Re (dft n x 0) = Rsum x n.
Proof.
  unfold dft. rewrite Re_Csum. apply Rsum_ext.
  intros t _. rewrite angle_0_l, Ropp_0, Cexp_0.
  unfold Re, Cscale; cbn [fst]. ring.
Qed.

(** X6.  The filter is additive: when a volume is the sum of two volumes
    of its shape, its filtered volume is the sum of their filtered
    volumes. *)
Theorem bandpass_additive (V1 V2 V : Volume R) (fps low_freq high_freq : R) :
  1 <= nframes V -> fps <> 0%R ->
  vshape V1 = vshape V -> vshape V2 = vshape V ->
  (forall t r c k, t < nframes V ->
     vox V t r c k = (vox V1 t r c k + vox V2 t r c k)%R) ->
  exists out1 out2 out,
    temporal_bandpass_filter V1 fps low_freq high_freq = Ok out1 /\
    temporal_bandpass_filter V2 fps low_freq high_freq = Ok out2 /\
    temporal_bandpass_filter V fps low_freq high_freq = Ok out /\
    vshape out = vshape V /\
    forall t r c k,
      vox out t r c k = (vox out1 t r c k + vox out2 t r c k)%R.
Proof.
  intros Hn Hfps H1 H2 Hsum.
  unfold vshape in H1, H2.
  injection H1 as Hn1 Hr1 Hc1 Hk1. injection H2 as Hn2 Hr2 Hc2 Hk2.
  destruct (temporal_bandpass_filter_Ok V fps low_freq high_freq Hn Hfps)
    as (freqs & Hf & HV).
  destruct (temporal_bandpass_filter_Ok V1 fps low_freq high_freq)
    as (freqs1 & Hf1 & HV1); [lia | exact Hfps |].
  destruct (temporal_bandpass_filter_Ok V2 fps low_freq high_freq)
    as (freqs2 & Hf2 & HV2); [lia | exact Hfps |].
  rewrite Hn1 in Hf1, HV1. rewrite Hn2 in Hf2, HV2.
  assert (E1 : freqs1 = freqs) by congruence.
  assert (E2 : freqs2 = freqs) by congruence.
  rewrite E1 in HV1. rewrite E2 in HV2.
  eexists. eexists. eexists.
  split; [exact HV1 |]. split; [exact HV2 |]. split; [exact HV |].
  split; [reflexivity |].
  intros t r c k. cbn [vox].
  set (m := band_mask freqs low_freq high_freq).
  rewrite (idft_ext (nframes V) _
             (fun j => Cadd
                (if nth j m false
                 then dft (nframes V) (fun t' => vox V1 t' r c k) j else C0)
                (if nth j m false
                 then dft (nframes V) (fun t' => vox V2 t' r c k) j else C0))).
  - rewrite idft_add. reflexivity.
  - intros j Hj. destruct (nth j m false).
    + rewrite <- dft_add. unfold dft. apply Csum_ext.
      intros t' Ht'. rewrite (Hsum t' r c k Ht'). reflexivity.
    + unfold Cadd, C0; cbn [fst snd]. f_equal; ring.
Qed.

(** X7.  The filter treats the temporal sum (and so the temporal mean) of
    every pixel as it treats a constant: the filtered series sums to the sum
    of the input when the band contains the frequency zero, and to zero
    otherwise. *)
Theorem bandpass_temporal_sum (V : Volume R) (fps low_freq high_freq : R) :
  1 <= nframes V -> fps <> 0%R ->
  exists out,
    temporal_bandpass_filter V fps low_freq high_freq = Ok out /\
    forall r c k,
      temporal_sum out r c k
      = if Rleb low_freq 0 && Rleb 0 high_freq
        then temporal_sum V r c k else 0%R.
Proof.
  intros Hn Hfps.
  destruct (temporal_bandpass_filter_Ok V fps low_freq high_freq Hn Hfps)
    as (freqs & Hf & HV).
  eexists. split; [exact HV |].
  intros r c k. unfold temporal_sum. cbn [nframes vox].
  rewrite <- Re_Csum, idft_sum by exact Hn.
  rewrite (band_mask_dc (nframes V) fps low_freq high_freq freqs Hn Hfps Hf).
  destruct (Rleb low_freq 0 && Rleb 0 high_freq).
  - apply dft_dc.
  - reflexivity.
Qed.

(** ** The Nyquist bin *)

Lemma cos_sin_nat_PI (t : nat) :
  cos (INR t * PI) = ((-1) ^ t)%R /\ sin (INR t * PI) = 0%R.
Proof.
  induction t as [| t [IHc IHs]].
  - cbn [INR pow]. rewrite Rmult_0_l, cos_0, sin_0. split; reflexivity.
  - rewrite S_INR.
    replace ((INR t + 1) * PI)%R with (INR t * PI + PI)%R by ring.
    rewrite cos_plus, sin_plus, IHc, IHs, cos_PI, sin_PI.
    cbn [pow]. split; ring.
Qed.

(** With an even number of samples [2 * m], bin [m] turns by half a turn
    per sample. *)
Lemma angle_nyquist (m t : nat) :
  1 <= m -> angle (2 * m) m t = (INR t * PI)%R.
Proof.
  intros Hm. unfold angle. rewrite mult_INR.
  assert (Hm0 : (INR m <> 0)%R) by (apply not_0_INR; lia).
  replace (INR 2) with 2%R by reflexivity. field. exact Hm0.
Qed.

Lemma dft_nyquist (m : nat) (x : nat -> R) :
  1 <= m ->
  dft (2 * m) x m = (Rsum (fun t => (x t * (-1) ^ t)%R) (2 * m), 0%R).
Proof.
  intros Hm. unfold dft.
  rewrite (Csum_ext (2 * m) _ (fun t => ((x t * (-1) ^ t)%R, 0%R))).
  - generalize (2 * m). intros n. induction n as [| n IH]; [reflexivity |].
    cbn [Csum Rsum]. rewrite IH. unfold Cadd; cbn [fst snd].
    f_equal; ring.
  - intros t _. rewrite (angle_nyquist m t Hm).
    destruct (cos_sin_nat_PI t) as [Hc Hs].
    unfold Cscale, Cexp; cbn [fst snd].
    rewrite cos_neg, sin_neg, Hc, Hs. f_equal; ring.
Qed.

(** The inverse transform of a spectrum with one bin dropped. *)
Lemma idft_without_bin (n s t : nat) (x : nat -> R) :
  s < n -> t < n ->
  Re (idft n (fun j => if j =? s then C0 else dft n x j) t)
  = (x t - Re (Cscale (/ INR n) (Cmul (dft n x s) (Cexp (angle n s t)))))%R.
Proof.
  intros Hs Ht.
  assert (E : idft n (dft n x) t
              = Cadd (idft n (fun j => if j =? s then C0 else dft n x j) t)
                     (idft n (fun j => if j =? s then dft n x s else C0) t)).
  { rewrite <- idft_add. apply idft_ext. intros j _.
    destruct (j =? s) eqn:Ej.
    - apply Nat.eqb_eq in Ej. subst j.
      unfold Cadd, C0; cbn [fst snd]. destruct (dft n x s).
      cbn [fst snd]. f_equal; ring.
    - unfold Cadd, C0; cbn [fst snd]. destruct (dft n x j).
      cbn [fst snd]. f_equal; ring. }
  rewrite idft_dft in E by exact Ht.
  assert (Espike : idft n (fun j => if j =? s then dft n x s else C0) t
                   = Cscale (/ INR n) (Cmul (dft n x s) (Cexp (angle n s t)))).
  { unfold idft. f_equal.
    rewrite (Csum_single n s) by
      (try exact Hs; intros j _ Hjs; apply Nat.eqb_neq in Hjs; rewrite Hjs;
       unfold Cmul, C0; cbn [fst snd]; f_equal; ring).
    rewrite Nat.eqb_refl. reflexivity. }
  rewrite Espike in E.
  apply (f_equal Re) in E. unfold Re, Cadd in E. cbn [fst] in E.
  unfold Re. lra.
Qed.

(** ** The assembled volumes hold the pyramids of the frames *)

(** Reconstruction undoes the construction of the pyramid. *)
Lemma reconstruct_build_laplacian (F : Frame) (levels : Z) (lp : list Frame) :
  is_empty F = false ->
  build_laplacian_pyramid F levels = Ok lp ->
  reconstruct_from_laplacian_pyramid lp = Ok F.
Proof.
  intros He Hbuild.
  destruct (build_laplacian_pyramid_Ok F levels He)
    as (rest & ls & _ & Hlp & Hlen & Hlenls & _ & Hdet).
  rewrite Hlp in Hbuild. injection Hbuild as <-.
  unfold reconstruct_from_laplacian_pyramid.
  rewrite index_last_app. cbn [bind].
  rewrite length_app, Nat.add_sub.
  apply (reconstruct_loop_details (F :: rest) ls (last rest F) Hdet);
    [lia | | reflexivity].
  rewrite Hlenls. apply nth_error_length_last.
Qed.

Lemma frame_at_eta (f : Frame) :
  mkFrame (rows f) (cols f) (chans f) (pix f) = f.
Proof. destruct f. reflexivity. Qed.

(** Storing a level of the shape of the slot: slot [i] holds the level, the
    other slots are as before. *)
Lemma store_level_content (vol : Volume R) (i : nat) (f : Frame) :
  i < nframes vol -> shape f = shape (frame_at vol 0) ->
  exists vol',
    store_level vol i f = Ok vol' /\ nframes vol' = nframes vol /\
    shape (frame_at vol' 0) = shape (frame_at vol 0) /\
    frame_at vol' i = f /\
    forall t, t <> i -> frame_at vol' t = frame_at vol t.
Proof.
  intros Hi Hsh. unfold store_level. rewrite (frame_of_Ok vol i Hi).
  cbn [bind].
  change (shape (frame_at vol i)) with (shape (frame_at vol 0)).
  rewrite Hsh, shape_eqb_refl. unfold set_frame.
  apply Nat.ltb_lt in Hi. rewrite Hi. cbn [negb].
  change (shape (frame_at vol i)) with (shape (frame_at vol 0)).
  rewrite Hsh, shape_eqb_refl.
  eexists; split; [reflexivity |]. split; [reflexivity |].
  split; [reflexivity |]. split.
  - unfold frame_at. cbn [vrows vcols vchans vox]. rewrite Nat.eqb_refl.
    unfold shape, frame_at in Hsh. cbn [rows cols chans] in Hsh.
    injection Hsh as Hr Hc Hk. rewrite <- Hr, <- Hc, <- Hk.
    apply frame_at_eta.
  - intros t Ht. unfold frame_at. cbn [vrows vcols vchans vox].
    apply Nat.eqb_neq in Ht. rewrite Ht. reflexivity.
Qed.

Lemma store_levels_content (sh : nat * nat * nat) (n N i : nat)
    (lap : list Frame) :
  i < N ->
  forall (pvt : list (Volume R)) (level_idx : nat),
    volumes_shaped sh n N pvt ->
    (forall j f, nth_error lap j = Some f ->
       level_idx + j <= n /\
       shape f = Nat.iter (level_idx + j) half_shape sh) ->
    exists pvt',
      store_levels pvt i level_idx lap = Ok pvt' /\
      volumes_shaped sh n N pvt' /\
      forall k V', nth_error pvt' k = Some V' ->
        exists V,
          nth_error pvt k = Some V /\
          (forall t, t <> i -> frame_at V' t = frame_at V t) /\
          (k < level_idx -> frame_at V' i = frame_at V i) /\
          (forall f, level_idx <= k ->
                     nth_error lap (k - level_idx) = Some f ->
                     frame_at V' i = f).
Proof.
  intros Hi. induction lap as [| f rest IH]; intros pvt level_idx Hpvt Hlap.
  - exists pvt. split; [reflexivity |]. split; [exact Hpvt |].
    intros k V HV. exists V. split; [exact HV |].
    split; [reflexivity |]. split; [reflexivity |].
    intros g _ Hg. destruct (k - level_idx); discriminate.
  - destruct Hpvt as [Hlen Hvol].
    destruct (Hlap 0 f eq_refl) as [Hidx Hf]. rewrite Nat.add_0_r in Hidx, Hf.
    destruct (nth_error pvt level_idx) as [vol |] eqn:Evol;
      [| apply nth_error_None in Evol; lia].
    destruct (Hvol level_idx vol Evol) as [HN Hsh].
    destruct (store_level_content vol i f)
      as (vol' & Hst & HN' & Hsh' & Hslot & Hother); [lia | congruence |].
    destruct (IH (list_set pvt level_idx vol') (S level_idx))
      as (pvt' & Hrest & Hshaped & Hcontent).
    + split; [rewrite length_list_set; exact Hlen |].
      intros m V HV.
      destruct (Nat.eq_dec m level_idx) as [-> | Hne].
      * rewrite nth_error_list_set_eq in HV by lia.
        injection HV as <-. split; congruence.
      * rewrite nth_error_list_set_ne in HV by exact Hne.
        exact (Hvol m V HV).
    + intros j g Hg. rewrite Nat.add_succ_comm. exact (Hlap (S j) g Hg).
    + exists pvt'. split; [| split; [exact Hshaped |]].
      { cbn [store_levels]. unfold index. rewrite Evol. cbn [bind].
        rewrite Hst. cbn [bind]. exact Hrest. }
      intros k V' HV'.
      destruct (Hcontent k V' HV') as (V1 & HV1 & Ht & Hlow & Hhigh).
      destruct (Nat.eq_dec k level_idx) as [-> | Hne].
      * rewrite nth_error_list_set_eq in HV1 by lia.
        injection HV1 as <-. exists vol. split; [exact Evol |].
        split; [intros t Hti; rewrite (Ht t Hti); apply Hother; exact Hti |].
        split; [intros; lia |].
        intros g _ Hg. rewrite Nat.sub_diag in Hg. injection Hg as <-.
        rewrite Hlow by lia. exact Hslot.
      * rewrite nth_error_list_set_ne in HV1 by exact Hne.
        exists V1. split; [exact HV1 |]. split; [exact Ht |].
        split; [intros Hk; apply Hlow; lia |].
        intros g Hk Hg. apply Hhigh; [lia |].
        replace (k - level_idx) with (S (k - S level_idx)) in Hg by lia.
        exact Hg.
Qed.

Lemma map_eq_nth {A B : Type} (g : A -> B) (l : list A) (l' : list B) :
  length l = length l' ->
  (forall k a b, nth_error l k = Some a -> nth_error l' k = Some b -> g a = b) ->
  map g l = l'.
Proof.
  revert l'. induction l as [| a l IH]; intros [| b l'] Hlen H;
    try discriminate; [reflexivity |].
  cbn [map]. f_equal.
  - exact (H 0 a b eq_refl eq_refl).
  - apply IH; [simpl in Hlen; lia |].
    intros k x y Hx Hy. exact (H (S k) x y Hx Hy).
Qed.

(** Step 2 on frames of one non-empty shape: slot [i] of the volume of
    level [k] holds level [k] of the pyramid of frame [i]. *)
Lemma assemble_loop_content (sh : nat * nat * nat) (N : nat)
    (pyramid_levels : Z) (frames : list Frame) :
  nonempty_shape sh ->
  Forall (fun f => shape f = sh) frames ->
  forall (i : nat) (pvt : list (Volume R)),
    i + length frames = N ->
    (i = 0 -> frames <> []) ->
    (0 < i -> volumes_shaped sh (Z.to_nat (pyramid_levels - 1)) N pvt) ->
    exists out,
      assemble_loop frames i N pyramid_levels pvt = Ok out /\
      volumes_shaped sh (Z.to_nat (pyramid_levels - 1)) N out /\
      (forall j frame, nth_error frames j = Some frame ->
         exists lap,
           build_laplacian_pyramid frame pyramid_levels = Ok lap /\
           map (fun V => frame_at V (i + j)) out = lap) /\
      (forall t, t < i ->
         map (fun V => frame_at V t) out = map (fun V => frame_at V t) pvt).
Proof.
  intros Hne Hall. induction Hall as [| frame rest Hsh Hall IH];
    intros i pvt HiN Hnil Hpvt.
  - destruct i as [| i]; [exfalso; apply Hnil; reflexivity |].
    exists pvt. split; [reflexivity |]. split; [apply Hpvt; lia |].
    split; [intros [| j] frame H; discriminate | reflexivity].
  - simpl in HiN.
    destruct (build_laplacian_pyramid_shaped frame pyramid_levels)
      as (lap & Hlap & [Hlenlap Hshlap]).
    { apply is_empty_shape. rewrite Hsh. exact Hne. }
    rewrite Hsh in Hshlap.
    set (n := Z.to_nat (pyramid_levels - 1)) in *.
    set (pvt0 := if i =? 0 then map (zeros N) lap else pvt).
    assert (Hpvt0 : volumes_shaped sh n N pvt0).
    { unfold pvt0. destruct i as [| i]; cbn [Nat.eqb]; [| apply Hpvt; lia].
      split; [rewrite length_map; exact Hlenlap |].
      intros m V HV. rewrite nth_error_map in HV.
      destruct (nth_error lap m) as [f |] eqn:Ef; [| discriminate].
      injection HV as <-. split; [reflexivity |]. exact (Hshlap m f Ef). }
    destruct (store_levels_content sh n N i lap) with
        (pvt := pvt0) (level_idx := 0)
      as (pvt' & Hst & Hshaped & Hcontent); [lia | exact Hpvt0 | |].
    { intros j f Hf. split; [| exact (Hshlap j f Hf)].
      assert (j < length lap) by (apply nth_error_Some; congruence).
      simpl. lia. }
    destruct (IH (S i) pvt') as (out & Hout & Hshout & Hframes & Hkeep);
      [lia | discriminate | intros _; exact Hshaped |].
    exists out. split; [| split; [exact Hshout |]].
    { cbn [assemble_loop]. rewrite Hlap. cbn [bind]. fold pvt0.
      rewrite Hst. cbn [bind]. exact Hout. }
    assert (Hlen' : length pvt' = length pvt0)
      by (destruct Hshaped as [-> _]; destruct Hpvt0 as [-> _]; reflexivity).
    split.
    + intros [| j] fr Hfr.
      * injection Hfr as <-. exists lap. split; [exact Hlap |].
        rewrite Nat.add_0_r, (Hkeep i) by lia.
        apply map_eq_nth.
        { destruct Hshaped as [-> _]. lia. }
        intros k V' f HV' Hf.
        destruct (Hcontent k V' HV') as (V & _ & _ & _ & Hhigh).
        apply Hhigh; [lia |]. rewrite Nat.sub_0_r. exact Hf.
      * rewrite Nat.add_succ_r. exact (Hframes j fr Hfr).
    + intros t Ht. rewrite (Hkeep t) by lia.
      assert (Hi0 : i <> 0) by lia. apply Nat.eqb_neq in Hi0.
      unfold pvt0 in *. rewrite Hi0 in *.
      apply map_eq_nth; [rewrite length_map; exact Hlen' |].
      intros k V' b HV' Hb.
      destruct (Hcontent k V' HV') as (V & HV & Hother & _ & _).
      rewrite nth_error_map, HV in Hb. injection Hb as <-.
      apply Hother. lia.
Qed.

(** X8.  Step 2 on a non-empty list of frames of one non-empty shape: it
    returns one volume per pyramid level, each with one time slot per frame,
    and slot [i] of the volume of level [k] holds level [k] of the Laplacian
    pyramid of frame [i]: frames are neither dropped nor reordered. *)
Theorem assemble_time_slots (frames : list Frame) (sh : nat * nat * nat)
    (pyramid_levels : Z) :
  frames <> [] -> nonempty_shape sh ->
  Forall (fun f => shape f = sh) frames ->
  exists pyramid_video_t,
    assemble_loop frames 0 (length frames) pyramid_levels [] = Ok pyramid_video_t /\
    length pyramid_video_t = S (Z.to_nat (pyramid_levels - 1)) /\
    (forall k V, nth_error pyramid_video_t k = Some V ->
                 nframes V = length frames) /\
    forall i frame, nth_error frames i = Some frame ->
      exists lap_pyramid,
        build_laplacian_pyramid frame pyramid_levels = Ok lap_pyramid /\
        map (fun V => frame_at V i) pyramid_video_t = lap_pyramid.
Proof.
  intros Hnil Hne Hall.
  destruct (assemble_loop_content sh (length frames) pyramid_levels frames
              Hne Hall 0 [])
    as (pvt & Hpvt & [Hlen Hvol] & Hframes & _);
    [reflexivity | auto | intros H; lia |].
  exists pvt. split; [exact Hpvt |]. split; [exact Hlen |].
  split; [intros k V HV; exact (proj1 (Hvol k V HV)) |].
  exact Hframes.
Qed.

(** ** When nothing is added, the frames come back *)

Lemma skipn_nth_cons {A : Type} (l : list A) (i : nat) (a : A) :
  nth_error l i = Some a -> skipn i l = a :: skipn (S i) l.
Proof.
  revert i. induction l as [| x l IH]; intros [| i] H; try discriminate.
  - injection H as <-. reflexivity.
  - cbn [skipn]. apply (IH i H).
Qed.

Lemma recombine_zeros (pvt : list (Volume R)) (i n : nat) :
  (forall k V, nth_error pvt k = Some V -> i < nframes V) ->
  forall level_idx,
    level_idx + n = length pvt ->
    recombine_loop pvt (map zeros_like pvt) i level_idx n
    = Ok (map (fun V => frame_at V i) (skipn level_idx pvt)).
Proof.
  intros Hi. induction n as [| n IH]; intros level_idx Hlen.
  - rewrite skipn_all2 by lia. reflexivity.
  - destruct (nth_error pvt level_idx) as [V |] eqn:EV;
      [| apply nth_error_None in EV; lia].
    cbn [recombine_loop]. unfold index.
    rewrite nth_error_map, EV. cbn [option_map bind].
    rewrite (frame_of_Ok V i (Hi _ _ EV)). cbn [bind].
    rewrite (frame_of_Ok (zeros_like V) i) by exact (Hi _ _ EV).
    cbn [bind]. rewrite np_add_zeros_like. cbn [bind].
    rewrite IH by lia. cbn [bind].
    rewrite (skipn_nth_cons pvt level_idx V EV). reflexivity.
Qed.

(** Step 5 with all-zero amplified volumes gives the frames back. *)
Lemma reconstruct_frames_identity (frames : list Frame) (sh : nat * nat * nat)
    (pyramid_levels : Z) (pvt : list (Volume R)) :
  nonempty_shape sh -> (1 <= pyramid_levels)%Z ->
  Forall (fun f => shape f = sh) frames ->
  volumes_shaped sh (Z.to_nat (pyramid_levels - 1)) (length frames) pvt ->
  (forall i frame, nth_error frames i = Some frame ->
     exists lap,
       build_laplacian_pyramid frame pyramid_levels = Ok lap /\
       map (fun V => frame_at V i) pvt = lap) ->
  forall n i, i + n = length frames ->
    reconstruct_frames pvt (map zeros_like pvt) pyramid_levels i n
    = Ok (skipn i frames).
Proof.
  intros Hne Hlv Hall [Hlen Hvol] Hcontent.
  induction n as [| n IH]; intros i Hi.
  - rewrite skipn_all2 by lia. reflexivity.
  - destruct (nth_error frames i) as [frame |] eqn:Ef;
      [| apply nth_error_None in Ef; lia].
    destruct (Hcontent i frame Ef) as (lap & Hlap & Hmap).
    cbn [reconstruct_frames]. unfold recombine.
    rewrite (recombine_zeros pvt i (Z.to_nat pyramid_levels)) by
      (try lia; intros k V HV; destruct (Hvol k V HV) as [-> _]; lia).
    cbn [bind skipn]. rewrite Hmap.
    rewrite (reconstruct_build_laplacian frame pyramid_levels lap); auto.
    + cbn [bind]. rewrite IH by lia. cbn [bind].
      rewrite (skipn_nth_cons frames i frame Ef). reflexivity.
    + apply is_empty_shape. rewrite Forall_forall in Hall.
      rewrite (Hall frame (nth_error_In _ _ Ef)). exact Hne.
Qed.

Lemma filter_loop_zeros (pyramid_levels : Z) (fps low_freq high_freq : R)
    (pvt : list (Volume R)) :
  forall level_idx,
    (forall k V, nth_error pvt k = Some V ->
       is_filtered pyramid_levels (level_idx + k) V = true ->
       temporal_bandpass_filter V fps low_freq high_freq = Ok (zeros_like V)) ->
    filter_loop pyramid_levels fps low_freq high_freq level_idx pvt
    = Ok (map zeros_like pvt).
Proof.
  induction pvt as [| V rest IH]; intros level_idx H; [reflexivity |].
  cbn [filter_loop map].
  assert (H0 : (if is_filtered pyramid_levels level_idx V
                then temporal_bandpass_filter V fps low_freq high_freq
                else Ok (zeros_like V)) = Ok (zeros_like V)).
  { destruct (is_filtered pyramid_levels level_idx V) eqn:E; [| reflexivity].
    apply (H 0 V eq_refl). rewrite Nat.add_0_r. exact E. }
  rewrite H0. cbn [bind]. rewrite IH; [reflexivity |].
  intros k V' HV' Hf. apply (H (S k) V' HV').
  rewrite Nat.add_succ_r. exact Hf.
Qed.

Lemma amplify_zeros (pvt : list (Volume R)) (alpha : R) :
  amplify (map zeros_like pvt) alpha = map zeros_like pvt.
Proof.
  unfold amplify. rewrite map_map. apply map_ext.
  intros V. apply scale_zeros_like.
Qed.

(** The pipeline gives the frames back when every amplified volume is the
    all-zero volume. *)
Lemma pipeline_identity (frames : list Frame) (sh : nat * nat * nat)
    (fps : R) (pyramid_levels : Z) (low_freq high_freq alpha : R) :
  frames <> [] -> nonempty_shape sh ->
  Forall (fun f => shape f = sh) frames ->
  (1 <= pyramid_levels)%Z ->
  (forall pvt,
     volumes_shaped sh (Z.to_nat (pyramid_levels - 1)) (length frames) pvt ->
     (forall i frame, nth_error frames i = Some frame ->
        exists lap,
          build_laplacian_pyramid frame pyramid_levels = Ok lap /\
          map (fun V => frame_at V i) pvt = lap) ->
     exists filtered,
       filter_loop pyramid_levels fps low_freq high_freq 0 pvt = Ok filtered /\
       amplify filtered alpha = map zeros_like pvt) ->
  eulerian_magnification frames fps pyramid_levels low_freq high_freq alpha
  = Some frames.
Proof.
  intros Hnil Hne Hall Hlv Hzero.
  destruct (assemble_loop_content sh (length frames) pyramid_levels frames
              Hne Hall 0 [])
    as (pvt & Hpvt & Hshaped & Hframes & _);
    [reflexivity | auto | intros H; lia |].
  destruct (Hzero pvt Hshaped Hframes) as (filtered & Hfilt & Hamp).
  unfold eulerian_magnification. destruct frames as [| f frames];
    [congruence |].
  unfold magnify. rewrite Hpvt. cbn [bind].
  unfold filter_amplify_reconstruct. rewrite Hfilt. cbn [bind].
  rewrite Hamp.
  rewrite (reconstruct_frames_identity (f :: frames) sh pyramid_levels pvt
             Hne Hlv Hall Hshaped Hframes (length (f :: frames)) 0)
    by reflexivity.
  reflexivity.
Qed.

Lemma scale_zero (F V : Volume R) :
  vshape F = vshape V -> scale 0 F = zeros_like V.
Proof.
  unfold vshape. intros H. injection H as Hn Hr Hc Hk.
  unfold scale, zeros_like. rewrite Hn, Hr, Hc, Hk. f_equal.
  extensionality t; extensionality r; extensionality c; extensionality k.
  ring.
Qed.

(** X9.  With [alpha = 0] nothing is added: the output frames are the input
    frames. *)
Theorem magnification_by_zero (frames : list Frame) (sh : nat * nat * nat)
    (fps : R) (pyramid_levels : Z) (low_freq high_freq : R) :
  frames <> [] -> nonempty_shape sh ->
  Forall (fun f => shape f = sh) frames ->
  (1 <= pyramid_levels)%Z -> fps <> 0%R ->
  eulerian_magnification frames fps pyramid_levels low_freq high_freq 0
  = Some frames.
Proof.
  intros Hnil Hne Hall Hlv Hfps.
  apply (pipeline_identity frames sh); auto.
  intros pvt [Hlen Hvol] _.
  assert (Hpos : 1 <= length frames)
    by (destruct frames; simpl; [congruence | lia]).
  destruct (filter_loop_Ok pyramid_levels fps low_freq high_freq pvt 0 Hfps)
    as (filtered & Hfilt & Hlenf & Hnth).
  { intros k V HV. destruct (Hvol k V HV) as [-> _]. exact Hpos. }
  exists filtered. split; [exact Hfilt |].
  unfold amplify. apply nth_error_ext. intros k.
  rewrite !nth_error_map.
  destruct (nth_error pvt k) as [V |] eqn:EV.
  - destruct (Hnth k V EV) as (Fk & HFk & Hs & _).
    rewrite HFk. cbn [option_map]. f_equal. exact (scale_zero Fk V Hs).
  - apply nth_error_None in EV.
    assert (E : nth_error filtered k = None) by (apply nth_error_None; lia).
    rewrite E. reflexivity.
Qed.

(** X10.  With [low_freq > high_freq] no bin passes: the output frames are
    the input frames. *)
Theorem magnification_empty_band (frames : list Frame)
    (sh : nat * nat * nat) (fps : R) (pyramid_levels : Z)
    (low_freq high_freq alpha : R) :
  frames <> [] -> nonempty_shape sh ->
  Forall (fun f => shape f = sh) frames ->
  (1 <= pyramid_levels)%Z -> fps <> 0%R -> (high_freq < low_freq)%R ->
  eulerian_magnification frames fps pyramid_levels low_freq high_freq alpha
  = Some frames.
Proof.
  intros Hnil Hne Hall Hlv Hfps Hband.
  apply (pipeline_identity frames sh); auto.
  intros pvt [Hlen Hvol] _.
  assert (Hpos : 1 <= length frames)
    by (destruct frames; simpl; [congruence | lia]).
  exists (map zeros_like pvt). split; [| apply amplify_zeros].
  apply filter_loop_zeros. intros k V HV _.
  apply bandpass_no_bin; auto.
  destruct (Hvol k V HV) as [-> _]. exact Hpos.
Qed.

(** X11.  A video whose frames are all the same frame, filtered with
    [low_freq > 0], comes back unchanged: a static scene has nothing to
    magnify. *)
Theorem magnification_static_video (frames : list Frame) (frame : Frame)
    (fps : R) (pyramid_levels : Z) (low_freq high_freq alpha : R) :
  frames <> [] -> is_empty frame = false ->
  Forall (fun f => f = frame) frames ->
  (1 <= pyramid_levels)%Z -> fps <> 0%R -> (0 < low_freq)%R ->
  eulerian_magnification frames fps pyramid_levels low_freq high_freq alpha
  = Some frames.
Proof.
  intros Hnil He Hsame Hlv Hfps Hlow.
  assert (Hall : Forall (fun f => shape f = shape frame) frames).
  { apply (Forall_impl _ (P := fun f => f = frame)); [| exact Hsame].
    intros f ->. reflexivity. }
  apply (pipeline_identity frames (shape frame)); auto.
  { apply is_empty_shape. exact He. }
  intros pvt [Hlen Hvol] Hcontent.
  assert (Hpos : 1 <= length frames)
    by (destruct frames; simpl; [congruence | lia]).
  exists (map zeros_like pvt). split; [| apply amplify_zeros].
  apply filter_loop_zeros. intros k V HV _.
  destruct (Hvol k V HV) as [HN _].
  apply bandpass_constant_zero; auto; [lia |].
  intros t r c ch Ht.
  assert (Hslot : forall i, i < length frames -> frame_at V i = frame_at V 0).
  { intros i Hi.
    destruct (nth_error frames i) as [fi |] eqn:Ei;
      [| apply nth_error_None in Ei; lia].
    destruct (nth_error frames 0) as [f0 |] eqn:E0;
      [| apply nth_error_None in E0; lia].
    rewrite Forall_forall in Hsame.
    pose proof (Hsame fi (nth_error_In _ _ Ei)) as Hfi.
    pose proof (Hsame f0 (nth_error_In _ _ E0)) as Hf0. subst fi f0.
    destruct (Hcontent i frame Ei) as (lap & Hlap & Hmap).
    destruct (Hcontent 0 frame E0) as (lap0 & Hlap0 & Hmap0).
    assert (Heq : lap0 = lap) by congruence. rewrite Heq in Hmap0.
    pose proof (f_equal (fun l => nth_error l k) Hmap) as H1.
    pose proof (f_equal (fun l => nth_error l k) Hmap0) as H2.
    cbn beta in H1, H2. rewrite nth_error_map, HV in H1, H2.
    cbn [option_map] in H1, H2. congruence. }
  rewrite HN in Ht. specialize (Hslot t Ht).
  unfold frame_at in Hslot. injection Hslot as Hpix.
  rewrite Hpix. reflexivity.
Qed.

Lemma half_up_le (d : nat) : (d + 1) / 2 <= d.
Proof.
  pose proof (Nat.div_mod_eq (d + 1) 2).
  pose proof (Nat.mod_upper_bound (d + 1) 2). lia.
Qed.

Lemma iter_half_shape_le (sh : nat * nat * nat) (m : nat) :
  fst (fst (Nat.iter m half_shape sh)) <= fst (fst sh) /\
  snd (fst (Nat.iter m half_shape sh)) <= snd (fst sh).
Proof.
  induction m as [| m IH]; [split; reflexivity |].
  rewrite Nat.iter_succ.
  destruct (Nat.iter m half_shape sh) as [[r c] k]. cbn [fst snd] in IH.
  unfold half_shape. cbn [fst snd].
  pose proof (half_up_le r). pose proof (half_up_le c). lia.
Qed.

(** X12.  When every level is skipped (a single level, or frames whose
    smaller side is at most 4 pixels) the output frames are the input
    frames, whatever the frame rate, the band and [alpha]. *)
Theorem magnification_all_skipped (frames : list Frame)
    (sh : nat * nat * nat) (fps : R) (pyramid_levels : Z)
    (low_freq high_freq alpha : R) :
  frames <> [] -> nonempty_shape sh ->
  Forall (fun f => shape f = sh) frames ->
  (1 <= pyramid_levels)%Z ->
  pyramid_levels = 1%Z \/ Nat.min (fst (fst sh)) (snd (fst sh)) <= 4 ->
  eulerian_magnification frames fps pyramid_levels low_freq high_freq alpha
  = Some frames.
Proof.
  intros Hnil Hne Hall Hlv Hskip.
  apply (pipeline_identity frames sh); auto.
  intros pvt [Hlen Hvol] _.
  exists (map zeros_like pvt). split; [| apply amplify_zeros].
  apply filter_loop_zeros. intros k V HV Hf. exfalso.
  unfold is_filtered in Hf. apply andb_true_iff in Hf.
  destruct Hf as [Hidx Hmin].
  apply Z.ltb_lt in Hidx. apply Nat.ltb_lt in Hmin.
  destruct Hskip as [-> | Hsmall]; [lia |].
  destruct (Hvol k V HV) as [_ Hsh].
  pose proof (iter_half_shape_le sh k) as [Hr Hc].
  rewrite <- Hsh in Hr, Hc. unfold shape, frame_at in Hr, Hc.
  cbn [rows cols chans fst snd] in Hr, Hc. lia.
Qed.

(** X13.  A frame rate of zero makes the filter divide by zero: as soon as
    one level is filtered (two levels or more, frames larger than 4 pixels
    on both sides) the run fails and [eulerian_magnification] returns
    [None]. *)
Theorem magnification_zero_fps (frames : list Frame) (sh : nat * nat * nat)
    (pyramid_levels : Z) (low_freq high_freq alpha : R) :
  frames <> [] -> nonempty_shape sh ->
  Forall (fun f => shape f = sh) frames ->
  (2 <= pyramid_levels)%Z ->
  4 < Nat.min (fst (fst sh)) (snd (fst sh)) ->
  eulerian_magnification frames 0 pyramid_levels low_freq high_freq alpha
  = None.
Proof.
  intros Hnil Hne Hall Hlv Hbig.
  destruct (assemble_loop_content sh (length frames) pyramid_levels frames
              Hne Hall 0 [])
    as (pvt & Hpvt & [Hlen Hvol] & _ & _);
    [reflexivity | auto | intros H; lia |].
  assert (Hpos : 1 <= length frames)
    by (destruct frames; simpl; [congruence | lia]).
  destruct pvt as [| V0 rest]; [discriminate |].
  destruct (Hvol 0 V0 eq_refl) as [HN Hsh0]. cbn [Nat.iter nat_rect] in Hsh0.
  assert (Hfilt : filter_loop pyramid_levels 0 low_freq high_freq 0 (V0 :: rest)
                  = Raise ZeroDivisionError).
  { cbn [filter_loop].
    replace (is_filtered pyramid_levels 0 V0) with true.
    - unfold temporal_bandpass_filter, fft.
      replace (nframes V0 =? 0) with false
        by (symmetry; apply Nat.eqb_neq; lia).
      cbn [bind]. unfold fdiv.
      destruct (Req_dec_T 0 0) as [_ | Hne0]; [reflexivity | lra].
    - symmetry. unfold is_filtered. apply andb_true_iff. split.
      + apply Z.ltb_lt. simpl. lia.
      + apply Nat.ltb_lt. rewrite <- Hsh0 in Hbig.
        unfold shape, frame_at in Hbig. cbn [rows cols chans fst snd] in Hbig.
        exact Hbig. }
  unfold eulerian_magnification. destruct frames as [| f frames];
    [congruence |].
  unfold magnify. rewrite Hpvt. cbn [bind].
  unfold filter_amplify_reconstruct. rewrite Hfilt. reflexivity.
Qed.

(** X14.  With [pyramid_levels <= 0] the run never produces a video: the
    pyramid of each output frame is empty and its reconstruction raises
    [IndexError], which [eulerian_magnification] turns into [None]. *)
Theorem magnification_no_levels (frames : list Frame) (fps : R)
    (pyramid_levels : Z) (low_freq high_freq alpha : R) :
  (pyramid_levels <= 0)%Z ->
  eulerian_magnification frames fps pyramid_levels low_freq high_freq alpha
  = None.
Proof.
  intros Hlv. unfold eulerian_magnification.
  destruct frames as [| f frames]; [reflexivity |].
  unfold magnify.
  destruct (assemble_loop (f :: frames) 0 (length (f :: frames))
              pyramid_levels []) as [pvt | e]; [| reflexivity].
  cbn [bind]. unfold filter_amplify_reconstruct.
  destruct (filter_loop pyramid_levels fps low_freq high_freq 0 pvt)
    as [filtered | e]; [| reflexivity].
  cbn [bind length reconstruct_frames]. unfold recombine.
  replace (Z.to_nat pyramid_levels) with 0 by lia.
  reflexivity.
Qed.

(** ** The dimensions of the pyramid levels in closed form *)

Lemma half_up_pow (d m : nat) :
  ((d + 2 ^ m - 1) / 2 ^ m + 1) / 2 = (d + 2 ^ S m - 1) / 2 ^ S m.
Proof.
  assert (Hp : 2 ^ m <> 0) by (apply Nat.pow_nonzero; lia).
  assert (Hp1 : 1 <= 2 ^ m) by lia.
  replace ((d + 2 ^ m - 1) / 2 ^ m + 1)
    with ((d + 2 ^ m - 1 + 1 * 2 ^ m) / 2 ^ m)
    by (rewrite Nat.div_add by exact Hp; reflexivity).
  rewrite Nat.Div0.div_div.
  rewrite Nat.pow_succ_r'. f_equal; lia.
Qed.

Lemma iter_half_shape_closed (r c k m : nat) :
  Nat.iter m half_shape (r, c, k)
  = ((r + 2 ^ m - 1) / 2 ^ m, (c + 2 ^ m - 1) / 2 ^ m, k).
Proof.
  induction m as [| m IH].
  - cbn [Nat.iter nat_rect]. rewrite Nat.pow_0_r, !Nat.add_sub, !Nat.div_1_r.
    reflexivity.
  - rewrite Nat.iter_succ, IH. unfold half_shape.
    rewrite !half_up_pow. reflexivity.
Qed.

(** X15.  Level [m] of the Gaussian pyramid of a non-empty frame has
    ceil(rows / 2^m) rows and ceil(cols / 2^m) columns, and the channels of
    the frame; the Laplacian level [m] has the same shape. *)
Theorem pyramid_level_dimensions (image : Frame) (levels : Z) :
  is_empty image = false ->
  exists gp lp,
    build_gaussian_pyramid image levels = Ok gp /\
    build_laplacian_pyramid image levels = Ok lp /\
    (forall m g, nth_error gp m = Some g ->
       shape g = ((rows image + 2 ^ m - 1) / 2 ^ m,
                  (cols image + 2 ^ m - 1) / 2 ^ m, chans image)) /\
    (forall m l, nth_error lp m = Some l ->
       shape l = ((rows image + 2 ^ m - 1) / 2 ^ m,
                  (cols image + 2 ^ m - 1) / 2 ^ m, chans image)).
Proof.
  intros He.
  destruct (build_gaussian_pyramid_Ok image levels He)
    as (rest & Hgp & _ & Hch).
  destruct (build_laplacian_pyramid_shaped image levels He)
    as (lp & Hlp & [_ Hshlp]).
  destruct (pyrDown_chain_shaped image rest Hch) as [_ Hshgp].
  exists (image :: rest), lp. split; [exact Hgp |]. split; [exact Hlp |].
  split.
  - intros m g Hg. rewrite (Hshgp m g Hg). apply iter_half_shape_closed.
  - intros m l Hl. rewrite (Hshlp m l Hl). apply iter_half_shape_closed.
Qed.

(** ** Reading and writing the video *)

Lemma read_frames_None (stream : list RawFrame) (frames_read : Z) :
  read_frames stream frames_read None = map normalize stream.
Proof.
  revert frames_read. induction stream as [| f rest IH]; intros k;
    [reflexivity |].
  cbn [read_frames map]. rewrite IH. reflexivity.
Qed.

(** With a limit the loop stops after the frame that reaches it, and never
    before the first frame. *)
Lemma read_frames_Some (stream : list RawFrame) (frames_read m : Z) :
  read_frames stream frames_read (Some m)
  = map normalize (firstn (Z.to_nat (Z.max 1 (m - frames_read))) stream).
Proof.
  revert frames_read. induction stream as [| f rest IH]; intros k.
  - rewrite firstn_nil. reflexivity.
  - cbn [read_frames].
    destruct (m <=? k + 1)%Z eqn:E.
    + apply Z.leb_le in E.
      replace (Z.to_nat (Z.max 1 (m - k))) with 1 by lia. reflexivity.
    + apply Z.leb_gt in E. rewrite IH.
      replace (Z.to_nat (Z.max 1 (m - k)))
        with (S (Z.to_nat (Z.max 1 (m - (k + 1))))) by lia.
      reflexivity.
Qed.

(** X16.  [load_video] raises [IOError] when the file cannot be opened and
    [ValueError] when no frame can be read.  Otherwise it returns the
    normalised frames in the order of the file, with the properties of the
    file: all of them without a limit, and the first max(1, max_frames) of
    them with a limit (a limit of zero or less still reads one frame). *)
Theorem load_video_frames (video : Video) (max_frames : option Z) :
  (is_opened video = false -> load_video video max_frames = inl LoadIOError) /\
  (is_opened video = true -> video_frames video = [] ->
   load_video video max_frames = inl LoadValueError) /\
  (is_opened video = true -> video_frames video <> [] ->
   load_video video max_frames
   = inr (map normalize
            match max_frames with
            | None => video_frames video
            | Some m => firstn (Z.to_nat (Z.max 1 m)) (video_frames video)
            end,
          video_fps video, video_width video, video_height video)).
Proof.
  unfold load_video. split; [| split].
  - intros ->. reflexivity.
  - intros -> ->. reflexivity.
  - intros -> Hne. cbn [negb].
    assert (E : read_frames (video_frames video) 0 max_frames
                = map normalize
                    match max_frames with
                    | None => video_frames video
                    | Some m => firstn (Z.to_nat (Z.max 1 m)) (video_frames video)
                    end).
    { destruct max_frames as [m |].
      - rewrite read_frames_Some, Z.sub_0_r. reflexivity.
      - apply read_frames_None. }
    rewrite E.
    destruct (video_frames video) as [| f rest]; [congruence |].
    destruct max_frames as [m |]; [| reflexivity].
    replace (Z.to_nat (Z.max 1 m)) with (S (Z.to_nat (Z.max 1 m) - 1)) by lia.
    reflexivity.
Qed.

Lemma normalize_range (raw : RawFrame) (r c k : nat) :
  (0 <= pix (normalize raw) r c k <= 1)%R.
Proof.
  cbn [normalize pix].
  pose proof (Byte.to_nat_bounded (raw_pix raw r c k)) as Hb.
  apply le_INR in Hb. pose proof (pos_INR (Byte.to_nat (raw_pix raw r c k))).
  replace (INR 255) with 255%R in Hb by (simpl; lra).
  split.
  - apply Rmult_le_pos; [assumption | lra].
  - apply (Rmult_le_reg_r 255); [lra |]. unfold Rdiv.
    rewrite Rmult_assoc, Rinv_l by lra. lra.
Qed.

Lemma read_frames_normalized (stream : list RawFrame) (max_frames : option Z) :
  forall frames_read f,
    In f (read_frames stream frames_read max_frames) ->
    exists raw, In raw stream /\ f = normalize raw.
Proof.
  induction stream as [| raw rest IH]; intros k f Hin; [contradiction |].
  cbn [read_frames] in Hin.
  destruct (match max_frames with
            | Some m => (m <=? k + 1)%Z
            | None => false
            end).
  - destruct Hin as [<- | []]. exists raw. split; [left |]; reflexivity.
  - destruct Hin as [<- | Hin].
    + exists raw. split; [left |]; reflexivity.
    + destruct (IH _ f Hin) as (raw' & Hraw' & ->).
      exists raw'. split; [right; exact Hraw' | reflexivity].
Qed.

(** X17.  Every frame that [load_video] returns is the normalisation of a
    frame of the file, has its shape, and every one of its values lies
    between 0 and 1. *)
Theorem loaded_frames_normalized (video : Video) (max_frames : option Z)
    (frames : list Frame) (fps : R) (width height : nat) :
  load_video video max_frames = inr (frames, fps, width, height) ->
  fps = video_fps video /\
  forall f, In f frames ->
    (exists raw, In raw (video_frames video) /\ f = normalize raw /\
                 shape f = (raw_rows raw, raw_cols raw, raw_chans raw)) /\
    forall r c k, (0 <= pix f r c k <= 1)%R.
Proof.
  unfold load_video. destruct (negb (is_opened video)); [discriminate |].
  destruct (read_frames (video_frames video) 0 max_frames) as [| f0 fs] eqn:E;
    [discriminate |].
  intros H. injection H as <- <- _ _. split; [reflexivity |].
  intros f Hin. rewrite <- E in Hin.
  destruct (read_frames_normalized _ _ _ f Hin) as (raw & Hraw & ->).
  split; [exists raw; auto |].
  apply normalize_range.
Qed.

(** What [astype(np.uint8)] gives between 0 and 255. *)
Lemma to_uint8_floor (y : R) :
  (0 <= y <= 255)%R ->
  (INR (Byte.to_nat (to_uint8 y)) <= y < INR (Byte.to_nat (to_uint8 y)) + 1)%R.
Proof.
  intros [H0 H255]. unfold to_uint8.
  destruct (base_Int_part y) as [Hle Hgt].
  assert (Hz0 : (0 <= Int_part y)%Z).
  { apply le_IZR. apply Rnot_lt_le. intros Hneg.
    assert (Int_part y <= -1)%Z by (apply lt_IZR in Hneg; lia).
    apply IZR_le in H. lra. }
  assert (Hz255 : (Int_part y <= 255)%Z).
  { apply le_IZR. lra. }
  destruct (Byte.of_nat (Z.to_nat (Int_part y))) as [b |] eqn:E.
  - apply Byte.to_of_nat in E. rewrite E, INR_IZR_INZ, Z2Nat.id by exact Hz0.
    lra.
  - apply Byte.of_nat_None_iff in E. lia.
Qed.

(** X18.  What [save_video] writes for a value [x]: 0 when [x <= 0], 255
    when [x >= 1], and 255 * x with its fraction dropped in between
    (truncation, not rounding). *)
Theorem written_pixel (frame : Frame) (r c k : nat) :
  let x := pix frame r c k in
  let b := Byte.to_nat (raw_pix (denormalize frame) r c k) in
  ((x <= 0)%R -> b = 0) /\
  ((1 <= x)%R -> b = 255) /\
  ((0 <= x <= 1)%R -> (INR b <= 255 * x < INR b + 1)%R).
Proof.
  cbn zeta. cbn [denormalize raw_pix].
  set (x := pix frame r c k).
  assert (Hclip : (0 <= clip (x * 255) 0 255 <= 255)%R).
  { unfold clip. split.
    - apply Rmin_glb; [apply Rmax_r | lra].
    - apply Rmin_r. }
  pose proof (to_uint8_floor _ Hclip) as [Hlo Hhi].
  pose proof (Byte.to_nat_bounded (to_uint8 (clip (x * 255) 0 255))) as Hb.
  set (b := Byte.to_nat (to_uint8 (clip (x * 255) 0 255))) in *.
  split; [| split].
  - intros Hx.
    assert (E : clip (x * 255) 0 255 = 0%R).
    { unfold clip. rewrite Rmax_right by lra. apply Rmin_left. lra. }
    rewrite E in Hlo.
    assert (b <= 0) by (apply INR_le; simpl; exact Hlo). lia.
  - intros Hx.
    assert (E : clip (x * 255) 0 255 = 255%R).
    { unfold clip. rewrite Rmax_left by lra. apply Rmin_right. lra. }
    rewrite E in Hhi.
    assert (254 < b).
    { apply INR_lt. replace (INR 254) with 254%R by (simpl; lra). lra. }
    lia.
  - intros Hx.
    assert (E : clip (x * 255) 0 255 = (255 * x)%R).
    { unfold clip. rewrite Rmax_left by lra. rewrite Rmin_left by lra. ring. }
    rewrite E in Hlo, Hhi. split; assumption.
Qed.

(** X19.  A frame of the file that is normalised and written back without
    any change is written as it was read. *)
Theorem denormalize_normalize (raw : RawFrame) :
  denormalize (normalize raw) = raw.
Proof.
  destruct raw as [h w ch p]. unfold denormalize, normalize.
  cbn [rows cols chans pix raw_rows raw_cols raw_chans raw_pix]. f_equal.
  extensionality r; extensionality c; extensionality k.
  pose proof (Byte.to_nat_bounded (p r c k)) as Hb.
  assert (Hb' : (0 <= INR (Byte.to_nat (p r c k)) <= 255)%R).
  { split; [apply pos_INR |]. apply le_INR in Hb.
    replace (INR 255) with 255%R in Hb by (simpl; lra). exact Hb. }
  replace (INR (Byte.to_nat (p r c k)) / 255 * 255)%R
    with (INR (Byte.to_nat (p r c k))) by (field; lra).
  unfold clip. rewrite Rmax_left, Rmin_left by lra.
  unfold to_uint8. rewrite Int_part_INR, Nat2Z.id, Byte.of_to_nat.
  reflexivity.
Qed.

(** ** The whole run, from the file to the writer *)

Lemma save_video_length (frames : list Frame) (written : list RawFrame) :
  save_video frames true = Some written -> length written = length frames.
Proof.
  cbn [save_video negb]. intros H. injection H as <-. apply length_map.
Qed.




(** X22.  [reconstruct_from_laplacian_pyramid] succeeds on every list of
    levels whose shapes halve (rounding up) from one level to the next,
    whatever the values: every [pyrUp] is given a size it accepts and every
    [cv2.add] two arrays of one shape.  The result has the shape of the
    first level. *)
Theorem reconstruct_accepts_halving_shapes (sh : nat * nat * nat) (n : nat)
    (pyramid : list Frame) :
  nonempty_shape sh -> pyramid_shaped sh n pyramid ->
  exists out,
    reconstruct_from_laplacian_pyramid pyramid = Ok out /\ shape out = sh.
Proof.
  intros Hne Hpyr. exact (reconstruct_shaped_Ok sh n pyramid Hne Hpyr).
Qed.

(** X23.  A level whose spatial size differs from the one of its volume is
    not rejected: it is resized to the rows and columns of the volume and
    stored in its time slot; the other time slots keep their content. *)
Theorem store_level_resizes (vol : Volume R) (i : nat) (level_data : Frame) :
  i < nframes vol ->
  is_empty level_data = false ->
  1 <= vrows vol -> 1 <= vcols vol ->
  chans level_data = vchans vol ->
  (rows level_data, cols level_data) <> (vrows vol, vcols vol) ->
  exists vol',
    store_level vol i level_data = Ok vol' /\
    vshape vol' = vshape vol /\
    vox vol' i = resize_values level_data (vcols vol) (vrows vol) /\
    forall t, t <> i -> vox vol' t = vox vol t.
Proof.
  intros Hi Hemp Hr Hc Hch Hsize.
  unfold store_level, frame_of.
  apply Nat.ltb_lt in Hi. rewrite Hi. cbn [bind].
  destruct (shape_eqb (shape level_data) (shape (frame_at vol i))) eqn:E.
  - apply shape_eqb_eq in E. unfold shape, frame_at in E.
    cbn [rows cols chans] in E. exfalso. apply Hsize. congruence.
  - unfold resize. rewrite Hemp. cbn [frame_at rows cols orb].
    destruct (vcols vol =? 0) eqn:Ec; [apply Nat.eqb_eq in Ec; lia |].
    destruct (vrows vol =? 0) eqn:Er; [apply Nat.eqb_eq in Er; lia |].
    unfold set_frame. rewrite Hi. cbn [negb].
    assert (Eshape : shape_eqb
                       (shape (mkFrame (vrows vol) (vcols vol) (chans level_data)
                                 (resize_values level_data (vcols vol) (vrows vol))))
                       (shape (frame_at vol i)) = true).
    { unfold shape, frame_at. cbn [rows cols chans]. rewrite Hch.
      apply (shape_eqb_refl (vrows vol, vcols vol, vchans vol)). }
    cbn [orb bind]. rewrite Eshape.
    eexists. split; [reflexivity |]. split; [reflexivity |].
    cbn [vox pix]. split.
    + rewrite Nat.eqb_refl. reflexivity.
    + intros t Ht. apply Nat.eqb_neq in Ht. rewrite Ht. reflexivity.
Qed.

End OpenCV.

(** * Concrete runs *)

(** The round trip on a 5 x 7 frame with three channels and three levels. *)
Lemma laplacian_round_trip_witness :
  is_empty (ramp 5 7 3) = false /\
  exists lp,
    build_laplacian_pyramid sample_down sample_up (ramp 5 7 3) 3 = Ok lp /\
    reconstruct_from_laplacian_pyramid sample_up lp = Ok (ramp 5 7 3).
Proof.
  split; [reflexivity |].
  apply (laplacian_round_trip sample_down sample_up (ramp 5 7 3) 3).
  reflexivity.
Defined.

(** A 5 x 5 frame: level 1 is 3 x 3, not the rounded-down 2 x 2. *)
Lemma pyramid_floor_counterexample :
  exists gp a b,
    build_gaussian_pyramid sample_down (ramp 5 5 3) 2 = Ok gp /\
    nth_error gp 0 = Some a /\ nth_error gp 1 = Some b /\
    rows b = 3 /\ rows a / 2 = 2 /\ rows b <> rows a / 2.
Proof.
  do 3 eexists. split; [reflexivity |].
  split; [reflexivity |]. split; [reflexivity |].
  split; [reflexivity |]. split; [reflexivity |].
  cbn. discriminate.
Qed.

Lemma pyramid_levels_shape_witness :
  is_empty (ramp 5 5 3) = false /\ (1 <= 2)%Z /\
  exists gp lp,
    build_gaussian_pyramid sample_down (ramp 5 5 3) 2 = Ok gp /\
    build_laplacian_pyramid sample_down sample_up (ramp 5 5 3) 2 = Ok lp /\
    Z.of_nat (length gp) = 2%Z /\
    nth_error gp 0 = Some (ramp 5 5 3) /\
    (forall i a b, nth_error gp i = Some a -> nth_error gp (S i) = Some b ->
       rows b = (rows a + 1) / 2 /\ cols b = (cols a + 1) / 2) /\
    (forall i a, nth_error gp i = Some a -> chans a = chans (ramp 5 5 3)) /\
    length lp = length gp /\
    (forall i a l, nth_error gp i = Some a -> nth_error lp i = Some l ->
       shape l = shape a).
Proof.
  split; [reflexivity |]. split; [lia |].
  apply (pyramid_levels_shape sample_down sample_up (ramp 5 5 3) 2);
    [reflexivity | lia].
Defined.

(** Zero levels are accepted, and a 1 x 1 frame still yields three levels. *)
Lemma gaussian_pyramid_error_counterexample :
  build_gaussian_pyramid sample_down (ramp 4 4 3) 0 = Ok [ramp 4 4 3] /\
  exists g1 g2,
    build_gaussian_pyramid sample_down (ramp 1 1 1) 3
    = Ok [ramp 1 1 1; g1; g2] /\
    shape g1 = (1, 1, 1) /\ shape g2 = (1, 1, 1).
Proof.
  split; [reflexivity |].
  do 2 eexists. split; [reflexivity |]. split; reflexivity.
Qed.

Lemma gaussian_pyramid_no_level_check_witness :
  ((0 < 1)%Z /\ is_empty (ramp 4 4 3) = false) /\
  (build_gaussian_pyramid sample_down (ramp 4 4 3) 0 = Ok [ramp 4 4 3]) /\
  (exists gp, build_gaussian_pyramid sample_down (ramp 4 4 3) 0 = Ok gp /\
              length gp = S (Z.to_nat (0 - 1))).
Proof.
  split; [split; [lia | reflexivity] |].
  destruct (gaussian_pyramid_no_level_check sample_down (ramp 4 4 3) 0)
    as [H1 H2].
  split; [apply H1; lia | apply H2; reflexivity].
Defined.

(** The float64 numbers of the runs below stand for the same real numbers. *)
Ltac f64_value_eq :=
  unfold f64_value;
  match goal with
  | |- context [FloatOps.Prim2SF ?x] =>
      let s := eval vm_compute in (FloatOps.Prim2SF x) in
      change (FloatOps.Prim2SF x) with s
  end;
  cbv beta iota zeta;
  repeat match goal with
         | |- context [Z.pow_pos 2 ?p] =>
             let z := eval vm_compute in (Z.pow_pos 2 p) in
             change (Z.pow_pos 2 p) with z
         end;
  lra.

Lemma f64_value_0 : f64_value 0 = 0%R.
Proof. f64_value_eq. Qed.

Lemma f64_value_5 : f64_value 5 = 5%R.
Proof. f64_value_eq. Qed.

Lemma f64_value_10 : f64_value 10 = 10%R.
Proof. f64_value_eq. Qed.

Lemma f64_value_12 : f64_value 12 = 12%R.
Proof. f64_value_eq. Qed.

Lemma f64_value_24 : f64_value 24 = 24%R.
Proof. f64_value_eq. Qed.

Lemma f64_value_30 : f64_value 30 = 30%R.
Proof. f64_value_eq. Qed.

(** Four frames at 30 frames per second: the bins are computed as 0, 7.5,
    -15 and -7.5 Hz. *)
Lemma mask_4_frames_30_fps (j : nat) :
  j < 4 ->
  f64_in_band 5 10 (f64_bin_frequency 4 30 j) = (j =? 1) || (j =? 3).
Proof.
  intros Hj.
  do 4 (destruct j as [| j]; [vm_compute; reflexivity |]). lia.
Qed.

(** The filter on four frames with the band from 5 to 10 Hz: the two bins at
    7.5 Hz are kept, and no comparison is near a band edge. *)
Lemma bandpass_is_masked_dft_witness :
  (1 <= nframes (ramp_volume 4 2 2 1) /\ (30 =? 0)%float = false /\
   (f64_of_Z (Z.of_nat (nframes (ramp_volume 4 2 2 1))) * (1 / 30) =? 0)%float
   = false) /\
  exists out,
    temporal_bandpass_filter_f64 (ramp_volume 4 2 2 1) 30 5 10 = Ok out /\
    vshape out = vshape (ramp_volume 4 2 2 1) /\
    (forall t r c k,
       vox out t r c k
       = vox (spec_bandpass_f64 (ramp_volume 4 2 2 1) 30 5 10) t r c k) /\
    (forall t r c k,
       vox out t r c k
       = vox (spec_bandpass (ramp_volume 4 2 2 1) 30 5 10) t r c k).
Proof.
  assert (H1 : 1 <= nframes (ramp_volume 4 2 2 1)) by (simpl; lia).
  assert (H2 : (30 =? 0)%float = false) by reflexivity.
  assert (H3 : (f64_of_Z (Z.of_nat (nframes (ramp_volume 4 2 2 1)))
                * (1 / 30) =? 0)%float = false) by reflexivity.
  split; [split; [exact H1 | split; [exact H2 | exact H3]] |].
  destruct (bandpass_is_masked_dft (ramp_volume 4 2 2 1) 30 5 10 H1 H2 H3)
    as (out & Hout & Hshape & Hf64 & Hexact).
  exists out. split; [exact Hout |]. split; [exact Hshape |].
  split; [exact Hf64 |].
  rewrite f64_value_30, f64_value_5, f64_value_10 in Hexact.
  apply Hexact. intros j Hj.
  change (nframes (ramp_volume 4 2 2 1)) with 4 in *.
  rewrite (mask_4_frames_30_fps j Hj). unfold spec_abs_frequency.
  do 4 (destruct j as [| j];
        [ cbn [Nat.eqb orb Nat.min Nat.sub INR];
          first [ symmetry; apply spec_in_band_iff; lra
                | symmetry; apply not_true_is_false;
                  rewrite spec_in_band_iff; lra ] |]).
  lia.
Defined.

(** Ten frames at 24 frames per second: bin 5 is computed as
    -12.000000000000002 Hz. *)
Lemma mask_10_frames_24_fps (j : nat) :
  j < 10 ->
  f64_in_band 0 12 (f64_bin_frequency 10 24 j) = negb (j =? 5).
Proof.
  intros Hj.
  do 10 (destruct j as [| j]; [vm_compute; reflexivity |]). lia.
Qed.

(** Ten frames at 24 frames per second and the band from 0 to 12 Hz.  The
    frequency of bin 5 is 12 Hz, inside the band, but float64 arithmetic
    computes it as -12.000000000000002 Hz: the filter zeroes the bin.  For
    the series 0, 1, ..., 9 the first value comes out as 1/2, where the
    band-pass of the specification gives 0. *)
Lemma bandpass_band_edge_counterexample :
  (f64_value 24 = 24 /\ f64_value 0 = 0 /\ f64_value 12 = 12)%R /\
  (0 < 24 /\ 0 <= 0 < 12)%R /\
  spec_abs_frequency 10 24 5 = 12%R /\
  spec_in_band 0 12 (spec_abs_frequency 10 24 5) = true /\
  f64_bin_frequency 10 24 5 = (-0x1.8000000000001p+3)%float /\
  f64_in_band 0 12 (f64_bin_frequency 10 24 5) = false /\
  vox (spec_bandpass (ramp_volume 10 1 1 1) 24 0 12) 0 0 0 0 = 0%R /\
  exists out,
    temporal_bandpass_filter_f64 (ramp_volume 10 1 1 1) 24 0 12 = Ok out /\
    vox out 0 0 0 0 = (1 / 2)%R.
Proof.
  split; [split; [exact f64_value_24
                 | split; [exact f64_value_0 | exact f64_value_12]] |].
  split; [lra |].
  assert (Hf : spec_abs_frequency 10 24 5 = 12%R).
  { unfold spec_abs_frequency. cbn [Nat.min Nat.sub INR]. lra. }
  split; [exact Hf |].
  split; [rewrite Hf; apply spec_in_band_iff; lra |].
  split; [reflexivity |]. split; [reflexivity |].
  split.
  - cbn [spec_bandpass vox].
    change (nframes (ramp_volume 10 1 1 1)) with 10.
    rewrite (idft_ext 10 _
               (dft 10 (fun t' => vox (ramp_volume 10 1 1 1) t' 0 0 0))).
    + rewrite idft_dft by lia. cbn [Re fst ramp_volume vox Nat.add INR].
      reflexivity.
    + intros j Hj.
      rewrite (spec_all_in_band 10 j 24 0 12 Hj) by lra. reflexivity.
  - eexists. split.
    { apply temporal_bandpass_filter_f64_Ok;
        [simpl; lia | reflexivity | reflexivity]. }
    cbn [vox]. change (nframes (ramp_volume 10 1 1 1)) with 10.
    rewrite (idft_ext 10 _
               (fun j => if j =? 5 then C0
                         else dft 10 (fun t' => vox (ramp_volume 10 1 1 1)
                                                    t' 0 0 0) j)).
    2:{ intros j Hj. rewrite (mask_10_frames_24_fps j Hj).
        destruct (j =? 5); reflexivity. }
    rewrite idft_without_bin by lia.
    rewrite angle_sym, angle_0_l, Cexp_0.
    change (dft 10) with (dft (2 * 5)). rewrite dft_nyquist by lia.
    unfold Re, Cscale, Cmul. cbn [fst snd Rsum Nat.mul Nat.add].
    cbn [ramp_volume vox]. simpl. lra.
Qed.

(** Three levels of 8 x 8, 4 x 4 and 2 x 2 pixels, two frames: only level 0
    is filtered. *)
Lemma skip_heuristic_witness :
  let pvt := [ramp_volume 2 8 8 1; ramp_volume 2 4 4 1; ramp_volume 2 2 2 1] in
  (Z.of_nat (length pvt) = 3%Z /\ 1 <= 2 /\ (30 <> 0)%R /\
   forall k V, nth_error pvt k = Some V -> nframes V = 2) /\
  exists filtered,
    filter_loop 3 30 (8 / 10) (12 / 10) 0 pvt = Ok filtered /\
    forall i, i < 2 ->
      exists pyr,
        recombine pvt (amplify filtered 20) 3 i = Ok pyr /\
        nth_error (amplify filtered 20) 1
        = Some (zeros_like (ramp_volume 2 4 4 1)) /\
        nth_error pyr 1 = Some (frame_at (ramp_volume 2 4 4 1) i) /\
        nth_error pyr 2 = Some (frame_at (ramp_volume 2 2 2 1) i).
Proof.
  intros pvt.
  assert (Hn : forall k V, nth_error pvt k = Some V -> nframes V = 2).
  { intros k V H. unfold pvt in H.
    destruct k as [| [| [| k]]]; simpl in H;
      [injection H as <-; reflexivity .. | destruct k; discriminate]. }
  assert (Hfps : (30 <> 0)%R) by lra.
  split; [split; [reflexivity |]; split; [lia |]; split; assumption |].
  destruct (skip_heuristic pvt 3 30 (8 / 10) (12 / 10) 20 2
              eq_refl (le_S 1 1 (le_n 1)) Hfps Hn)
    as (filtered & Hfilt & Hrec).
  exists filtered. split; [exact Hfilt |].
  intros i Hi. destruct (Hrec i Hi) as (pyr & Hpyr & _ & Hlev).
  exists pyr. split; [exact Hpyr |].
  destruct (Hlev 1 (ramp_volume 2 4 4 1) eq_refl) as [H1 _].
  destruct (Hlev 2 (ramp_volume 2 2 2 1) eq_refl) as [H2 _].
  destruct H1 as [Ha1 Hp1]; [right; simpl; lia |].
  destruct H2 as [_ Hp2]; [left; reflexivity |].
  auto.
Defined.

(** A volume that is 1/2 everywhere, filtered between 0.8 and 1.2 Hz. *)
Lemma bandpass_rejects_constant_witness :
  (1 <= nframes (const_volume 4 2 2 1 (1 / 2)) /\ (30 <> 0)%R /\
   (0 < 8 / 10)%R) /\
  exists out,
    temporal_bandpass_filter (const_volume 4 2 2 1 (1 / 2)) 30
                             (8 / 10) (12 / 10) = Ok out /\
    vshape out = vshape (const_volume 4 2 2 1 (1 / 2)) /\
    forall t r c k, vox out t r c k = 0%R.
Proof.
  assert (Hn : 1 <= nframes (const_volume 4 2 2 1 (1 / 2)))
    by (simpl; lia).
  assert (Hfps : (30 <> 0)%R) by lra.
  assert (Hlow : (0 < 8 / 10)%R) by lra.
  split; [repeat split; assumption |].
  apply (bandpass_rejects_constant (const_volume 4 2 2 1 (1 / 2)) 30
           (8 / 10) (12 / 10) Hn Hfps Hlow).
  intros t r c k _. reflexivity.
Defined.

(** The same volume filtered between 0 and 1.2 Hz comes back unchanged. *)
Lemma bandpass_keeps_constant_at_zero_witness :
  (1 <= nframes (const_volume 4 2 2 1 (1 / 2)) /\ (30 <> 0)%R /\
   (0 <= 12 / 10)%R) /\
  exists out,
    temporal_bandpass_filter (const_volume 4 2 2 1 (1 / 2)) 30 0 (12 / 10)
    = Ok out /\
    vshape out = vshape (const_volume 4 2 2 1 (1 / 2)) /\
    forall t r c k, t < 4 -> vox out t r c k = (1 / 2)%R.
Proof.
  assert (Hn : 1 <= nframes (const_volume 4 2 2 1 (1 / 2)))
    by (simpl; lia).
  assert (Hfps : (30 <> 0)%R) by lra.
  assert (Hhigh : (0 <= 12 / 10)%R) by lra.
  split; [repeat split; assumption |].
  apply (bandpass_keeps_constant_at_zero (const_volume 4 2 2 1 (1 / 2)) 30
           (12 / 10) Hn Hfps Hhigh).
  intros t r c k _. reflexivity.
Defined.

(** Amplifying a one-level list by 20. *)
Lemma filter_amplify_linear_witness :
  exists A,
    nth_error (amplify [ramp_volume 2 8 8 1] 20) 0 = Some A /\
    vshape A = vshape (ramp_volume 2 8 8 1) /\
    forall t r c k,
      vox A t r c k = (vox (ramp_volume 2 8 8 1) t r c k * 20)%R.
Proof.
  destruct filter_amplify_linear as [H _].
  apply (H [ramp_volume 2 8 8 1] 20%R 0 (ramp_volume 2 8 8 1)).
  reflexivity.
Defined.



(** A store with the two volumes of a two-level run. *)
Lemma originals_not_modified_witness :
  let s := [RealArray (ramp_volume 2 8 8 1); RealArray (ramp_volume 2 4 4 1)] in
  let vols := [ramp_volume 2 8 8 1; ramp_volume 2 4 4 1] in
  Forall2 (holds_volume s) [0; 1] vols /\
  forall out_locs s',
    filter_amplify_reconstruct_st sample_up [0; 1] 2 30 2 (8 / 10) (12 / 10)
                                  20 s = Ok (out_locs, s') ->
    preserved 2 s s' /\
    Forall2 (holds_volume s') [0; 1] vols /\
    Forall (fun l => 2 <= l) out_locs.
Proof.
  intros s vols.
  assert (H : Forall2 (holds_volume s) [0; 1] vols)
    by (repeat constructor).
  split; [exact H |].
  intros out_locs s' Hrun.
  destruct (originals_not_modified sample_up s [0; 1] vols 2 30 2
              (8 / 10) (12 / 10) 20 H) as (_ & _ & Hall & _).
  destruct (Hall out_locs s' Hrun) as (Hp & Hv & Hfresh & _).
  auto.
Defined.

(** Three 8 x 8 colour frames, three levels, 0.8 to 1.2 Hz, alpha = 20. *)
Lemma eulerian_magnification_example :
  exists outs,
    eulerian_magnification sample_down sample_up sample_resize
      [ramp 8 8 3; ramp 8 8 3; ramp 8 8 3] 30 3 (8 / 10) (12 / 10) 20
    = Some outs /\
    length outs = 3 /\
    Forall (fun f => shape f = (8, 8, 3)) outs.
Proof.
  apply (eulerian_magnification_Ok sample_down sample_up sample_resize
           [ramp 8 8 3; ramp 8 8 3; ramp 8 8 3] (8, 8, 3)).
  - discriminate.
  - simpl. lia.
  - repeat constructor.
  - lia.
  - lra.
Qed.

(** * Concrete runs of the further properties *)

(** Four frames at 30 frames per second: the bins are 0, 7.5, 15 and 7.5 Hz. *)
Lemma bandpass_empty_band_witness :
  (1 <= nframes (ramp_volume 4 2 2 1) /\ (30 <> 0)%R /\ (1 < 2)%R) /\
  temporal_bandpass_filter (ramp_volume 4 2 2 1) 30 2 1
  = Ok (zeros_like (ramp_volume 4 2 2 1)).
Proof.
  split; [split; [simpl; lia | split; lra] |].
  apply (bandpass_empty_band (ramp_volume 4 2 2 1) 30 2 1);
    [simpl; lia | lra | lra].
Defined.

Lemma bandpass_all_pass_witness :
  (1 <= nframes (ramp_volume 4 2 2 1) /\ (30 =? 0)%float = false /\
   (f64_of_Z (Z.of_nat (nframes (ramp_volume 4 2 2 1))) * (1 / 30) =? 0)%float
   = false /\
   forall j, j < nframes (ramp_volume 4 2 2 1) ->
     f64_in_band 0 15 (f64_bin_frequency (nframes (ramp_volume 4 2 2 1)) 30 j)
     = true) /\
  exists out,
    temporal_bandpass_filter_f64 (ramp_volume 4 2 2 1) 30 0 15 = Ok out /\
    vshape out = vshape (ramp_volume 4 2 2 1) /\
    forall t r c k, t < nframes (ramp_volume 4 2 2 1) ->
      vox out t r c k = vox (ramp_volume 4 2 2 1) t r c k.
Proof.
  assert (Hall : forall j, j < nframes (ramp_volume 4 2 2 1) ->
            f64_in_band 0 15
              (f64_bin_frequency (nframes (ramp_volume 4 2 2 1)) 30 j)
            = true).
  { intros j Hj. change (nframes (ramp_volume 4 2 2 1)) with 4 in *.
    do 4 (destruct j as [| j]; [vm_compute; reflexivity |]). lia. }
  split.
  - split; [simpl; lia |]. split; [reflexivity |].
    split; [reflexivity | exact Hall].
  - apply (bandpass_all_pass (ramp_volume 4 2 2 1) 30 0 15);
      [simpl; lia | reflexivity | reflexivity | exact Hall].
Defined.

Lemma bandpass_discards_nothing_witness :
  (1 <= nframes (ramp_volume 4 2 2 1) /\ (30 <> 0)%R) /\
  exists fft_data frequencies filtered_data,
    fft (ramp_volume 4 2 2 1) = Ok fft_data /\
    fftfreq (nframes (ramp_volume 4 2 2 1)) (1 / 30) = Ok frequencies /\
    ifft (zero_outside (band_mask frequencies 5 10) fft_data)
    = Ok filtered_data /\
    temporal_bandpass_filter (ramp_volume 4 2 2 1) 30 5 10
    = Ok (real filtered_data) /\
    forall t r c k, snd (vox filtered_data t r c k) = 0%R.
Proof.
  split; [split; [simpl; lia | lra] |].
  apply (bandpass_discards_nothing (ramp_volume 4 2 2 1) 30 5 10);
    [simpl; lia | lra].
Defined.

Lemma bandpass_compose_witness :
  (1 <= nframes (ramp_volume 4 2 2 1) /\ (30 <> 0)%R) /\
  exists out1,
    temporal_bandpass_filter (ramp_volume 4 2 2 1) 30 0 10 = Ok out1 /\
    temporal_bandpass_filter out1 30 5 15
    = temporal_bandpass_filter (ramp_volume 4 2 2 1) 30
        (Rmax 0 5) (Rmin 10 15).
Proof.
  split; [split; [simpl; lia | lra] |].
  apply (bandpass_compose (ramp_volume 4 2 2 1) 30 0 10 5 15);
    [simpl; lia | lra].
Defined.

Lemma bandpass_idempotent_witness :
  (1 <= nframes (ramp_volume 4 2 2 1) /\ (30 <> 0)%R) /\
  exists out,
    temporal_bandpass_filter (ramp_volume 4 2 2 1) 30 5 10 = Ok out /\
    temporal_bandpass_filter out 30 5 10 = Ok out.
Proof.
  split; [split; [simpl; lia | lra] |].
  apply (bandpass_idempotent (ramp_volume 4 2 2 1) 30 5 10);
    [simpl; lia | lra].
Defined.

Lemma bandpass_additive_witness :
  (1 <= nframes (mkVolume 4 2 2 1
                   (fun t r c k => (INR (t + r + c + k) + 1)%R)) /\
   (30 <> 0)%R) /\
  exists out1 out2 out,
    temporal_bandpass_filter (ramp_volume 4 2 2 1) 30 5 10 = Ok out1 /\
    temporal_bandpass_filter (const_volume 4 2 2 1 1) 30 5 10 = Ok out2 /\
    temporal_bandpass_filter
      (mkVolume 4 2 2 1 (fun t r c k => (INR (t + r + c + k) + 1)%R))
      30 5 10 = Ok out /\
    vshape out
    = vshape (mkVolume 4 2 2 1 (fun t r c k => (INR (t + r + c + k) + 1)%R)) /\
    forall t r c k,
      vox out t r c k = (vox out1 t r c k + vox out2 t r c k)%R.
Proof.
  split; [split; [simpl; lia | lra] |].
  apply (bandpass_additive (ramp_volume 4 2 2 1) (const_volume 4 2 2 1 1)
           (mkVolume 4 2 2 1 (fun t r c k => (INR (t + r + c + k) + 1)%R))
           30 5 10).
  - simpl; lia.
  - lra.
  - reflexivity.
  - reflexivity.
  - intros t r c k _. reflexivity.
Defined.

Lemma bandpass_temporal_sum_witness :
  (1 <= nframes (ramp_volume 4 2 2 1) /\ (30 <> 0)%R) /\
  exists out,
    temporal_bandpass_filter (ramp_volume 4 2 2 1) 30 5 10 = Ok out /\
    forall r c k,
      temporal_sum out r c k
      = if Rleb 5 0 && Rleb 0 10
        then temporal_sum (ramp_volume 4 2 2 1) r c k else 0%R.
Proof.
  split; [split; [simpl; lia | lra] |].
  apply (bandpass_temporal_sum (ramp_volume 4 2 2 1) 30 5 10);
    [simpl; lia | lra].
Defined.

(** Two 8 x 8 colour frames and two levels. *)
Lemma assemble_time_slots_witness :
  ([ramp 8 8 3; ramp 8 8 3] <> [] /\ nonempty_shape (8, 8, 3) /\
   Forall (fun f => shape f = (8, 8, 3)) [ramp 8 8 3; ramp 8 8 3]) /\
  exists pyramid_video_t,
    assemble_loop sample_down sample_up sample_resize
      [ramp 8 8 3; ramp 8 8 3] 0 (length [ramp 8 8 3; ramp 8 8 3]) 2 []
    = Ok pyramid_video_t /\
    length pyramid_video_t = S (Z.to_nat (2 - 1)) /\
    (forall k V, nth_error pyramid_video_t k = Some V ->
                 nframes V = length [ramp 8 8 3; ramp 8 8 3]) /\
    forall i frame, nth_error [ramp 8 8 3; ramp 8 8 3] i = Some frame ->
      exists lap_pyramid,
        build_laplacian_pyramid sample_down sample_up frame 2
        = Ok lap_pyramid /\
        map (fun V => frame_at V i) pyramid_video_t = lap_pyramid.
Proof.
  split; [split; [discriminate | split; [simpl; lia | repeat constructor]] |].
  apply (assemble_time_slots sample_down sample_up sample_resize
           [ramp 8 8 3; ramp 8 8 3] (8, 8, 3) 2);
    [discriminate | simpl; lia | repeat constructor].
Defined.

Lemma magnification_by_zero_witness :
  ([ramp 8 8 3; ramp 8 8 3] <> [] /\ nonempty_shape (8, 8, 3) /\
   Forall (fun f => shape f = (8, 8, 3)) [ramp 8 8 3; ramp 8 8 3] /\
   (1 <= 2)%Z /\ (30 <> 0)%R) /\
  eulerian_magnification sample_down sample_up sample_resize
    [ramp 8 8 3; ramp 8 8 3] 30 2 5 10 0
  = Some [ramp 8 8 3; ramp 8 8 3].
Proof.
  split.
  - split; [discriminate |]. split; [simpl; lia |].
    split; [repeat constructor |]. split; [lia | lra].
  - apply (magnification_by_zero sample_down sample_up sample_resize
             [ramp 8 8 3; ramp 8 8 3] (8, 8, 3) 30 2 5 10);
      [discriminate | simpl; lia | repeat constructor | lia | lra].
Defined.

Lemma magnification_empty_band_witness :
  ([ramp 8 8 3; ramp 8 8 3] <> [] /\ nonempty_shape (8, 8, 3) /\
   Forall (fun f => shape f = (8, 8, 3)) [ramp 8 8 3; ramp 8 8 3] /\
   (1 <= 2)%Z /\ (30 <> 0)%R /\ (5 < 10)%R) /\
  eulerian_magnification sample_down sample_up sample_resize
    [ramp 8 8 3; ramp 8 8 3] 30 2 10 5 20
  = Some [ramp 8 8 3; ramp 8 8 3].
Proof.
  split.
  - split; [discriminate |]. split; [simpl; lia |].
    split; [repeat constructor |]. split; [lia |]. split; lra.
  - apply (magnification_empty_band sample_down sample_up sample_resize
             [ramp 8 8 3; ramp 8 8 3] (8, 8, 3) 30 2 10 5 20);
      [discriminate | simpl; lia | repeat constructor | lia | lra | lra].
Defined.

Lemma magnification_static_video_witness :
  ([ramp 8 8 3; ramp 8 8 3] <> [] /\ is_empty (ramp 8 8 3) = false /\
   Forall (fun f => f = ramp 8 8 3) [ramp 8 8 3; ramp 8 8 3] /\
   (1 <= 2)%Z /\ (30 <> 0)%R /\ (0 < 5)%R) /\
  eulerian_magnification sample_down sample_up sample_resize
    [ramp 8 8 3; ramp 8 8 3] 30 2 5 10 20
  = Some [ramp 8 8 3; ramp 8 8 3].
Proof.
  split.
  - split; [discriminate |]. split; [reflexivity |].
    split; [repeat constructor |]. split; [lia |]. split; lra.
  - apply (magnification_static_video sample_down sample_up sample_resize
             [ramp 8 8 3; ramp 8 8 3] (ramp 8 8 3) 30 2 5 10 20);
      [discriminate | reflexivity | repeat constructor | lia | lra | lra].
Defined.

(** Frames of 4 x 4 pixels: no level is filtered. *)
Lemma magnification_all_skipped_witness :
  ([ramp 4 4 3; ramp 4 4 3] <> [] /\ nonempty_shape (4, 4, 3) /\
   Forall (fun f => shape f = (4, 4, 3)) [ramp 4 4 3; ramp 4 4 3] /\
   (1 <= 3)%Z /\
   (3%Z = 1%Z \/ Nat.min (fst (fst (4, 4, 3))) (snd (fst (4, 4, 3))) <= 4)) /\
  eulerian_magnification sample_down sample_up sample_resize
    [ramp 4 4 3; ramp 4 4 3] 0 3 5 10 20
  = Some [ramp 4 4 3; ramp 4 4 3].
Proof.
  split.
  - split; [discriminate |]. split; [simpl; lia |].
    split; [repeat constructor |]. split; [lia |]. right. simpl. lia.
  - apply (magnification_all_skipped sample_down sample_up sample_resize
             [ramp 4 4 3; ramp 4 4 3] (4, 4, 3) 0 3 5 10 20);
      [discriminate | simpl; lia | repeat constructor | lia
      | right; simpl; lia].
Defined.

Lemma magnification_zero_fps_witness :
  ([ramp 8 8 3; ramp 8 8 3] <> [] /\ nonempty_shape (8, 8, 3) /\
   Forall (fun f => shape f = (8, 8, 3)) [ramp 8 8 3; ramp 8 8 3] /\
   (2 <= 2)%Z /\
   4 < Nat.min (fst (fst (8, 8, 3))) (snd (fst (8, 8, 3)))) /\
  eulerian_magnification sample_down sample_up sample_resize
    [ramp 8 8 3; ramp 8 8 3] 0 2 5 10 20
  = None.
Proof.
  split.
  - split; [discriminate |]. split; [simpl; lia |].
    split; [repeat constructor |]. split; [lia |]. simpl. lia.
  - apply (magnification_zero_fps sample_down sample_up sample_resize
             [ramp 8 8 3; ramp 8 8 3] (8, 8, 3) 2 5 10 20);
      [discriminate | simpl; lia | repeat constructor | lia | simpl; lia].
Defined.

Lemma magnification_no_levels_witness :
  (0 <= 0)%Z /\
  eulerian_magnification sample_down sample_up sample_resize
    [ramp 8 8 3; ramp 8 8 3] 30 0 5 10 20
  = None.
Proof.
  split; [lia |].
  apply (magnification_no_levels sample_down sample_up sample_resize
           [ramp 8 8 3; ramp 8 8 3] 30 0 5 10 20).
  lia.
Defined.


(** A 5 x 7 frame: the levels are 5 x 7, 3 x 4 and 2 x 2. *)
Lemma pyramid_level_dimensions_witness :
  is_empty (ramp 5 7 3) = false /\
  exists gp lp,
    build_gaussian_pyramid sample_down (ramp 5 7 3) 3 = Ok gp /\
    build_laplacian_pyramid sample_down sample_up (ramp 5 7 3) 3 = Ok lp /\
    (forall m g, nth_error gp m = Some g ->
       shape g = ((rows (ramp 5 7 3) + 2 ^ m - 1) / 2 ^ m,
                  (cols (ramp 5 7 3) + 2 ^ m - 1) / 2 ^ m,
                  chans (ramp 5 7 3))) /\
    (forall m l, nth_error lp m = Some l ->
       shape l = ((rows (ramp 5 7 3) + 2 ^ m - 1) / 2 ^ m,
                  (cols (ramp 5 7 3) + 2 ^ m - 1) / 2 ^ m,
                  chans (ramp 5 7 3))).
Proof.
  split; [reflexivity |].
  apply (pyramid_level_dimensions sample_down sample_up (ramp 5 7 3) 3).
  reflexivity.
Defined.

(** Two levels of 4 x 4 and 2 x 2 pixels. *)
Lemma reconstruct_accepts_halving_shapes_witness :
  (nonempty_shape (4, 4, 1) /\
   pyramid_shaped (4, 4, 1) 1 [ramp 4 4 1; ramp 2 2 1]) /\
  exists out,
    reconstruct_from_laplacian_pyramid sample_up [ramp 4 4 1; ramp 2 2 1]
    = Ok out /\
    shape out = (4, 4, 1).
Proof.
  assert (Hpyr : pyramid_shaped (4, 4, 1) 1 [ramp 4 4 1; ramp 2 2 1]).
  { split; [reflexivity |].
    intros m f H. destruct m as [| [| [| m]]]; cbn in H;
      try discriminate; injection H as <-; reflexivity. }
  split; [split; [simpl; lia | exact Hpyr] |].
  apply (reconstruct_accepts_halving_shapes sample_up (4, 4, 1) 1
           [ramp 4 4 1; ramp 2 2 1]); [simpl; lia | exact Hpyr].
Defined.

(** A 2 x 2 level stored in a volume of 4 x 4 frames. *)
Lemma store_level_resizes_witness :
  (0 < nframes (const_volume 2 4 4 1 0) /\
   is_empty (ramp 2 2 1) = false /\
   1 <= vrows (const_volume 2 4 4 1 0) /\
   1 <= vcols (const_volume 2 4 4 1 0) /\
   chans (ramp 2 2 1) = vchans (const_volume 2 4 4 1 0) /\
   (rows (ramp 2 2 1), cols (ramp 2 2 1))
   <> (vrows (const_volume 2 4 4 1 0), vcols (const_volume 2 4 4 1 0))) /\
  exists vol',
    store_level sample_resize (const_volume 2 4 4 1 0) 0 (ramp 2 2 1)
    = Ok vol' /\
    vshape vol' = vshape (const_volume 2 4 4 1 0) /\
    vox vol' 0
    = sample_resize (ramp 2 2 1) (vcols (const_volume 2 4 4 1 0))
        (vrows (const_volume 2 4 4 1 0)) /\
    forall t, t <> 0 -> vox vol' t = vox (const_volume 2 4 4 1 0) t.
Proof.
  split.
  - split; [simpl; lia |]. split; [reflexivity |].
    split; [simpl; lia |]. split; [simpl; lia |].
    split; [reflexivity |]. simpl. discriminate.
  - apply (store_level_resizes sample_resize (const_volume 2 4 4 1 0) 0
             (ramp 2 2 1));
      [simpl; lia | reflexivity | simpl; lia | simpl; lia | reflexivity
      | simpl; discriminate].
Defined.

(** A file of three 4 x 4 frames read with a limit of two frames. *)
Lemma load_video_frames_witness :
  (is_opened (sample_video 3 4 4 3) = true /\
   video_frames (sample_video 3 4 4 3) <> []) /\
  load_video (sample_video 3 4 4 3) (Some 2%Z)
  = inr (map normalize
           (firstn (Z.to_nat (Z.max 1 2)) (video_frames (sample_video 3 4 4 3))),
         video_fps (sample_video 3 4 4 3),
         video_width (sample_video 3 4 4 3),
         video_height (sample_video 3 4 4 3)).
Proof.
  split; [split; [reflexivity | discriminate] |].
  apply (proj2 (proj2 (load_video_frames (sample_video 3 4 4 3) (Some 2%Z))));
    [reflexivity | discriminate].
Defined.

Lemma loaded_frames_normalized_witness :
  load_video (sample_video 2 4 4 3) None
  = inr ([normalize (raw_ramp 4 4 3); normalize (raw_ramp 4 4 3)],
         30%R, 4, 4) /\
  30%R = video_fps (sample_video 2 4 4 3) /\
  forall f,
    In f [normalize (raw_ramp 4 4 3); normalize (raw_ramp 4 4 3)] ->
    (exists raw, In raw (video_frames (sample_video 2 4 4 3)) /\
                 f = normalize raw /\
                 shape f = (raw_rows raw, raw_cols raw, raw_chans raw)) /\
    forall r c k, (0 <= pix f r c k <= 1)%R.
Proof.
  split; [reflexivity |].
  apply (loaded_frames_normalized (sample_video 2 4 4 3) None
           [normalize (raw_ramp 4 4 3); normalize (raw_ramp 4 4 3)] 30 4 4).
  reflexivity.
Defined.

(** The value 2 is written as 255. *)
Lemma written_pixel_witness :
  (1 <= pix (ramp 2 2 1) 1 1 0)%R /\
  Byte.to_nat (raw_pix (denormalize (ramp 2 2 1)) 1 1 0) = 255.
Proof.
  assert (H : (1 <= pix (ramp 2 2 1) 1 1 0)%R) by (simpl; lra).
  split; [exact H |].
  exact (proj1 (proj2 (written_pixel (ramp 2 2 1) 1 1 0)) H).
Defined.

